(** * Radial timeline (vast-2025): filter engine, interaction state and layout

    A shallow embedding of the parts of [src/Overview.jsx] (and of the
    view-fit code of the older component kept in [src/App.jsx]) that the
    specification talks about.

    Conventions of the embedding.
    - Entity ids are JSON numbers, modelled as [Z]; the only falsy id is [0].
    - A field that may be missing (or is not an array where the source
      tests [Array.isArray]) is an [option].
    - JavaScript numbers are modelled as exact rationals [Q]; where the
      source can produce [NaN] (a [0/0]) the value is an [option Q] with
      [None] for [NaN].  [Math.cos], [Math.sin], [Math.sqrt] and
      [Math.log10] are functions of the environment.
    - A release year is a JSON number, modelled as [Z]; the year [0] is
      falsy like a missing year.
    - Angles are kept in degrees, so that the point scale stays rational:
      the source's [-Math.PI/4 .. Math.PI/4] is [-45 .. 45] here.
    - A JavaScript [Set] of strings is a [gset string]; only membership and
      [size] are ever used on it. *)

From Stdlib Require Import ZArith QArith Qpower Qround DecimalString Lia Lqa.
From Stdlib Require Import Sorting.Sorted.
From stdpp Require Import base gmap sets list strings sorting.

Local Open Scope string_scope.
Local Open Scope list_scope.

(** ** Genre vocabulary (Overview.jsx, [GENRE_GROUPS] and [FLAT_GENRES]) *)

Record GenreGroup := mkGenreGroup {
  group_name : string;
  hue : Z;
  baseColor : string;
  genres_of : list string
}.

Definition GENRE_GROUPS : list GenreGroup :=
  [ mkGenreGroup "Folk" 40 "#FFE35E"
      ["Acoustic Folk"; "Avant-Garde Folk"; "Celtic Folk"; "Indie Folk";
       "Oceanus Folk"; "Post-Apocalyptic Folk"];
    mkGenreGroup "Rock" 0 "#F13D81"
      ["Alternative Rock"; "Blues Rock"; "Desert Rock"; "Indie Rock";
       "Jazz Surf Rock"; "Psychedelic Rock"; "Southern Gothic Rock";
       "Space Rock"];
    mkGenreGroup "Pop" 210 "#37B6FF"
      ["Indie Pop"; "Dream Pop"; "Synthpop"];
    mkGenreGroup "Metal" 280 "#9445EC"
      ["Doom Metal"; "Speed Metal"; "Symphonic Metal"];
    mkGenreGroup "Other" 120 "#55FFB5"
      ["Americana"; "Darkwave"; "Emo/Pop Punk"; "Lo-Fi Electronica";
       "Sea Shanties"; "Synthwave"] ].

Definition FLAT_GENRES : list string := flat_map genres_of GENRE_GROUPS.

(** [new Set(genres)]: the selection holding the whole vocabulary. *)
Definition allGenres : gset string := list_to_set FLAT_GENRES.

(** [ARTIST_ROLES.map(r => r.label)] *)
Definition ARTIST_ROLES : list string :=
  ["Composer"; "Lyricist"; "Performer"; "Producer"].

(** ** Data model: the records of [data.nodes] *)

(** The ["Node Type"] discriminant after [toLowerCase()]; [OtherType] stands
    for a missing field or any other string. *)
Inductive NodeType :=
  Song | Album | Person | MusicalGroup | RecordLabel | OtherType.

Global Instance NodeType_eq_dec : EqDecision NodeType.
Proof. solve_decision. Defined.

(** One event of a contributor's [influence] array.  [inf_year = None] is
    the ["Unknown"] tag (or any value whose [Number(..)] is [NaN]). *)
Record InfluenceEvent := mkInf {
  inf_year : option Z;
  inf_score : Q
}.

Record Node := mkNode {
  id : Z;
  node_type : NodeType;
  name : option string;
  genre : option string;
  release_date : option Z;
  influencedBy : option (list Z);
  contributedTo : option (list Z);
  recordedArtwork : option (list Z);
  distributedArtwork : option (list Z);
  roles : option (list string);
  totalInfluence : option Q;
  influence : option (list InfluenceEvent)
}.

(** JavaScript truthiness of an id, and of a nullable selection
    ([if (selectedLabelId)]). *)
Definition truthy (i : Z) : bool := negb (i =? 0)%Z.

Definition selected (s : option Z) : bool :=
  match s with Some i => truthy i | None => false end.

(** [Array.isArray(a) ? a : []] *)
Definition orEmpty {A} (a : option (list A)) : list A := default [] a.

(** [set.has(n.genre)] for a possibly missing genre. *)
Definition hasGenre (s : gset string) (g : option string) : bool :=
  match g with Some x => bool_decide (x ∈ s) | None => false end.

(** ** DataIndex: partitions and the id lookup *)

Definition isArtwork (n : Node) : bool :=
  match node_type n with Song | Album => true | _ => false end.

Definition nodes (data : list Node) : list Node := List.filter isArtwork data.

Definition people (data : list Node) : list Node :=
  List.filter (λ n, bool_decide (node_type n = Person)) data.

Definition groups (data : list Node) : list Node :=
  List.filter (λ n, bool_decide (node_type n = MusicalGroup)) data.

Definition recordLabels (data : list Node) : list Node :=
  List.filter (λ n, bool_decide (node_type n = RecordLabel)) data.

(** [data.nodes.forEach(n => { map[n.id] = n; })]: a later node with the
    same id overwrites an earlier one. *)
Definition nodeById (data : list Node) : gmap Z Node :=
  foldl (λ m n, <[id n := n]> m) ∅ data.

(** ** FilterEngine: [filteredNodes] and the visible sets *)

Definition genrePass (selectedGenres : gset string) (n : Node) : bool :=
  bool_decide (size selectedGenres = 0) || hasGenre selectedGenres (genre n).

Definition influenceGenreNodeIds (data : list Node)
    (influenceGenres : gset string) : gset Z :=
  list_to_set
    (map id (List.filter (λ n, hasGenre influenceGenres (genre n)) data)).

Definition influencePass (ids : gset Z) (n : Node) : bool :=
  match influencedBy n with
  | Some l => existsb (λ i, bool_decide (i ∈ ids)) l
  | None => false
  end.

Definition labelSet (label : Node) : gset Z :=
  list_to_set (orEmpty (recordedArtwork label) ++ orEmpty (distributedArtwork label)).

Definition inSet (s : gset Z) (n : Node) : bool := bool_decide (id n ∈ s).

Definition filteredNodes (data : list Node)
    (selectedGenres influenceGenres : gset string)
    (selectedArtistId selectedLabelId : option Z) : list Node :=
  let filtered := List.filter (genrePass selectedGenres) (nodes data) in
  let filtered :=
    if bool_decide (0 < size influenceGenres)
    then List.filter (influencePass (influenceGenreNodeIds data influenceGenres)) filtered
    else filtered in
  if selected selectedLabelId then
    match selectedLabelId ≫= (λ i, nodeById data !! i) with
    | Some label => List.filter (inSet (labelSet label)) filtered
    | None => filtered
    end
  else if selected selectedArtistId then
    match selectedArtistId ≫= (λ i, nodeById data !! i) with
    | Some artist =>
        match contributedTo artist with
        | Some c => List.filter (inSet (list_to_set c)) filtered
        | None => filtered
        end
    | None => filtered
    end
  else filtered.

Definition visibleSongAlbumIds (filtered : list Node) : gset Z :=
  list_to_set (map id filtered).

Definition contributesToVisible (visible : gset Z) (p : Node) : bool :=
  match contributedTo p with
  | Some c => existsb (λ i, bool_decide (i ∈ visible)) c
  | None => false
  end.

Definition visiblePeople (data : list Node) (visible : gset Z) : list Node :=
  List.filter (contributesToVisible visible) (people data).

Definition visibleGroups (data : list Node) (visible : gset Z) : list Node :=
  List.filter (contributesToVisible visible) (groups data).

Definition hasSelectedRole (selectedRoles : gset string) (p : Node) : bool :=
  match roles p with
  | Some rs => existsb (λ r, bool_decide (r ∈ selectedRoles)) rs
  | None => false
  end.

Definition artistNodes (data : list Node) (visible : gset Z)
    (selectedRoles : gset string) : list Node :=
  List.filter (hasSelectedRole selectedRoles) (visiblePeople data visible)
  ++ List.filter (hasSelectedRole selectedRoles) (visibleGroups data visible).

Definition visibleLabels (data : list Node) (visible : gset Z) : list Node :=
  List.filter
    (λ l, existsb (λ i, bool_decide (i ∈ visible))
            (orEmpty (recordedArtwork l) ++ orEmpty (distributedArtwork l)))
    (recordLabels data).

(** ** InteractionController: the React state and its event handlers *)

(** d3-zoom's transform [{k, x, y}]: a point [(px, py)] is drawn at
    [(px * k + x, py * k + y)]. *)
Record Transform := mkTransform { tk : Q; tx : Q; ty : Q }.

Definition zoomIdentity : Transform := mkTransform 1 0 0.

Definition translate (t : Transform) (x y : Q) : Transform :=
  mkTransform (tk t) (tx t + tk t * x) (ty t + tk t * y).

Definition scale (t : Transform) (s : Q) : Transform :=
  mkTransform (tk t * s) (tx t) (ty t).


Record State := mkState {
  selectedGenres : gset string;
  influenceGenres : gset string;
  selectedRoles : gset string;
  selectedArtistId : option Z;
  selectedLabelId : option Z;
  selectedArtworkId : option Z;
  hoveredArtworkId : option Z;
  zoomTransformRef : Transform
}.

(** The [useState]/[useRef] initial values. *)
Definition initState : State :=
  mkState allGenres ∅ (list_to_set ARTIST_ROLES) None None None None zoomIdentity.

Definition filteredNodesOf (data : list Node) (st : State) : list Node :=
  filteredNodes data (selectedGenres st) (influenceGenres st)
    (selectedArtistId st) (selectedLabelId st).

Definition artistNodesOf (data : list Node) (st : State) : list Node :=
  artistNodes data (visibleSongAlbumIds (filteredNodesOf data st)) (selectedRoles st).

Definition visibleLabelsOf (data : list Node) (st : State) : list Node :=
  visibleLabels data (visibleSongAlbumIds (filteredNodesOf data st)).

(** [next.has(x) ? next.delete(x) : next.add(x)] *)
Definition toggle (x : string) (s : gset string) : gset string :=
  if bool_decide (x ∈ s) then s ∖ {[x]} else s ∪ {[x]}.

(** [cur === i ? null : i] *)
Definition toggleSel (cur : option Z) (i : Z) : option Z :=
  if bool_decide (cur = Some i) then None else Some i.

(** [allSelected ? new Set() : new Set(all)] *)
Definition selectAll (all : list string) (s : gset string) : gset string :=
  if bool_decide (size s = length all) then ∅ else list_to_set all.

Inductive Event :=
  | ClickLabel (l : Z)            (* click on a label ellipse *)
  | ClickArtist (a : Z)           (* click on a person circle or group square *)
  | SearchSelectArtist (a : Z)    (* pick an entry of the artist search list *)
  | ClickArtwork (w : Z)          (* click on a work dot *)
  | ClickBackground               (* click on the transparent backdrop *)
  | HoverArtwork (w : Z)
  | HoverExit
  | Zoom (t : Transform)          (* d3-zoom pan/zoom gesture *)
  | HandleGenreChange (g : string)
  | HandleSelectAll
  | HandleInfluenceGenreChange (g : string)
  | HandleInfluenceSelectAll
  | HandleRoleChange (r : string)
  | HandleRoleSelectAll.

Definition handle (st : State) (ev : Event) : State :=
  let '(mkState sg ig sr a l w h z) := st in
  match ev with
  | ClickLabel i => mkState sg ig sr None (toggleSel l i) None h z
  | ClickArtist i => mkState sg ig sr (toggleSel a i) l w h z
  | SearchSelectArtist i => mkState sg ig sr (Some i) l w h z
  | ClickArtwork i => mkState sg ig sr a l (toggleSel w i) h z
  | ClickBackground => mkState sg ig sr None None None h z
  | HoverArtwork i => mkState sg ig sr a l w (Some i) z
  | HoverExit => mkState sg ig sr a l w None z
  | Zoom t => mkState sg ig sr a l w h t
  | HandleGenreChange g => mkState (toggle g sg) ig sr a l w h z
  | HandleSelectAll => mkState (selectAll FLAT_GENRES sg) ig sr a l w h z
  | HandleInfluenceGenreChange g => mkState sg (toggle g ig) sr a l w h z
  | HandleInfluenceSelectAll => mkState sg (selectAll FLAT_GENRES ig) sr a l w h z
  | HandleRoleChange r => mkState sg ig (toggle r sr) a l w h z
  | HandleRoleSelectAll => mkState sg ig (selectAll ARTIST_ROLES sr) a l w h z
  end.

Definition hasId (i : Z) (l : list Node) : bool :=
  existsb (λ n, (id n =? i)%Z) l.

Definition nonEmptyName (n : Node) : bool :=
  match name n with Some s => negb (String.eqb s "") | None => false end.

(** Which events the current frame offers.  A mark can be clicked only if
    it is drawn: a label when it is in [visibleLabels], an artist when
    [filteredNodes] is non-empty and it is in [artistNodes].  The search
    list offers the artists of [artistNodes] that have a name.  The dots
    above the timeline are works of [filteredNodes]; the dots below it are
    the entries of [nodeById] that the works of the selected contributor
    name as influences, whatever their node type.  Both kinds store the id
    of their node, so a dot is offered for every node of the dataset (more
    than one frame draws; the handlers only touch the artwork and hover
    fields). *)
Definition enabled (data : list Node) (st : State) (ev : Event) : bool :=
  match ev with
  | ClickLabel i => hasId i (visibleLabelsOf data st)
  | ClickArtist i =>
      negb (Nat.eqb (length (filteredNodesOf data st)) 0)
      && hasId i (artistNodesOf data st)
  | SearchSelectArtist i =>
      hasId i (List.filter nonEmptyName (artistNodesOf data st))
  | ClickArtwork i | HoverArtwork i => hasId i data
  | HandleGenreChange g | HandleInfluenceGenreChange g =>
      bool_decide (g ∈ FLAT_GENRES)
  | HandleRoleChange r => bool_decide (r ∈ ARTIST_ROLES)
  | _ => true
  end.

Inductive reachable (data : list Node) : State → Prop :=
  | reachable_init : reachable data initState
  | reachable_step st ev :
      reachable data st → enabled data st ev = true →
      reachable data (handle st ev).

(** The pie glyph layer is guarded by
    [influenceGenres.size === genres.length]. *)
Definition pieGlyphsShown (influenceGenres : gset string) : bool :=
  bool_decide (size influenceGenres = length FLAT_GENRES).

(** [filteredNodes.filter(d => String(d.release_date) === String(year))] *)
Definition yearData (filtered : list Node) (year : Z) : list Node :=
  List.filter (λ d, bool_decide (release_date d = Some year)) filtered.

(** The years that get a pie: the layer must be on and the year must have
    at least one visible work ([if (yearData.length === 0) return]). *)
Definition pieGlyphYears (arcYears : list Z) (filtered : list Node)
    (influenceGenres : gset string) : list Z :=
  if pieGlyphsShown influenceGenres
  then List.filter (λ y, negb (Nat.eqb (length (yearData filtered y)) 0)) arcYears
  else [].

(** Every work carries a genre of the fixed vocabulary. *)
Definition genresInVocabulary (data : list Node) : bool :=
  forallb (λ n, hasGenre allGenres (genre n)) (nodes data).

(** ** A small dataset: three works of one genre, one contributor, one label *)

Definition work (i : Z) (t : NodeType) (y : Z) (infl : option (list Z)) : Node :=
  mkNode i t None (Some "Oceanus Folk") (Some y) infl None None None None None None.

(** The contributor of the three works, with one influence event of
    magnitude 5 in 2005. *)
Definition ada : Node :=
  mkNode 10 Person (Some "Ada") None None None (Some [1; 2; 3]%Z) None None
    (Some ["Performer"]) (Some 5%Q) (Some [mkInf (Some 2005%Z) 5]).

Definition scenario : list Node :=
  [ work 1 Song 2000 (Some []);
    work 2 Song 2005 (Some [1%Z]);
    work 3 Album 2010 None;
    ada;
    mkNode 20 RecordLabel (Some "Tide") None None None None (Some [1; 2]%Z)
      (Some []) None None None ].

(** ** LayoutEngine: the temporal scale *)

(** What [filter(Boolean)] keeps of a release year: the year is a number,
    so a missing field and the year 0 are both dropped. *)
Definition datedYear (n : Node) : option Z :=
  y ← release_date n; if truthy y then Some y else None.

(** The distinct release years of the works, ascending
    ([nodes.map(node => node.release_date).filter(Boolean)], then
    [Array.from(new Set(y)).sort((a, b) => a - b)]). *)
Definition years (data : list Node) : list Z :=
  merge_sort Z.le (remove_dups (omap datedYear (nodes data))).

(** [years.map(String).sort((a, b) => Number(a) - Number(b))]: the decimal
    strings are represented by the integers they spell. *)
Definition arcYears (data : list Node) : list Z := merge_sort Z.le (years data).

(** [Array.prototype.indexOf] *)
Fixpoint indexOf (x : Z) (l : list Z) : option nat :=
  match l with
  | [] => None
  | y :: l' => if (y =? x)%Z then Some 0 else S <$> indexOf x l'
  end.

Definition ofNat (n : nat) : Q := inject_Z (Z.of_nat n).

(** Modelled from the spec: the ordinal point scale ([d3.scalePoint], an
    external library) that maps the [i]-th value of its domain onto the
    range [r0 .. r1] in equal steps: a band scale with inner padding 1, no
    outer padding and alignment 1/2.  A value outside the domain has no
    image. *)
Definition scalePoint (domain : list Z) (r0 r1 : Q) (x : Z) : option Q :=
  let dom := remove_dups domain in
  let n := length dom in
  let reverse := negb (Qle_bool r0 r1) in
  let start := if reverse then r1 else r0 in
  let stop := if reverse then r0 else r1 in
  let step := ((stop - start) / inject_Z (Z.max 1 (Z.of_nat n - 1)))%Q in
  let start := (start + (stop - start - step * (ofNat n - 1)) * (1 # 2))%Q in
  i ← indexOf x dom;
  Some (start + step * ofNat (if reverse then n - 1 - i else i))%Q.

(** The arc, in degrees ([-Math.PI / 4] and [Math.PI / 4]). *)
Definition arcStart : Q := (-45)%Q.
Definition arcEnd : Q := 45%Q.

Definition angleScale (data : list Node) (year : Z) : option Q :=
  scalePoint (arcYears data) arcStart arcEnd year.

(** [parseInt(year) % 5 === 0] *)
Definition isMajorTick (year : Z) : bool := (Z.rem year 5 =? 0)%Z.

(** ** LayoutEngine: the influence bands *)

(** The number of decimal digits of [n >= 1], minus one. *)
Fixpoint ilog10_fuel (fuel : nat) (n : Z) : Z :=
  match fuel with
  | O => 0
  | S f => if (n <? 10)%Z then 0 else (1 + ilog10_fuel f (n / 10))%Z
  end.

Definition ilog10 (n : Z) : Z := ilog10_fuel (S (Z.to_nat (Z.log2 n))) n.

(** [Math.floor(Math.log10(x))] with the logarithm read exactly; [None] is
    the [NaN] of a negative argument (the source never calls it at [0]). *)
Definition floor_log10 (x : Q) : option Z :=
  let a := Qnum x in
  let b := Z.pos (Qden x) in
  if (a <=? 0)%Z then None
  else if (b <=? a)%Z then Some (ilog10 (a / b))
  else Some (- (1 + ilog10 ((b - 1) / a)))%Z.



(** [function getBandIdx(inf)] with the logarithm read exactly: it is
    [getBandIdxWith exactLog10]. *)
Definition getBandIdx (inf : Q) : option Z :=
  if Qeq_bool inf 0%Q then Some 0%Z
  else k ← floor_log10 inf; Some (1 + k)%Z.

(** [typeof node.totalInfluence === 'number' ? node.totalInfluence : 0] *)
Definition influenceScore (n : Node) : Q := default 0%Q (totalInfluence n).

Definition bandIdx (n : Node) : option Z := getBandIdx (influenceScore n).


(** ** LayoutEngine: the influence ribbon (tail) of a contributor *)

(** [Math.min] and [Math.max] *)
Definition qmin (a b : Q) : Q := if Qle_bool a b then a else b.
Definition qmax (a b : Q) : Q := if Qle_bool a b then b else a.

(** [Math.min(...l)] and [Math.max(...l)]; the source applies them to a
    non-empty array only. *)
Definition listMin (l : list Q) : Q :=
  match l with [] => 0%Q | x :: l' => fold_left qmin l' x end.
Definition listMax (l : list Q) : Q :=
  match l with [] => 0%Q | x :: l' => fold_left qmax l' x end.

(** The years of the works a contributor is credited with, before the
    sort: [Number(art.release_date)] of every credited work found in the
    dataset, with repetitions.  An id with no node is dropped
    ([filter(y => y !== null)]); a work without a release year stays in the
    list as [NaN] ([None]). *)
Definition contributedYears (data : list Node) (node : Node) : list (option Z) :=
  omap (λ i, release_date <$> nodeById data !! i) (orEmpty (contributedTo node)).

(** The numbers of a list, if it holds no [NaN]. *)
Fixpoint allNumbers (l : list (option Z)) : option (list Z) :=
  match l with
  | [] => Some []
  | Some y :: l' => cons y <$> allNumbers l'
  | None :: _ => None
  end.

(** [.sort((a, b) => a - b)]: ascending when every year is a number.  With
    a [NaN] among them the comparator is not an order and the place of the
    entries is left to the engine: no list is given ([None]). *)
Definition sortYears (years : list (option Z)) : option (list Z) :=
  merge_sort Z.le <$> allNumbers years.

(** [yearsContributed] of a contributor whose credited works are all
    dated: the release years of the credited works, ascending, with
    repetitions.  It is [sortYears (contributedYears data node)] whenever
    that is a list. *)
Definition yearsContributed (data : list Node) (node : Node) : list Z :=
  merge_sort Z.le
    (omap (λ i, art ← nodeById data !! i; release_date art)
          (orEmpty (contributedTo node))).

(** The events with a numeric year ([cleanInfluenceArray] before the
    redistribution) as (year, score) pairs. *)
Definition knownEvents (influenceArray : list InfluenceEvent) : list (Z * Q) :=
  omap (λ inf, y ← inf_year inf; Some (y, inf_score inf)) influenceArray.

Definition unknownInfluence (influenceArray : list InfluenceEvent) : Q :=
  fold_left
    (λ acc inf, match inf_year inf with None => acc + inf_score inf | Some _ => acc end)%Q
    influenceArray 0%Q.

(** The influence of unknown year is shared out evenly over the contributed
    years. *)
Definition cleanInfluenceArray (influenceArray : list InfluenceEvent)
    (yearsContributed : list Z) : list (Z * Q) :=
  let u := unknownInfluence influenceArray in
  if negb (Qle_bool u 0) && negb (Nat.eqb (length yearsContributed) 0)
  then knownEvents influenceArray
       ++ map (λ y, (y, u / ofNat (length yearsContributed))%Q) yearsContributed
  else knownEvents influenceArray.

(** The sorted union of the artwork years and the influence years. *)
Definition yearsList (clean : list (Z * Q)) (yearsContributed : list Z) : list Z :=
  merge_sort Z.le (remove_dups (yearsContributed ++ map fst clean)).

(** The summed score of the events of one year; [None] when the year has no
    event. *)
Definition yearScore (clean : list (Z * Q)) (year : Z) : option Q :=
  match List.filter (λ e, (fst e =? year)%Z) clean with
  | [] => None
  | yearInfluences => Some (fold_left (λ sum e, sum + snd e)%Q yearInfluences 0%Q)
  end.

Definition cumulativeStep (clean : list (Z * Q)) (acc : Q * gmap Z Q) (year : Z)
    : Q * gmap Z Q :=
  match yearScore clean year with
  | Some yearScore => ((acc.1 + yearScore)%Q, <[year := (acc.1 + yearScore)%Q]> acc.2)
  | None => acc
  end.

(** The running sum of the scores, recorded at the years that have events. *)
Definition cumulativeByKnownYear (clean : list (Z * Q)) (yearsList : list Z)
    : gmap Z Q :=
  (fold_left (cumulativeStep clean) yearsList (0%Q, ∅)).2.

(** The four loop variables of the interpolation pass; [-1] is "none". *)
Record FillState := mkFill {
  lastKnownIdx : Z;
  lastKnownValue : Q;
  nextKnownIdx : Z;
  nextKnownValue : Q
}.

Definition initFill : FillState := mkFill (-1) 0 (-1) 0.

(** The inner [for (j = i + 1; ...)] search, over the years after the
    current one. *)
Fixpoint findNextKnown (cum : gmap Z Q) (rest : list Z) (j : nat)
    : option (nat * Q) :=
  match rest with
  | [] => None
  | y :: rest' =>
      match cum !! y with
      | Some v => Some (j, v)
      | None => findNextKnown cum rest' (S j)
      end
  end.

(** One turn of the [for (let i = 0; ...)] loop at index [i], the years
    after it being [rest]: the new loop variables and [influenceByYear[year]]. *)
Definition fillStep (cum : gmap Z Q) (i : nat) (year : Z) (rest : list Z)
    (s : FillState) : FillState * Q :=
  match cum !! year with
  | Some c => (mkFill (Z.of_nat i) c (nextKnownIdx s) (nextKnownValue s), c)
  | None =>
      let s :=
        if (nextKnownIdx s <=? Z.of_nat i)%Z then
          match findNextKnown cum rest (S i) with
          | Some (j, v) => mkFill (lastKnownIdx s) (lastKnownValue s) (Z.of_nat j) v
          | None => mkFill (lastKnownIdx s) (lastKnownValue s) (-1) (nextKnownValue s)
          end
        else s in
      let hasLast := negb (lastKnownIdx s =? -1)%Z in
      let hasNext := negb (nextKnownIdx s =? -1)%Z in
      let v :=
        if negb hasLast && hasNext then nextKnownValue s
        else if hasLast && negb hasNext then lastKnownValue s
        else if hasLast && hasNext then
          let t := (inject_Z (Z.of_nat i - lastKnownIdx s)
                    / inject_Z (nextKnownIdx s - lastKnownIdx s))%Q in
          (lastKnownValue s + t * (nextKnownValue s - lastKnownValue s))%Q
        else 0%Q in
      (s, v)
  end.

Fixpoint fillLoop (cum : gmap Z Q) (i : nat) (years : list Z) (s : FillState)
    : list Q :=
  match years with
  | [] => []
  | year :: rest =>
      let '(s', v) := fillStep cum i year rest s in
      v :: fillLoop cum (S i) rest s'
  end.

(** The cumulative-influence sequence of a ribbon: the values
    [influenceByYear[yearsList[i]]] in the order of [yearsList] (its years
    are distinct, so each key is written once). *)
Definition influenceByYear (influenceArray : list InfluenceEvent)
    (yearsContributed : list Z) : list Q :=
  let clean := cleanInfluenceArray influenceArray yearsContributed in
  let yl := yearsList clean yearsContributed in
  fillLoop (cumulativeByKnownYear clean yl) 0 yl initFill.

(** A JavaScript number that may be [NaN] ([None]). *)
Definition jsnum := option Q.

(** [a / b] where the only division by zero that occurs is [0 / 0]. *)
Definition jsdiv (a b : Q) : jsnum :=
  if Qeq_bool b 0 then None else Some (a / b)%Q.

(** [i / (n - 1)], the progress along a sequence of [n] points. *)
Definition progress (i n : nat) : jsnum := jsdiv (ofNat i) (ofNat n - 1).

(** The radius of the tail at each year: the cumulative influence mapped
    onto [tailMin .. tailMax], or, when all values are equal, the index
    mapped onto it. *)
Definition tailRadii (influenceVals : list Q) (tailMin tailMax : Q) : list jsnum :=
  let minTailInf := listMin influenceVals in
  let maxTailInf := listMax influenceVals in
  if negb (Qeq_bool maxTailInf minTailInf) then
    map (λ val, Some (tailMin + ((val - minTailInf) / (maxTailInf - minTailInf))
                                * (tailMax - tailMin))%Q) influenceVals
  else
    imap (λ i _, t ← progress i (length influenceVals);
                 Some (tailMin + t * (tailMax - tailMin))%Q) influenceVals.

(** The placement of a contributor that the tail needs: the centre of the
    arc, the angle the tail starts at and the angle of the placed mark, the
    start and end radius, and the radius of the mark. *)
Record TailGeom := mkTailGeom {
  centerX : Q;
  centerY : Q;
  startAngle : Q;
  endAngle : Q;
  tailMin : Q;
  tailMax : Q;
  artistRadius : Q
}.

(** The commands of an SVG path [d] string. *)
Inductive PathCmd :=
  | MoveTo (x y : Q)
  | QuadTo (cx cy x y : Q)
  | LineTo (x y : Q)
  | ClosePath.

Definition Point : Type := jsnum * jsnum.

(** [!isNaN(p[0]) && !isNaN(p[1])], giving the coordinates when it holds. *)
Definition finitePt (p : Point) : option (Q * Q) :=
  x ← p.1; y ← p.2; Some (x, y).

(** A quadratic segment through [ctrl] to the midpoint of [ctrl] and
    [other], emitted only when both points pass the [isNaN] tests. *)
Definition quadSeg (ctrl other : Point) : list PathCmd :=
  match finitePt ctrl, finitePt other with
  | Some (cx, cy), Some (ox, oy) =>
      [QuadTo cx cy ((cx + ox) / 2)%Q ((cy + oy) / 2)%Q]
  | _, _ => []
  end.

Definition lineSeg (p : option Point) : list PathCmd :=
  match p ≫= finitePt with Some (x, y) => [LineTo x y] | None => [] end.

(** The closed outline built from the outer points and, backwards, the
    inner points; [None] when the first outer point is missing or [NaN] and
    nothing is appended to the drawing. *)
Definition tailPath (pointsOuter pointsInner : list Point) : option (list PathCmd) :=
  match pointsOuter with
  | [] => None
  | p0 :: _ =>
      match finitePt p0 with
      | None => None
      | Some (x0, y0) =>
          Some ([MoveTo x0 y0]
                ++ flat_map (λ pc, quadSeg pc.1 pc.2)
                     (zip pointsOuter (tail pointsOuter))
                ++ (if Nat.ltb 1 (length pointsOuter)
                    then lineSeg (last pointsOuter) else [])
                ++ lineSeg (last pointsInner)
                ++ flat_map (λ cn, quadSeg cn.2 cn.1)
                     (rev (zip pointsInner (tail pointsInner)))
                ++ [ClosePath])
      end
  end.

Section Tail.
(** [Math.cos] and [Math.sin], of an angle in degrees. *)
Variables cosd sind : Q → Q.

(** [angles]: the index mapped onto [startAngle .. endAngle]. *)
Definition tailAngles (g : TailGeom) (n : nat) : list jsnum :=
  map (λ i, t ← progress i n;
            Some (startAngle g + t * (endAngle g - startAngle g))%Q) (seq 0 n).

(** The outer ([side = 1]) or inner ([side = -1]) point at index [i]. *)
Definition tailPoint (g : TailGeom) (n : nat) (side : Q)
    (i : nat) (a r : jsnum) : Point :=
  let minW := (4 # 5)%Q in
  let maxW := (artistRadius g * (9 # 5))%Q in
  let w := t ← progress i n; Some (minW + (maxW - minW) * (t * t))%Q in
  let rSide := r ← r; w ← w; Some (r + side * (w / 2))%Q in
  (a ← a; r ← rSide; Some (centerX g + cosd a * r)%Q,
   a ← a; r ← rSide; Some (centerY g + sind a * r)%Q).

Definition tailPoints (g : TailGeom) (side : Q) (radii : list jsnum) : list Point :=
  let n := length radii in
  imap (λ i ar, tailPoint g n side i ar.1 ar.2) (zip (tailAngles g n) radii).

(** The path of a tail over the sorted years of the works; [None] when
    no path is appended. *)
Definition tailOfYears (g : TailGeom) (node : Node) (yearsContributed : list Z)
    : option (list PathCmd) :=
  let vals := influenceByYear (orEmpty (influence node)) yearsContributed in
  let radii := tailRadii vals (tailMin g) (tailMax g) in
  tailPath (tailPoints g 1 radii) (tailPoints g (-1) radii).

(** What the tail code does for one contributor: nothing, a path, or,
    when one of the credited works has no release year, a path whose
    commands depend on the engine's order of the years and are not given
    here. *)
Inductive Tail :=
  | NoTail
  | TailPath (d : list PathCmd)
  | TailOfUndated.

(** The keys of [yearsSet]: the distinct years of the works ([None] is the
    key ["NaN"]) and of the dated events.  The shares of the influence of
    unknown year carry the years of the works and add no key. *)
Definition yearKeys (years : list (option Z)) (influenceArray : list InfluenceEvent)
    : list (option Z) :=
  remove_dups (years ++ map (λ e, Some (fst e)) (knownEvents influenceArray)).

(** The tail of one contributor, from the two guards (more than one
    credited work, more than one entry in [yearsContributed], dated or
    not) down to the path.  [years] is the list before the sort.  With a
    [NaN] among the years the order of the year points is the engine's,
    but not their number, which is the number of keys of [yearsSet]: all
    the values are numbers, so as with dated works the first point is
    finite, and the path appended, exactly when there are two year points
    or more. *)
Definition drawTail (g : TailGeom) (node : Node) (years : list (option Z)) : Tail :=
  match contributedTo node with
  | Some c =>
      if Nat.ltb 1 (length c) && Nat.ltb 1 (length years) then
        match sortYears years with
        | Some yearsContributed =>
            match tailOfYears g node yearsContributed with
            | Some d => TailPath d
            | None => NoTail
            end
        | None =>
            if Nat.ltb 1 (length (yearKeys years (orEmpty (influence node))))
            then TailOfUndated else NoTail
        end
      else NoTail
  | None => NoTail
  end.

(** What the artist loop appends for one contributor: the path of a
    tail, the path (commands not given) of the tail of a contributor
    credited with an undated work, and the mark. *)
Inductive Primitive :=
  | TailShape (fill : string) (d : list PathCmd)
  | UndatedTail (fill : string)
  | ArtistMark (node : Z).

Variable geomOf : Node → TailGeom.
Variable yearsContributedOf : Node → list (option Z).

Definition optTail (fill : string) (t : Tail) : list Primitive :=
  match t with
  | TailPath d => [TailShape fill d]
  | TailOfUndated => [UndatedTail fill]
  | NoTail => []
  end.

(** The yellow tail of the selected contributor, the grey tail of every
    other contributor while one is selected, then the mark itself. *)
Definition drawArtist (selectedArtistId : option Z) (node : Node) : list Primitive :=
  (if bool_decide (selectedArtistId = Some (id node))
   then optTail "#ff0" (drawTail (geomOf node) node (yearsContributedOf node))
   else [])
  ++ (if selected selectedArtistId
         && negb (bool_decide (selectedArtistId = Some (id node)))
      then optTail "#888" (drawTail (geomOf node) node (yearsContributedOf node))
      else [])
  ++ [ArtistMark (id node)].

Definition drawArtists (selectedArtistId : option Z) (band : list Node)
    : list Primitive :=
  flat_map (drawArtist selectedArtistId) band.
End Tail.

(** ** The view-fit transform (the component kept in App.jsx)

    [Overview.jsx] draws with the persisted [zoomTransformRef]; the older
    component computes the transform from the filters on every draw. *)

Module App.

(** [String(year)] *)
Definition yearString (y : Z) : string := NilZero.string_of_int (Z.to_int y).

(** The order of [Array.prototype.sort()] without a comparator: by the
    string form, [undefined] ([None]) last. *)
Definition defaultLe (a b : option Z) : bool :=
  match a, b with
  | _, None => true
  | None, Some _ => false
  | Some x, Some y => String.leb (yearString x) (yearString y)
  end.

Definition DefaultLe (a b : option Z) : Prop := defaultLe a b = true.

Global Instance DefaultLe_dec (a b : option Z) : Decision (DefaultLe a b).
Proof. unfold DefaultLe. apply _. Defined.

(** [Array.from(new Set(filteredNodes.map(n => n.release_date))).sort()] *)
Definition filteredYears (filtered : list Node) : list (option Z) :=
  merge_sort DefaultLe (remove_dups (map release_date filtered)).

Definition filterActive (st : State) : bool :=
  negb (Nat.eqb (size (selectedGenres st)) (length FLAT_GENRES))
  || Nat.ltb 0 (size (influenceGenres st))
  || selected (selectedArtistId st)
  || selected (selectedLabelId st).

(** The guard of the view-fit branch. *)
Definition narrowed (active : bool) (filteredYears : list (option Z))
    (arcYears : list Z) : bool :=
  active && Nat.ltb 1 (length filteredYears)
  && (Z.of_nat (length filteredYears) <? Z.of_nat (length arcYears) - 5)%Z.

Definition minYearRange : Z := 40.

(** [effectiveFirstYear] and [effectiveLastYear]: the ends of the filtered
    years, widened around their middle when they span fewer than
    [minYearRange] years.  With an undated end the range is [NaN] and the
    ends stay as they are. *)
Definition effectiveYears (first last : option Z) : option Z * option Z :=
  match first, last with
  | Some f, Some l =>
      if (l - f <? minYearRange)%Z then
        let midYear := ((f + l + 1) / 2)%Z in
        let halfRange := (minYearRange / 2)%Z in
        (Some (Z.min f (midYear - halfRange)), Some (Z.max l (midYear + halfRange)))
      else (first, last)
  | _, _ => (first, last)
  end.

(** A value that is looked up in the arc: a year as a number, or a
    string. *)
Inductive Key :=
  | NumKey (n : Z)
  | StrKey (s : string).

(** The comparison of [Array.prototype.includes] on such values: a number
    and a string are never the same value. *)
Definition sameValueZero (a b : Key) : bool :=
  match a, b with
  | NumKey x, NumKey y => (x =? y)%Z
  | StrKey x, StrKey y => String.eqb x y
  | _, _ => false
  end.

Definition includesKey (l : list Key) (x : Key) : bool := existsb (sameValueZero x) l.

(** [String(effectiveFirstYear)]; an undated end gives ["undefined"]. *)
Definition stringOfYear (y : option Z) : string :=
  match y with Some y' => yearString y' | None => "undefined" end.

(** The scale of this component has the years themselves, numbers, as
    its domain; a string is not in it. *)
Definition angleOfKey (arcYears : list Z) (k : Key) : option Q :=
  match k with
  | NumKey y => scalePoint arcYears arcStart arcEnd y
  | StrKey _ => None
  end.

(** [arcYears.includes(String(y)) ? angleScale(String(y)) - Math.PI / 2
    : angleScale(fallback) - Math.PI / 2], where [fallback] is the first or
    the last year of the arc.  Under the guard of the view-fit branch the
    arc has at least eight years, so the scale is defined at [fallback] and
    the [default] is never taken. *)
Definition yearAngle (arcYears : list Z) (y : option Z) (fallback : option Z) : Q :=
  let pick :=
    if includesKey (map NumKey arcYears) (StrKey (stringOfYear y))
    then angleOfKey arcYears (StrKey (stringOfYear y))
    else fallback ≫= (λ f, angleOfKey arcYears (NumKey f)) in
  (default 0 pick - 90)%Q.

Definition height : Q := 2000.
Definition radius : Q := 1500.
Definition zoomArcMidY : Q := (height * (1 # 5))%Q.
Definition maxScale : Q := (11 # 10)%Q.

Section ViewFit.
(** [Math.cos], [Math.sin] (of degrees) and [Math.sqrt]. *)
Variables cosd sind sqrtq : Q → Q.

Definition centerX (width : Q) : Q := (width / 2)%Q.
Definition centerY : Q :=
  (height * (3 # 2) - radius * cosd ((arcEnd - arcStart) / 2))%Q.

Definition firstAngle (filteredYears : list (option Z)) (arcYears : list Z) : Q :=
  yearAngle arcYears
    (effectiveYears (mjoin (head filteredYears)) (mjoin (last filteredYears))).1
    (head arcYears).

Definition lastAngle (filteredYears : list (option Z)) (arcYears : list Z) : Q :=
  yearAngle arcYears
    (effectiveYears (mjoin (head filteredYears)) (mjoin (last filteredYears))).2
    (last arcYears).

Definition arcPointX (width angle : Q) : Q := (centerX width + cosd angle * radius)%Q.
Definition arcPointY (angle : Q) : Q := (centerY + sind angle * radius)%Q.

Definition midAngle (filteredYears : list (option Z)) (arcYears : list Z) : Q :=
  ((firstAngle filteredYears arcYears + lastAngle filteredYears arcYears) / 2)%Q.

(** The chord between the two ends of the span. *)
Definition dist (width : Q) (filteredYears : list (option Z))
    (arcYears : list Z) : Q :=
  let x1 := arcPointX width (firstAngle filteredYears arcYears) in
  let y1 := arcPointY (firstAngle filteredYears arcYears) in
  let x2 := arcPointX width (lastAngle filteredYears arcYears) in
  let y2 := arcPointY (lastAngle filteredYears arcYears) in
  sqrtq ((x2 - x1) * (x2 - x1) + (y2 - y1) * (y2 - y1))%Q.

(** [Math.min(desiredSpan / dist, maxScale)]; with [dist = 0] the
    quotient of the positive [desiredSpan] is [Infinity] and the minimum
    is [maxScale]. *)
Definition fitScale (width : Q) (filteredYears : list (option Z))
    (arcYears : list Z) : Q :=
  let desiredSpan := (width * (4 # 5))%Q in
  let d := dist width filteredYears arcYears in
  if Qeq_bool d 0 then maxScale else qmin (desiredSpan / d) maxScale.

(** The transform of a frame of width [width] (at least 100, or nothing
    is drawn). *)
Definition zoomTransform (width : Q) (active : bool)
    (filteredYears : list (option Z)) (arcYears : list Z) : Transform :=
  if narrowed active filteredYears arcYears then
    let midX := arcPointX width (midAngle filteredYears arcYears) in
    let midY := arcPointY (midAngle filteredYears arcYears) in
    translate
      (scale (translate zoomIdentity (centerX width) zoomArcMidY)
             (fitScale width filteredYears arcYears))
      (- midX) (- midY)
  else zoomIdentity.
End ViewFit.

End App.

(** ** Further small datasets *)




(** Two songs, a performer of the first one, and a record label with the
    id [0] that recorded both. *)
Definition labelZero : list Node :=
  [ work 1 Song 2000 None;
    work 2 Song 2005 None;
    mkNode 10 Person (Some "Ada") None None None (Some [1]%Z) None None
      (Some ["Performer"]) None None;
    mkNode 0 RecordLabel (Some "Tide") None None None None (Some [1; 2]%Z)
      (Some []) None None None ].

(** A contributor of two songs of the same year, with one influence
    event five years later. *)
Definition bob : Node :=
  mkNode 11 Person (Some "Bob") None None None (Some [1; 2]%Z) None None
    (Some ["Performer"]) (Some 3%Q) (Some [mkInf (Some 2005%Z) 3]).


(** The same contributor when the second song has no release year. *)
Definition undatedData : list Node :=
  [ work 1 Song 2000 None;
    mkNode 2 Song None (Some "Oceanus Folk") None None None None None None None None;
    bob ].

(** The placement used in the examples of tails. *)
Definition exampleGeom : TailGeom := mkTailGeom 0 0 0 90 300 360 4.

(** [let zoomTransform = zoomTransformRef.current || d3.zoomIdentity] in
    Overview.jsx: the transform of the last pan or zoom gesture. *)
Definition zoomTransform (st : State) : Transform := zoomTransformRef st.

(** The label and contributor stage of [filteredNodes], as a function of the
    list it is applied to. *)
Definition selectionStage (data : list Node) (a l : option Z)
    (filtered : list Node) : list Node :=
  if selected l then
    match l ≫= (λ i, nodeById data !! i) with
    | Some label => List.filter (inSet (labelSet label)) filtered
    | None => filtered
    end
  else if selected a then
    match a ≫= (λ i, nodeById data !! i) with
    | Some artist =>
        match contributedTo artist with
        | Some c => List.filter (inSet (list_to_set c)) filtered
        | None => filtered
        end
    | None => filtered
    end
  else filtered.


(** ** Auxiliary notions for the interpolation pass

    Used to state the loop invariant of [fillLoop]. *)

(** The recorded running sums met along a list of years, in order. *)
Definition knowns (cum : gmap Z Q) (rest : list Z) : list Q :=
  omap (λ y, cum !! y) rest.

(** [lastKnownIdx] is "none" or an index already passed. *)
Definition lastValid (i : nat) (s : FillState) : Prop :=
  lastKnownIdx s = (-1)%Z ∨ (0 ≤ lastKnownIdx s < Z.of_nat i)%Z.

(** [nextKnownIdx] is stale (behind the current index) or the first index
    from [i] on whose year has a recorded sum, with that sum. *)
Definition nextValid (cum : gmap Z Q) (i : nat) (rest : list Z) (s : FillState) : Prop :=
  (nextKnownIdx s < Z.of_nat i)%Z
  ∨ ∃ q, nextKnownIdx s = Z.of_nat q
         ∧ findNextKnown cum rest i = Some (q, nextKnownValue s).

(** The value interpolated at index [i] between the last known index and
    the known index [q] of value [nv]. *)
Definition interpAt (s : FillState) (i q : nat) (nv : Q) : Q :=
  (lastKnownValue s
   + inject_Z (Z.of_nat i - lastKnownIdx s) / inject_Z (Z.of_nat q - lastKnownIdx s)
     * (nv - lastKnownValue s))%Q.


(** The running sums in the order of the years, without the map. *)
Fixpoint knownSums (clean : list (Z * Q)) (r : Q) (yl : list Z) : list Q :=
  match yl with
  | [] => []
  | y :: yl' =>
      match yearScore clean y with
      | Some sc => (r + sc)%Q :: knownSums clean (r + sc)%Q yl'
      | None => knownSums clean r yl'
      end
  end.

(** The radius at index [i] of [n] when the index is mapped onto
    [tmin .. tmax]. *)
Definition linearRadius (tmin tmax : Q) (n i : nat) : Q :=
  (tmin + ofNat i / (ofNat n - 1) * (tmax - tmin))%Q.

(** ** Deterministic jitter: the string hash of an id *)

(** [ToInt32]: the value modulo [2^32], read as a signed 32-bit integer. *)
Definition toInt32 (z : Z) : Z := ((z + 2 ^ 31) mod 2 ^ 32 - 2 ^ 31)%Z.

(** [a << 5] on 32-bit integers. *)
Definition shl5 (a : Z) : Z := toInt32 (Z.shiftl (toInt32 a) 5).

(** One turn of the [reduce]: [a = ((a << 5) - a) + b.charCodeAt(0);
    return a & a]. *)
Definition hashStep (a c : Z) : Z :=
  let a' := (shl5 a - a + c)%Z in
  Z.land (toInt32 a') (toInt32 a').

(** [String(node.id || '')]: the decimal digits of the id, and the empty
    string for the falsy id [0]. *)
Definition idString (i : Z) : string :=
  if truthy i then NilZero.string_of_int (Z.to_int i) else "".

(** [s.split('')] followed by [charCodeAt(0)] on each piece. *)
Definition charCodes (s : string) : list Z :=
  map (λ c, Z.of_nat (Ascii.nat_of_ascii c)) (String.list_ascii_of_string s).

Definition hashCodes (codes : list Z) : Z := fold_left hashStep codes 0%Z.

Definition idHash (i : Z) : Z := hashCodes (charCodes (idString i)).

(** [((hash % m) / m - 0.5) * amplitude], with JavaScript's remainder, which
    takes the sign of [hash]. *)
Definition jitter (hash m : Z) (amplitude : Q) : Q :=
  ((inject_Z (Z.rem hash m) / inject_Z m - (1 # 2)) * amplitude)%Q.

(** The offsets of a contributor mark: [angleJitter] (radians) and
    [rJitter]. *)
Definition artistAngleJitter (hash : Z) : Q := jitter hash 100 (8 # 100).
Definition artistRJitter (hash : Z) : Q := jitter hash 1000 40.

(** The offsets of a label mark. *)
Definition labelAngleJitter (hash : Z) : Q := jitter hash 100 (5 # 100).
Definition labelRadiusJitter (hash : Z) (bandHeight : Q) : Q :=
  jitter hash 1000 bandHeight.

(** ** Label placement: median year and the jitter height table *)

Definition keyframe (year : Z) (height : Q) : Z * Q := (year, height).

(** [labelBandHeightByYear]: (year, height) keyframes. *)
Definition labelBandHeightByYear : list (Z * Q) :=
  [ keyframe 1985 5; keyframe 1990 10; keyframe 2010 50; keyframe 2015 80;
    keyframe 2020 130; keyframe 2021 150; keyframe 2023 150;
    keyframe 2028 130; keyframe 2030 90; keyframe 2033 40; keyframe 2040 10 ].

(** The [for (let i = 1; ...)] search: the first keyframe [next] with
    [medianYear <= next.year] gives the value interpolated between it and
    the keyframe before; [None] when the loop ends without a [break]. *)
Fixpoint bandHeightLoop (prev : Z * Q) (rest : list (Z * Q)) (medianYear : Z)
    : option Q :=
  match rest with
  | [] => None
  | next :: rest' =>
      if (medianYear <=? next.1)%Z then
        let t := (inject_Z (medianYear - prev.1) / inject_Z (next.1 - prev.1))%Q in
        Some (prev.2 + t * (next.2 - prev.2))%Q
      else bandHeightLoop next rest' medianYear
  end.

(** [bandHeight] for a keyframe table whose first entry is [first]. *)
Definition bandHeightOf (first : Z * Q) (rest : list (Z * Q)) (medianYear : Z) : Q :=
  let bandHeight := default first.2 (bandHeightLoop first rest medianYear) in
  let lastKf := List.last rest first in
  if (lastKf.1 <? medianYear)%Z then lastKf.2 else bandHeight.

Definition labelBandHeight (medianYear : Z) : Q :=
  match labelBandHeightByYear with
  | [] => 0%Q
  | first :: rest => bandHeightOf first rest medianYear
  end.

(** [Math.round((a + b) / 2)] for integers. *)
Definition roundHalf (a b : Z) : Z := ((a + b + 1) / 2)%Z.

(** The median of the sorted release years of a label's visible works;
    [arcYears[0]] when there is none ([None] if the arc is empty too). *)
Definition medianYear (arcYears : list Z) (yearsArr : list Z) : option Z :=
  if Nat.ltb 0 (length yearsArr) then
    let mid := Nat.div (length yearsArr) 2 in
    if Nat.eqb (Nat.modulo (length yearsArr) 2) 0
    then a ← yearsArr !! (mid - 1); b ← yearsArr !! mid; Some (roundHalf a b)
    else yearsArr !! mid
  else head arcYears.

(** The sorted years fed to the median: the release years of the label's
    visible works that exist, kept by [filter(Boolean)] (a missing year and
    the year 0 are dropped). *)
Definition labelYearsArr (data : list Node) (visible : gset Z) (label : Node) : list Z :=
  merge_sort Z.le
    (omap (λ i, art ← nodeById data !! i; datedYear art)
       (remove_dups
          (List.filter (λ i, bool_decide (i ∈ visible))
             (orEmpty (recordedArtwork label) ++ orEmpty (distributedArtwork label))))).

(** ** Work placement: the dots stacked on a (year, genre) bar *)

(** [yearData.filter(d => d.genre === genre)] *)
Definition genreData (yearData : list Node) (g : string) : list Node :=
  List.filter (λ d, bool_decide (genre d = Some g)) yearData.

Definition isType (t : NodeType) (d : Node) : bool :=
  bool_decide (node_type d = t).

(** [filterActivePart]: the tests that enlarge the dots. *)
Definition filterActivePart (st : State) : bool :=
  (Nat.ltb (size (selectedGenres st)) 10 && Nat.ltb 0 (size (selectedGenres st)))
  || (Nat.ltb 0 (size (influenceGenres st)) && Nat.ltb (size (selectedGenres st)) 10)
  || (Nat.ltb (size (influenceGenres st)) 3 && Nat.ltb 0 (size (influenceGenres st)))
  || bool_decide (selectedLabelId st ≠ None).

(** [personFilterActive = selectedArtistId !== null] *)
Definition personFilterActive (st : State) : bool :=
  bool_decide (selectedArtistId st ≠ None).

Definition dotRadius (st : State) (r : Q) : Q :=
  if personFilterActive st then (r * 4)%Q
  else if filterActivePart st then (r * 3)%Q
  else r.

(** The distance from the centre of each dot of a bar, for the rendered
    radii in stacking order: [r = base + stackOffset + dotRadius], then
    [stackOffset += dotRadius * 2 + 0.5]. *)
Fixpoint stackDots (base stackOffset : Q) (radii : list Q) : list Q :=
  match radii with
  | [] => []
  | dotRadius :: rest =>
      (base + stackOffset + dotRadius)%Q
      :: stackDots base (stackOffset + (dotRadius * 2 + (1 # 2)))%Q rest
  end.

Section Dots.
(** The [notable] flag of a work. *)
Variable notable : Node → bool.

(** The dots of one bar with their base radius, in stacking order: notable
    songs, songs, notable albums, albums. *)
Definition dots (genreData : list Node) : list (Node * Q) :=
  map (λ d, (d, 7 # 10)) (List.filter (λ d, isType Song d && notable d) genreData)
  ++ map (λ d, (d, 7 # 10)) (List.filter (λ d, isType Song d && negb (notable d)) genreData)
  ++ map (λ d, (d, 1%Q)) (List.filter (λ d, isType Album d && notable d) genreData)
  ++ map (λ d, (d, 1%Q)) (List.filter (λ d, isType Album d && negb (notable d)) genreData).

End Dots.

(** ** Responsive sizes *)

(** [barWidth], from [yearRange = Math.max(arcYears.length, 1)]. *)
Definition barWidth (nYears : nat) : Q :=
  let yearRange := ofNat (Nat.max nYears 1) in
  qmax (1 # 2) (qmin 2 (3 - (yearRange - 2) * (4 # 100)))%Q.

(** [maxFontSize], chosen by the width. *)
Definition maxFontSize (width : Q) : Q :=
  if negb (Qle_bool width 2000) then 12%Q
  else if negb (Qle_bool width 1600) then 10%Q
  else if negb (Qle_bool width 1200) then 8%Q
  else 6%Q.

Definition fontSize (width : Q) : Q :=
  qmax 4 (qmin (maxFontSize width) (width / 80))%Q.

Definition tickLength (width : Q) : Q :=
  qmax 8 (qmin 20 (width / 50))%Q.

(** The length of the tick of a year: long on every fifth year. *)
Definition tickLen (width : Q) (year : Z) : Q :=
  if isMajorTick year then (tickLength width * (17 # 10))%Q
  else (tickLength width * (11 # 10))%Q.

(** ** The pie glyph of a year *)

(** [Math.max(...arcYears.map(y => count(y)), 1)] *)
Definition maxArtworksInYear (arcYears : list Z) (filtered : list Node) : nat :=
  fold_left Nat.max (map (λ y, length (yearData filtered y)) arcYears) 1%nat.

Definition pieMinRadius : Q := 5.
Definition pieMaxRadius : Q := 18.

Definition pieRadius (arcYears : list Z) (filtered : list Node) (year : Z) : Q :=
  (pieMinRadius
   + (pieMaxRadius - pieMinRadius)
     * (ofNat (length (yearData filtered year))
        / ofNat (maxArtworksInYear arcYears filtered)))%Q.









(** ** Contributor placement inside a band *)

(** The running minimum and maximum of the loops that start from
    [Infinity] and [-Infinity]; they are taken over a non-empty list. *)
Definition minOf (counts : list nat) : nat :=
  match counts with [] => 0%nat | c :: cs => fold_left Nat.min cs c end.
Definition maxOf (counts : list nat) : nat :=
  match counts with [] => 0%nat | c :: cs => fold_left Nat.max cs c end.

(** [t = 0.5; if (max > min) t = (total - min) / (max - min)] *)
Definition spreadT (total minA maxA : nat) : Q :=
  if Nat.ltb minA maxA
  then ((ofNat total - ofNat minA) / (ofNat maxA - ofNat minA))%Q
  else (1 # 2)%Q.

Definition bandStep : Q := 60.
Definition bandWidth : Q := 60.
Definition minBand (radius : Q) : Q := (radius + 300)%Q.
Definition bandInner (radius : Q) (bandIdx : Z) : Q :=
  (minBand radius + inject_Z bandIdx * bandStep)%Q.
Definition bandOuter (radius : Q) (bandIdx : Z) : Q :=
  (bandInner radius bandIdx + bandWidth)%Q.

(** The distance from the centre of a contributor of band [bandIdx] with
    [total] visible works, among the contributors of the band whose numbers
    of visible works are [counts]; and the same after the jitter. *)
Definition bandR (radius : Q) (bandIdx : Z) (counts : list nat) (total : nat) : Q :=
  (bandInner radius bandIdx
   + spreadT total (minOf counts) (maxOf counts)
     * (bandOuter radius bandIdx - bandInner radius bandIdx))%Q.

Definition finalR (radius : Q) (bandIdx : Z) (counts : list nat) (total : nat)
    (nodeId : Z) : Q :=
  (bandR radius bandIdx counts total + artistRJitter (idHash nodeId))%Q.

(** The radius of a contributor's mark, from its number of credits among
    those of all drawn contributors. *)
Definition minArtistRadius : Q := 1.
Definition maxArtistRadius : Q := 7.
Definition artistMarkRadius (totals : list nat) (totalArtworksAll : nat) : Q :=
  (minArtistRadius
   + (maxArtistRadius - minArtistRadius)
     * spreadT totalArtworksAll (minOf totals) (maxOf totals))%Q.

(** ** Label marks *)

(** [new Set([...recorded, ...distributed]).size] *)
Definition totalArtworks (label : Node) : nat := size (labelSet label).

(** [Math.max(1, ...visibleLabels.map(totalArtworks))] *)
Definition maxLabelArtworks (labels : list Node) : nat :=
  fold_left Nat.max (map totalArtworks labels) 1%nat.

Definition minLabelRadius : Q := 2.
Definition maxLabelRadius : Q := 10.

Definition labelRadius (labels : list Node) (label : Node) : Q :=
  (minLabelRadius
   + (if Nat.ltb 1 (maxLabelArtworks labels)
      then (maxLabelRadius - minLabelRadius) * (ofNat (totalArtworks label) - 1)
           / (ofNat (maxLabelArtworks labels) - 1)
      else 0))%Q.

(** The distance of a label mark from the centre:
    [radius - 180 + radiusJitter]. *)
Definition labelR (radius : Q) (label : Node) (medianYear : Z) : Q :=
  (radius - 180
   + labelRadiusJitter (idHash (id label)) (labelBandHeight medianYear))%Q.

(** ** Reading a frame back *)

(** The contributor a primitive marks. *)
Definition markOf (p : Primitive) : option Z :=
  match p with ArtistMark i => Some i | TailShape _ _ | UndatedTail _ => None end.

(** ** The influence line chart *)

(** The chart is drawn for a partial influence-genre selection:
    [influenceGenres.size > 0 && influenceGenres.size < genres.length]. *)
Definition lineChartShown (influenceGenres : gset string) : bool :=
  Nat.ltb 0 (size influenceGenres)
  && Nat.ltb (size influenceGenres) (length FLAT_GENRES).

(** Whether the reference [infId] of [node] is counted: the referenced node
    exists, its genre is selected and the year of [node] is on the arc. *)
Definition countsEdge (data : list Node) (influenceGenres : gset string)
    (arcYears : list Z) (node : Node) (infId : Z) : bool :=
  match nodeById data !! infId with
  | Some infNode =>
      hasGenre influenceGenres (genre infNode)
      && match release_date node with
         | Some y => bool_decide (y ∈ arcYears)
         | None => false
         end
  | None => false
  end.

(** [influenceCountsByYear[String(node.release_date)]++] *)
Definition bumpYear (m : gmap Z nat) (node : Node) : gmap Z nat :=
  match release_date node with
  | Some y => <[y := S (default 0%nat (m !! y))]> m
  | None => m
  end.

Definition countNode (data : list Node) (influenceGenres : gset string)
    (arcYears : list Z) (m : gmap Z nat) (node : Node) : gmap Z nat :=
  fold_left
    (λ m infId,
       if countsEdge data influenceGenres arcYears node infId
       then bumpYear m node else m)
    (orEmpty (influencedBy node)) m.

Definition influenceCountsByYear (data : list Node) (influenceGenres : gset string)
    (arcYears : list Z) (filtered : list Node) : gmap Z nat :=
  fold_left (countNode data influenceGenres arcYears) filtered
    (fold_left (λ m y, <[y := 0%nat]> m) arcYears ∅).

(** [lineData]: one point per year of the arc. *)
Definition lineData (data : list Node) (influenceGenres : gset string)
    (arcYears : list Z) (filtered : list Node) : list (Z * nat) :=
  map (λ y, (y, default 0%nat
                  (influenceCountsByYear data influenceGenres arcYears filtered !! y)))
      arcYears.

(** [Math.max(1, ...lineData.map(d => d.count))] *)
Definition maxCount (points : list (Z * nat)) : nat :=
  fold_left Nat.max (map snd points) 1%nat.

Definition groupOffset : Q := 22.
Definition barBandOuter (radius : Q) : Q := (radius + groupOffset + 20)%Q.
Definition peakExtension : Q := 120.

(** [yScale(count)]: the linear scale from [[0, maxCount]] onto
    [[barBandOuter, barBandOuter + peakExtension]]. *)
Definition yScale (radius : Q) (points : list (Z * nat)) (count : nat) : Q :=
  (barBandOuter radius
   + ofNat count / ofNat (maxCount points) * peakExtension)%Q.

(** The counted references of the works of one year. *)
Definition edgesOfYear (data : list Node) (influenceGenres : gset string)
    (arcYears : list Z) (filtered : list Node) (y : Z) : list Z :=
  flat_map
    (λ node,
       if bool_decide (release_date node = Some y)
       then List.filter (countsEdge data influenceGenres arcYears node)
              (orEmpty (influencedBy node))
       else [])
    filtered.

(** ** The debounced redraw *)

(** The closure of [debounce(fn, delay)].  [timer] is the pending timeout:
    the time it is due and the arguments of the call that set it.  A
    timeout that has fired or was cleared is [None], since [clearTimeout]
    on it does nothing.  Times are in milliseconds. *)
Record Debounced (A : Type) := mkDebounced {
  delay : nat;
  timer : option (nat * A)
}.
Arguments mkDebounced {A} _ _.
Arguments delay {A} _.
Arguments timer {A} _.

Inductive DebounceEvent (A : Type) :=
  | Call (args : A)     (* [debounced(...args)] *)
  | Cancel.             (* [debounced.cancel()] *)
Arguments Call {A} _.
Arguments Cancel {A}.

(** Time passes to [now]: a pending timeout that is due runs [fn] with its
    arguments; the result lists the runs of [fn] with their times. *)
Definition elapse {A} (now : nat) (d : Debounced A) : Debounced A * list (nat * A) :=
  match timer d with
  | Some (due, args) =>
      if Nat.leb due now then (mkDebounced (delay d) None, [(due, args)])
      else (d, [])
  | None => (d, [])
  end.

(** [if (timer) clearTimeout(timer); timer = setTimeout(() => fn(...args), delay)] *)
Definition debounced {A} (now : nat) (args : A) (d : Debounced A) : Debounced A :=
  mkDebounced (delay d) (Some (now + delay d, args)).

(** [if (timer) clearTimeout(timer)] *)
Definition cancel {A} (d : Debounced A) : Debounced A :=
  mkDebounced (delay d) None.

(** A sequence of timed events; a timeout due at the time of an event runs
    before it. *)
Fixpoint run {A} (events : list (nat * DebounceEvent A)) (d : Debounced A)
    : Debounced A * list (nat * A) :=
  match events with
  | [] => (d, [])
  | (now, ev) :: rest =>
      let d1 := elapse now d in
      let d2 := match ev with
                | Call args => debounced now args d1.1
                | Cancel => cancel d1.1
                end in
      let d3 := run rest d2 in
      (d3.1, d1.2 ++ d3.2)
  end.

(** Calls in time order, each less than [delay] after the one before. *)
Fixpoint closeCalls {A} (delay : nat) (calls : list (nat * A)) : bool :=
  match calls with
  | c1 :: rest =>
      match rest with
      | c2 :: _ => Nat.leb c1.1 c2.1 && Nat.ltb c2.1 (c1.1 + delay)
      | [] => true
      end && closeCalls delay rest
  | [] => true
  end.

Definition callEvents {A} (calls : list (nat * A)) : list (nat * DebounceEvent A) :=
  map (λ c, (c.1, Call c.2)) calls.

(** ** Totals of an influence series *)

(** The sum of the scores of a list of (year, score) events. *)
Definition totalScore (events : list (Z * Q)) : Q :=
  fold_left (λ sum e, sum + snd e)%Q events 0%Q.

(** The sum of the magnitudes of all events, dated or not. *)
Definition allScores (influenceArray : list InfluenceEvent) : Q :=
  fold_left (λ acc inf, acc + inf_score inf)%Q influenceArray 0%Q.

(** ** Chatbot: one exchange with the assistant *)

Inductive Sender := User | Bot.

(** A parsed JSON value: what [response.json()] resolves to. *)
#[warnings="-register-all"] Inductive Json :=
  | JNull
  | JBool (b : bool)
  | JNumber (q : Q)
  | JString (s : string)
  | JArray (items : list Json)
  | JObject (fields : list (string * Json)).

(** JavaScript truthiness of a JSON value. *)
Definition jsonTruthy (v : Json) : bool :=
  match v with
  | JNull => false
  | JBool b => b
  | JNumber q => negb (Qeq_bool q 0)
  | JString s => negb (String.eqb s "")
  | JArray _ | JObject _ => true
  end.

(** Whether React renders a value as the child of an element: a string
    or a number as text, a boolean or [null] as nothing, an array item by
    item; an object is refused with an exception. *)
Fixpoint renderable (v : Json) : bool :=
  match v with
  | JObject _ => false
  | JArray items => forallb renderable items
  | _ => true
  end.

(** The text of a message is whatever was stored: a string for the user
    and for the error texts, the [answer] of the body otherwise. *)
Record Message := mkMessage { text : Json; sender : Sender }.

Record ChatState := mkChat {
  isOpen : bool;
  messages : list Message;
  inputMessage : string;
  isLoading : bool
}.

(** Whether the component renders in a state: the messages are rendered
    only while the chat window is open. *)
Definition renders (st : ChatState) : bool :=
  negb (isOpen st) || forallb (λ m, renderable (text m)) (messages st).

(** What the request comes back with: an exception with its message (a
    failed [fetch], a body that is not JSON), a response that is not [ok]
    with its status and body, or the parsed body. *)
Inductive Reply :=
  | Thrown (message : string)
  | HttpError (status : Z) (errorText : string)
  | Parsed (data : Json).

(** [String.prototype.includes] *)
Fixpoint includes (needle hay : string) : bool :=
  String.prefix needle hay
  || match hay with
     | EmptyString => false
     | String _ hay' => includes needle hay'
     end.

Definition genericError : string :=
  "Sorry, there was an error processing your request. Please try again.".
Definition serverError : string :=
  "The server is experiencing issues. Please try again later or contact support.".
Definition networkError : string :=
  "Unable to connect to the server. Please check your internet connection.".
Definition invalidResponse : string :=
  "The server returned an invalid response. Please try again.".
Definition noAnswer : string := "Sorry, I couldn't process your request.".

(** The [catch] block: the text shown for an error message. *)
Definition errorMessage (message : string) : string :=
  if includes "Server error: 500" message then serverError
  else if includes "Failed to fetch" message then networkError
  else if includes "JSON" message then invalidResponse
  else genericError.

(** [data.answer]: reading the property of [null] throws ([None]); an
    object gives the value of its [answer] key (the last one, if the body
    repeats it) or [undefined] ([Some None]); no other value has the
    property. *)
Definition answerOf (data : Json) : option (option Json) :=
  match data with
  | JNull => None
  | JObject fields =>
      Some (snd <$> last (List.filter (λ kv, String.eqb (fst kv) "answer") fields))
  | _ => Some None
  end.

(** The text of the bot's message.  [data.answer || '...'] is evaluated
    inside the state updater, which runs after the [try] block has been
    left: when it throws there is no text ([None]). *)
Definition botText (reply : Reply) : option Json :=
  match reply with
  | Parsed data =>
      a ← answerOf data;
      Some (match a with
            | Some v => if jsonTruthy v then v else JString noAnswer
            | None => JString noAnswer
            end)
  | HttpError status errorText =>
      Some (JString
              (errorMessage ("Server error: " ++ NilZero.string_of_int (Z.to_int status)
                             ++ " - " ++ errorText)%string))
  | Thrown message => Some (JString (errorMessage message))
  end.

Section Chat.
(** [String.prototype.trim] *)
Variable trim : string → string.

(** The state while the request is pending; [None] when the input is blank
    and nothing is sent. *)
Definition sendStart (st : ChatState) : option ChatState :=
  if String.eqb (trim (inputMessage st)) "" then None
  else Some (mkChat (isOpen st)
               (messages st ++ [mkMessage (JString (trim (inputMessage st))) User])
               "" true).

(** The state once the request has come back with [reply]; [None] when the
    updater of the bot's message throws or the new state cannot be
    rendered (an object as [{message.text}] in the open window): the
    exception is raised while rendering, nothing catches it and the
    component is unmounted. *)
Definition sendFinish (pending : ChatState) (reply : Reply) : option ChatState :=
  t ← botText reply;
  let st := mkChat (isOpen pending) (messages pending ++ [mkMessage t Bot])
              (inputMessage pending) false in
  if renders st then Some st else None.

(** [setIsOpen(!isOpen)], the chat button. *)
Definition toggleOpen (st : ChatState) : option ChatState :=
  let st := mkChat (negb (isOpen st)) (messages st) (inputMessage st) (isLoading st) in
  if renders st then Some st else None.

Definition handleSendMessage (st : ChatState) (reply : Reply) : option ChatState :=
  match sendStart st with
  | Some pending => sendFinish pending reply
  | None => Some st
  end.
End Chat.

(** ** The angle of a label *)

(** [arcYears.includes(yearStr) ? angleScale(yearStr) : angleScale(arcYears[0])]
    (before the shift by a quarter turn and the jitter); [None] when the
    scale has no value. *)
Definition labelBaseAngle (data : list Node) (medianYear : option Z) : option Q :=
  match medianYear with
  | Some m =>
      if bool_decide (m ∈ arcYears data) then angleScale data m
      else head (arcYears data) ≫= angleScale data
  | None => head (arcYears data) ≫= angleScale data
  end.

(** ** Properties *)

Local Close Scope string_scope.

(** *** Generic list facts *)

Lemma filter_true_id {A} (f : A → bool) (l : list A) :
  (∀ x, In x l → f x = true) → List.filter f l = l.
Proof.
  induction l as [|x l IH]; intros H; simpl; [done|].
  rewrite (H x (or_introl eq_refl)). f_equal. apply IH. intros y Hy. apply H. by right.
Qed.

Lemma last_Some_elem_of {A} (l : list A) (x : A) : last l = Some x → x ∈ l.
Proof.
  rewrite last_lookup. apply list_elem_of_lookup_2.
Qed.

(** *** FilterEngine *)

Lemma genrePass_empty (n : Node) : genrePass ∅ n = true.
Proof. unfold genrePass. by rewrite size_empty. Qed.

Lemma genrePass_all (n : Node) :
  hasGenre allGenres (genre n) = true → genrePass allGenres n = true.
Proof. unfold genrePass. intros ->. apply orb_true_r. Qed.

Lemma genre_filter_all (data : list Node) :
  genresInVocabulary data = true →
  List.filter (genrePass allGenres) (nodes data) = nodes data.
Proof.
  unfold genresInVocabulary. rewrite forallb_forall. intros H.
  apply filter_true_id. intros n Hn. by apply genrePass_all, H.
Qed.

Lemma genre_filter_empty (data : list Node) :
  List.filter (genrePass ∅) (nodes data) = nodes data.
Proof. apply filter_true_id. intros n _. apply genrePass_empty. Qed.

(** C1. With every work's genre in the fixed vocabulary, selecting the whole
    vocabulary and selecting no genre at all give the same visible works,
    whatever the other filters are; with the other filters idle both give
    the set of all works. *)
Theorem genre_all_or_none_unfiltered (data : list Node)
    (inflG : gset string) (a l : option Z) :
  genresInVocabulary data = true →
  filteredNodes data allGenres inflG a l = filteredNodes data ∅ inflG a l
  ∧ filteredNodes data allGenres ∅ None None = nodes data
  ∧ filteredNodes data ∅ ∅ None None = nodes data.
Proof.
  intros Hvoc. unfold filteredNodes.
  rewrite (genre_filter_all data Hvoc), genre_filter_empty.
  split; [done|]. rewrite size_empty. simpl. done.
Qed.

Lemma genre_all_or_none_unfiltered_witness :
  filteredNodes scenario allGenres ∅ None (Some 20%Z)
  = filteredNodes scenario ∅ ∅ None (Some 20%Z)
  ∧ filteredNodes scenario allGenres ∅ None None = nodes scenario
  ∧ filteredNodes scenario ∅ ∅ None None = nodes scenario.
Proof. exact (genre_all_or_none_unfiltered scenario ∅ None (Some 20%Z) eq_refl). Defined.

Lemma filter_comm {A} (f g : A → bool) (l : list A) :
  List.filter f (List.filter g l) = List.filter g (List.filter f l).
Proof.
  induction l as [|x l IH]; simpl; [done|].
  destruct (f x) eqn:Hf, (g x) eqn:Hg; simpl; rewrite ?Hf, ?Hg, ?IH; done.
Qed.

Lemma selectionStage_filter (data : list Node) (a l : option Z)
    (f : Node → bool) (filtered : list Node) :
  selectionStage data a l (List.filter f filtered)
  = List.filter f (selectionStage data a l filtered).
Proof.
  unfold selectionStage.
  repeat (case_match; try done); apply filter_comm.
Qed.

Lemma filteredNodes_stages (data : list Node) (selG inflG : gset string)
    (a l : option Z) :
  filteredNodes data selG inflG a l
  = selectionStage data a l
      (if bool_decide (0 < size inflG)
       then List.filter (influencePass (influenceGenreNodeIds data inflG))
              (List.filter (genrePass selG) (nodes data))
       else List.filter (genrePass selG) (nodes data)).
Proof. reflexivity. Qed.

(** From the initial state, a click on label 20 followed by a click on
    contributor 10 (drawn, because it contributed to the label's works)
    leaves both selections set. *)
Lemma label_then_artist_reachable :
  let st := handle (handle initState (ClickLabel 20)) (ClickArtist 10) in
  reachable scenario st
  ∧ selectedLabelId st = Some 20%Z ∧ selectedArtistId st = Some 10%Z.
Proof.
  split; [|split; reflexivity].
  apply reachable_step; [apply reachable_step; [apply reachable_init|] |];
    vm_compute; reflexivity.
Qed.

Lemma inSet_labelSet (label n : Node) :
  inSet (labelSet label) n
  = bool_decide (id n ∈ orEmpty (recordedArtwork label)
                        ++ orEmpty (distributedArtwork label)).
Proof.
  unfold inSet, labelSet. apply bool_decide_ext. apply elem_of_list_to_set.
Qed.

(** C10. With a label selection whose id is not [0], the contributor
    selection has no effect on the visible works: they are the works left
    by the genre filters whose id is in the label's recorded or distributed
    list (all of them if no node has the label's id), and such a state with
    both selections set is reachable.  The test is [if (selectedLabelId)],
    so a selected label with the id [0] counts as no selection: in the
    dataset [labelZero], after a click on label 0 and a click on
    contributor 10, both selections are set and the visible works are the
    single work of the contributor, not the two works of the label. *)
Theorem label_selection_takes_precedence :
  (∀ data selG inflG a l label,
     l ≠ 0%Z → nodeById data !! l = Some label →
     filteredNodes data selG inflG a (Some l)
     = List.filter
         (λ n, bool_decide (id n ∈ orEmpty (recordedArtwork label)
                                   ++ orEmpty (distributedArtwork label)))
         (filteredNodes data selG inflG None None))
  ∧ (∀ data selG inflG a l,
       l ≠ 0%Z → nodeById data !! l = None →
       filteredNodes data selG inflG a (Some l)
       = filteredNodes data selG inflG None None)
  ∧ (∀ data selG inflG a l,
       l ≠ 0%Z →
       filteredNodes data selG inflG a (Some l)
       = filteredNodes data selG inflG None (Some l))
  ∧ (let st := handle (handle initState (ClickLabel 20)) (ClickArtist 10) in
     reachable scenario st
     ∧ selectedLabelId st = Some 20%Z ∧ selectedArtistId st = Some 10%Z
     ∧ filteredNodesOf scenario st
       = [work 1 Song 2000 (Some []); work 2 Song 2005 (Some [1%Z])])
  ∧ (∀ data selG inflG a,
       filteredNodes data selG inflG a (Some 0%Z)
       = filteredNodes data selG inflG a None)
  ∧ (let st := handle (handle initState (ClickLabel 0)) (ClickArtist 10) in
     reachable labelZero st
     ∧ selectedLabelId st = Some 0%Z ∧ selectedArtistId st = Some 10%Z
     ∧ (∃ label, nodeById labelZero !! 0%Z = Some label
                 ∧ orEmpty (recordedArtwork label) ++ orEmpty (distributedArtwork label)
                   = [1; 2]%Z)
     ∧ filteredNodes labelZero (selectedGenres st) (influenceGenres st) None None
       = [work 1 Song 2000 None; work 2 Song 2005 None]
     ∧ filteredNodesOf labelZero st = [work 1 Song 2000 None]).
Proof.
  assert (∀ l, l ≠ 0%Z → selected (Some l) = true) as Hsel.
  { intros l Hl. unfold selected, truthy. by rewrite (proj2 (Z.eqb_neq l 0) Hl). }
  split; [|split; [|split; [|split; [|split]]]].
  - intros data selG inflG a l label Hl Hlab.
    rewrite !filteredNodes_stages. unfold selectionStage at 1.
    rewrite (Hsel l Hl). cbn [mbind option_bind]. rewrite Hlab.
    unfold selectionStage. cbn [selected].
    apply filter_ext. intros n. apply inSet_labelSet.
  - intros data selG inflG a l Hl Hlab.
    rewrite !filteredNodes_stages. unfold selectionStage at 1.
    rewrite (Hsel l Hl). cbn [mbind option_bind]. by rewrite Hlab.
  - intros data selG inflG a l Hl.
    rewrite !filteredNodes_stages. unfold selectionStage.
    by rewrite (Hsel l Hl).
  - destruct label_then_artist_reachable as (Hr & Hlab & Hart).
    split; [exact Hr|]. split; [exact Hlab|]. split; [exact Hart|].
    vm_compute. reflexivity.
  - intros data selG inflG a. reflexivity.
  - split; [|split; [reflexivity|split; [reflexivity|split; [|split]]]].
    + apply reachable_step; [apply reachable_step; [apply reachable_init|] |];
        vm_compute; reflexivity.
    + eexists. split; vm_compute; reflexivity.
    + vm_compute. reflexivity.
    + vm_compute. reflexivity.
Qed.

(** *** InteractionController *)

(** C2, as stated, fails: a contributor click in a reachable state does not
    always leave the label selection empty. *)
Lemma contributor_click_keeps_label :
  ¬ (∀ data st a, reachable data st → enabled data st (ClickArtist a) = true →
       selectedLabelId (handle st (ClickArtist a)) = None).
Proof.
  intros H.
  specialize (H scenario (handle initState (ClickLabel 20)) 10%Z).
  discriminate H.
  - apply reachable_step; [apply reachable_init|]. vm_compute; reflexivity.
  - vm_compute; reflexivity.
Qed.

(** C2, amended. A label click empties the contributor selection (and the
    artwork selection) and toggles the label; a contributor click or search
    pick sets the contributor and leaves the label selection as it was; a
    background click empties all three selections. *)
Theorem selection_transitions (st : State) :
  (∀ l, selectedArtistId (handle st (ClickLabel l)) = None
        ∧ selectedArtworkId (handle st (ClickLabel l)) = None
        ∧ selectedLabelId (handle st (ClickLabel l)) = toggleSel (selectedLabelId st) l)
  ∧ (∀ a, selectedLabelId (handle st (ClickArtist a)) = selectedLabelId st
        ∧ selectedArtistId (handle st (ClickArtist a)) = toggleSel (selectedArtistId st) a
        ∧ selectedLabelId (handle st (SearchSelectArtist a)) = selectedLabelId st
        ∧ selectedArtistId (handle st (SearchSelectArtist a)) = Some a)
  ∧ selectedArtistId (handle st ClickBackground) = None
  ∧ selectedLabelId (handle st ClickBackground) = None
  ∧ selectedArtworkId (handle st ClickBackground) = None
  ∧ (∃ data st' a, reachable data st' ∧ enabled data st' (ClickArtist a) = true
       ∧ is_Some (selectedLabelId (handle st' (ClickArtist a)))
       ∧ is_Some (selectedArtistId (handle st' (ClickArtist a)))).
Proof.
  destruct st. simpl. repeat split.
  exists scenario, (handle initState (ClickLabel 20)), 10%Z.
  split; [|split; [reflexivity|split; by eexists]].
  apply reachable_step; [apply reachable_init|reflexivity].
Qed.

(** *** The influence-genre selection and the pie glyph *)

Lemma size_allGenres : size allGenres = length FLAT_GENRES.
Proof. vm_compute. reflexivity. Qed.

Lemma toggle_subseteq (g : string) (s u : gset string) :
  g ∈ u → s ⊆ u → toggle g s ⊆ u.
Proof.
  unfold toggle. intros Hg Hs. destruct (bool_decide (g ∈ s)).
  - by apply subseteq_difference_l.
  - apply union_subseteq. split; [done|]. by apply singleton_subseteq_l.
Qed.

Lemma selectAll_subseteq (all : list string) (s : gset string) :
  selectAll all s ⊆ list_to_set all.
Proof. unfold selectAll. destruct (bool_decide _); [apply empty_subseteq|done]. Qed.

(** Reachable selections never leave their vocabulary. *)
Lemma reachable_vocabulary (data : list Node) (st : State) :
  reachable data st →
  selectedGenres st ⊆ allGenres ∧ influenceGenres st ⊆ allGenres.
Proof.
  intros Hr. induction Hr as [|st ev Hr [IH1 IH2] Hen]; [split; [done|apply empty_subseteq]|].
  destruct st as [sg ig sr a l w h z]; simpl in *.
  destruct ev; simpl in *; try (split; assumption);
    try (apply bool_decide_eq_true in Hen; apply list_elem_of_In in Hen).
  - split; [|done]. apply toggle_subseteq; [|done].
    unfold allGenres. apply elem_of_list_to_set, list_elem_of_In, Hen.
  - split; [|done]. apply selectAll_subseteq.
  - split; [done|]. apply toggle_subseteq; [|done].
    unfold allGenres. apply elem_of_list_to_set, list_elem_of_In, Hen.
  - split; [done|]. apply selectAll_subseteq.
Qed.

Lemma pieGlyphsShown_iff (inflG : gset string) :
  inflG ⊆ allGenres → (pieGlyphsShown inflG = true ↔ inflG = allGenres).
Proof.
  intros Hsub. unfold pieGlyphsShown. rewrite bool_decide_eq_true. split.
  - intros Hsz. apply set_subseteq_size_eq; [done|]. rewrite size_allGenres. lia.
  - intros ->. apply size_allGenres.
Qed.

(** C7, as stated, fails in its second half: with the whole vocabulary
    selected as influence genres the visible works are not those of the
    unfiltered state (works 1 and 3 of the scenario cite no source). *)
Lemma all_influence_genres_still_filter :
  pieGlyphsShown allGenres = true
  ∧ filteredNodes scenario allGenres allGenres None None
    ≠ filteredNodes scenario allGenres ∅ None None
  ∧ map id (filteredNodes scenario allGenres allGenres None None) = [2%Z]
  ∧ map id (filteredNodes scenario allGenres ∅ None None) = [1; 2; 3]%Z.
Proof.
  split; [reflexivity|]. split; [|split; reflexivity].
  intros H. apply (f_equal length) in H. vm_compute in H. discriminate H.
Qed.

(** C7, amended. In every reachable state the pie layer is on exactly when
    the influence-genre selection is the whole vocabulary, and a year then
    gets a pie exactly when it has a visible work.  In that state the
    selection still filters: the visible works are those of the state with no
    influence genre selected that cite at least one influence source whose
    genre is in the vocabulary. *)
Theorem pie_glyph_switch (data : list Node) (st : State)
    (selG : gset string) (a l : option Z) (arcYears : list Z) :
  reachable data st →
  (pieGlyphsShown (influenceGenres st) = true ↔ influenceGenres st = allGenres)
  ∧ (∀ filtered y, y ∈ pieGlyphYears arcYears filtered (influenceGenres st) ↔
        influenceGenres st = allGenres ∧ y ∈ arcYears ∧ yearData filtered y ≠ [])
  ∧ filteredNodes data selG allGenres a l
    = List.filter (influencePass (influenceGenreNodeIds data allGenres))
        (filteredNodes data selG ∅ a l).
Proof.
  intros Hr. destruct (reachable_vocabulary data st Hr) as [_ Hsub].
  pose proof (pieGlyphsShown_iff _ Hsub) as Hpie.
  split; [exact Hpie|]. split.
  - intros filtered y. unfold pieGlyphYears.
    destruct (pieGlyphsShown (influenceGenres st)) eqn:Hshown.
    + rewrite list_elem_of_In, filter_In, <- list_elem_of_In.
      rewrite negb_true_iff, Nat.eqb_neq, length_zero_iff_nil.
      destruct Hpie as [Hpie _]. specialize (Hpie eq_refl). tauto.
    + split; [intros H; by apply elem_of_nil in H|].
      intros [Hall _]. apply Hpie in Hall. discriminate.
  - rewrite !filteredNodes_stages, size_empty, size_allGenres.
    simpl bool_decide.
    replace (bool_decide (0 < 0)) with false by done.
    replace (bool_decide (0 < 26)) with true
      by (symmetry; apply bool_decide_eq_true; lia).
    apply selectionStage_filter.
Qed.

Lemma pie_glyph_switch_witness :
  pieGlyphsShown (influenceGenres (handle initState HandleInfluenceSelectAll)) = true
  ↔ influenceGenres (handle initState HandleInfluenceSelectAll) = allGenres.
Proof.
  apply (proj1 (pie_glyph_switch scenario (handle initState HandleInfluenceSelectAll)
                  allGenres None None []
                  (reachable_step scenario initState HandleInfluenceSelectAll
                     (reachable_init scenario) eq_refl))).
Defined.

(** *** The temporal scale *)

Lemma remove_dups_NoDup_id (l : list Z) : NoDup l → remove_dups l = l.
Proof.
  induction 1 as [|x l Hx Hnd IH]; simpl; [done|].
  destruct (decide_rel elem_of x l); [contradiction|]. by rewrite IH.
Qed.

Lemma sorted_le_NoDup_lt (l : list Z) :
  StronglySorted Z.le l → NoDup l → StronglySorted Z.lt l.
Proof.
  induction 1 as [|x l Hs IH Hall]; intros Hnd; [constructor|].
  apply NoDup_cons in Hnd as [Hx Hnd]. constructor; [by apply IH|].
  rewrite Forall_forall in Hall |- *. intros y Hy.
  specialize (Hall y Hy). assert (x ≠ y) by (intros ->; done). lia.
Qed.

Lemma years_sorted (data : list Node) : StronglySorted Z.lt (years data).
Proof.
  unfold years. apply sorted_le_NoDup_lt.
  - apply (StronglySorted_merge_sort Z.le).
  - rewrite merge_sort_Permutation. apply NoDup_remove_dups.
Qed.

Lemma arcYears_years (data : list Node) : arcYears data = years data.
Proof.
  unfold arcYears. apply (StronglySorted_unique Z.le).
  - apply (StronglySorted_merge_sort Z.le).
  - generalize (years_sorted data).
    induction 1 as [|x l Hs IH Hall]; constructor; [done|].
    eapply Forall_impl; [exact Hall|]. intros y ?. simpl in *. lia.
  - apply merge_sort_Permutation.
Qed.

Lemma sorted_lt_NoDup (l : list Z) : StronglySorted Z.lt l → NoDup l.
Proof.
  induction 1 as [|x l Hs IH Hall]; constructor; [|done].
  intros Hx. rewrite Forall_forall in Hall. specialize (Hall x Hx). lia.
Qed.

Lemma indexOf_elem (x : Z) (l : list Z) : x ∈ l → is_Some (indexOf x l).
Proof.
  induction l as [|y l IH]; intros Hx; [by apply elem_of_nil in Hx|].
  simpl. destruct (Z.eqb_spec y x) as [|Hne]; [by eexists|].
  apply elem_of_cons in Hx as [->|Hx]; [done|].
  destruct (IH Hx) as [i ->]. by eexists.
Qed.

Lemma indexOf_lt_length (x : Z) (l : list Z) (i : nat) :
  indexOf x l = Some i → i < length l.
Proof.
  revert i. induction l as [|y l IH]; intros i; simpl; [done|].
  destruct (y =? x)%Z; [intros [= <-]; lia|].
  destruct (indexOf x l) as [k|]; simpl; [|done].
  intros [= <-]. specialize (IH k eq_refl). lia.
Qed.

(** In a strictly ascending list the position grows with the value. *)
Lemma indexOf_sorted_lt (l : list Z) (x y : Z) (i j : nat) :
  StronglySorted Z.lt l → (x < y)%Z →
  indexOf x l = Some i → indexOf y l = Some j → i < j.
Proof.
  intros Hs Hxy. revert i j.
  induction Hs as [|z l Hs IH Hall]; intros i j; simpl; [done|].
  rewrite Forall_forall in Hall.
  destruct (Z.eqb_spec z x) as [Hzx|Hzx], (Z.eqb_spec z y) as [Hzy|Hzy];
    subst.
  - lia.
  - intros [= <-]. destruct (indexOf y l); simpl; [|done]. intros [= <-]. lia.
  - intros Hi _. destruct (indexOf x l) as [k|] eqn:Hk; [|done].
    assert (x ∈ l) as Hin.
    { clear -Hk. revert k Hk. induction l as [|w l IHl]; intros k; simpl; [done|].
      destruct (Z.eqb_spec w x) as [->|]; [intros _; left|].
      destruct (indexOf x l) eqn:E; [|done]. intros _. right. by eapply IHl. }
    specialize (Hall x Hin). lia.
  - destruct (indexOf x l) as [k|], (indexOf y l) as [k'|]; simpl; try done.
    intros [= <-] [= <-]. specialize (IH k k' eq_refl eq_refl). lia.
Qed.

Lemma ofNat_lt (i j : nat) : i < j → (ofNat i < ofNat j)%Q.
Proof. intros H. unfold ofNat, Qlt. simpl. lia. Qed.

(** The point scale over a strictly ascending domain and an ascending range
    is strictly increasing. *)
Lemma scalePoint_strictly_monotonic (ys : list Z) (r0 r1 : Q) (y1 y2 : Z) :
  StronglySorted Z.lt ys → (r0 < r1)%Q →
  y1 ∈ ys → y2 ∈ ys → (y1 < y2)%Z →
  ∃ a1 a2, scalePoint ys r0 r1 y1 = Some a1
           ∧ scalePoint ys r0 r1 y2 = Some a2 ∧ (a1 < a2)%Q.
Proof.
  intros Hs Hr H1 H2 Hlt. unfold scalePoint.
  rewrite (remove_dups_NoDup_id ys (sorted_lt_NoDup ys Hs)).
  assert (Qle_bool r0 r1 = true) as -> by (apply Qle_bool_iff; lra).
  destruct (indexOf_elem y1 ys H1) as [i Hi], (indexOf_elem y2 ys H2) as [j Hj].
  rewrite Hi, Hj. simpl.
  pose proof (indexOf_sorted_lt ys y1 y2 i j Hs Hlt Hi Hj) as Hij.
  pose proof (indexOf_lt_length y2 ys j Hj) as Hjn.
  eexists _, _. split; [done|]. split; [done|].
  set (step := ((r1 - r0) / inject_Z (Z.max 1 (Z.of_nat (length ys) - 1)))%Q).
  assert (0 < step)%Q as Hstep.
  { unfold step. apply Qlt_shift_div_l.
    - unfold Qlt. simpl. lia.
    - lra. }
  pose proof (ofNat_lt i j Hij). nra.
Qed.

(** C8. Over the sorted distinct years of any dataset the temporal scale is
    strictly increasing: an earlier year gets a smaller angle.  The same
    holds for the point scale over any strictly ascending list of years. *)
Theorem temporal_scale_strictly_monotonic (data : list Node) (ys : list Z)
    (y1 y2 : Z) :
  (y1 < y2)%Z →
  (y1 ∈ years data → y2 ∈ years data →
     ∃ a1 a2, angleScale data y1 = Some a1
              ∧ angleScale data y2 = Some a2 ∧ (a1 < a2)%Q)
  ∧ (StronglySorted Z.lt ys → y1 ∈ ys → y2 ∈ ys →
       ∃ a1 a2, scalePoint ys arcStart arcEnd y1 = Some a1
                ∧ scalePoint ys arcStart arcEnd y2 = Some a2 ∧ (a1 < a2)%Q).
Proof.
  intros Hlt. split.
  - intros H1 H2. unfold angleScale. rewrite arcYears_years.
    apply scalePoint_strictly_monotonic; auto using years_sorted. reflexivity.
  - intros Hs Hy1 Hy2.
    apply scalePoint_strictly_monotonic; auto. reflexivity.
Qed.

Lemma scenario_years : years scenario = [2000; 2005; 2010]%Z.
Proof. reflexivity. Qed.

Lemma temporal_scale_strictly_monotonic_witness :
  ∃ a1 a2, angleScale scenario 2000 = Some a1
           ∧ angleScale scenario 2010 = Some a2 ∧ (a1 < a2)%Q.
Proof.
  refine (proj1 (temporal_scale_strictly_monotonic scenario [] 2000 2010 _) _ _).
  - lia.
  - apply list_elem_of_In. simpl. auto.
  - apply list_elem_of_In. simpl. auto.
Defined.

(** The scenario's three years sit at -45, 0 and +45 degrees. *)
Example scenario_angles :
  map (λ y, Qred <$> angleScale scenario y) [2000; 2005; 2010]%Z
  = [Some (-45)%Q; Some 0%Q; Some 45%Q].
Proof. reflexivity. Qed.

(** *** The influence bands *)

Lemma ilog10_fuel_spec (fuel : nat) (n : Z) :
  (1 ≤ n < 2 ^ Z.of_nat fuel)%Z →
  (0 ≤ ilog10_fuel fuel n
   ∧ 10 ^ ilog10_fuel fuel n ≤ n < 10 ^ (ilog10_fuel fuel n + 1))%Z.
Proof.
  revert n. induction fuel as [|f IH]; intros n Hn.
  - simpl in Hn. lia.
  - cbn [ilog10_fuel]. destruct (Z.ltb_spec n 10) as [Hlt|Hge].
    + simpl. lia.
    + assert (1 ≤ n / 10 < 2 ^ Z.of_nat f)%Z as Hdiv.
      { split; [apply Z.div_le_lower_bound; lia|].
        apply Z.div_lt_upper_bound; [lia|].
        rewrite Nat2Z.inj_succ, Z.pow_succ_r in Hn by lia. lia. }
      destruct (IH _ Hdiv) as (Hk & Hlo & Hhi).
      set (k := ilog10_fuel f (n / 10)) in *.
      pose proof (Z.mul_div_le n 10 ltac:(lia)) as Hle.
      pose proof (Z.mul_succ_div_gt n 10 ltac:(lia)) as Hgt.
      split; [lia|].
      replace (1 + k + 1)%Z with (Z.succ (k + 1)) by lia.
      replace (1 + k)%Z with (Z.succ k) by lia.
      rewrite !Z.pow_succ_r by lia. lia.
Qed.

Lemma ilog10_spec (n : Z) :
  (1 ≤ n)%Z → (0 ≤ ilog10 n ∧ 10 ^ ilog10 n ≤ n < 10 ^ (ilog10 n + 1))%Z.
Proof.
  intros Hn. unfold ilog10. apply ilog10_fuel_spec.
  split; [done|]. rewrite Nat2Z.inj_succ, Z2Nat.id by apply Z.log2_nonneg.
  apply Z.log2_spec. lia.
Qed.

Lemma Qpower10_nonneg (k : Z) : (0 ≤ k)%Z → (10 ^ k == inject_Z (10 ^ k))%Q.
Proof. intros Hk. by rewrite (Zpower_Qpower 10 k Hk). Qed.

Lemma Qpower10_neg (k : Z) : (0 ≤ k)%Z → (10 ^ (- k) == / inject_Z (10 ^ k))%Q.
Proof. intros Hk. by rewrite Qpower_opp, (Qpower10_nonneg k Hk). Qed.

(** [floor_log10 x] is the exponent of the decade that holds [x]. *)
Lemma floor_log10_spec (x : Q) :
  (0 < x)%Q → ∃ k, floor_log10 x = Some k ∧ (10 ^ k <= x)%Q ∧ (x < 10 ^ (k + 1))%Q.
Proof.
  destruct x as [a b]. intros Ha. unfold Qlt in Ha. simpl in Ha.
  unfold floor_log10. cbn [Qnum Qden].
  destruct (Z.leb_spec a 0) as [|_]; [lia|].
  destruct (Z.leb_spec (Z.pos b) a) as [Hba|Hab].
  - assert (1 ≤ a / Z.pos b)%Z as Hq by (apply Z.div_le_lower_bound; lia).
    destruct (ilog10_spec _ Hq) as (Hk & Hlo & Hhi).
    set (k := ilog10 (a / Z.pos b)) in *.
    pose proof (Z.mul_div_le a (Z.pos b) ltac:(lia)) as Hle.
    pose proof (Z.mul_succ_div_gt a (Z.pos b) ltac:(lia)) as Hgt.
    exists k. split; [done|].
    pose proof (Qpower10_nonneg k ltac:(lia)) as E1.
    pose proof (Qpower10_nonneg (k + 1) ltac:(lia)) as E2.
    assert (inject_Z (10 ^ k) <= a # b)%Q by (unfold Qle; simpl; nia).
    assert (a # b < inject_Z (10 ^ (k + 1)))%Q by (unfold Qlt; simpl; nia).
    split; [apply (Qle_trans _ (inject_Z (10 ^ k)))
           |apply (Qlt_le_trans _ (inject_Z (10 ^ (k + 1))))];
      try done; apply Qle_lteq; right; [exact E1|symmetry; exact E2].
  - assert (1 ≤ (Z.pos b - 1) / a)%Z as Hq by (apply Z.div_le_lower_bound; lia).
    destruct (ilog10_spec _ Hq) as (Hj & Hlo & Hhi).
    set (j := ilog10 ((Z.pos b - 1) / a)) in *.
    pose proof (Z.mul_div_le (Z.pos b - 1) a ltac:(lia)) as Hle.
    pose proof (Z.mul_succ_div_gt (Z.pos b - 1) a ltac:(lia)) as Hgt.
    assert (0 < 10 ^ j)%Z as Hpj by (apply Z.pow_pos_nonneg; lia).
    assert (0 < 10 ^ (j + 1))%Z as Hpj1 by (apply Z.pow_pos_nonneg; lia).
    exists (- (1 + j))%Z. split; [done|].
    replace (- (1 + j) + 1)%Z with (- j)%Z by lia.
    replace (1 + j)%Z with (j + 1)%Z by lia.
    pose proof (Qpower10_neg (j + 1) ltac:(lia)) as E1.
    pose proof (Qpower10_neg j ltac:(lia)) as E2.
    assert (/ inject_Z (10 ^ (j + 1)) <= a # b)%Q
      by (apply Qle_shift_inv_r; unfold Qlt, Qle; simpl; nia).
    assert (a # b < / inject_Z (10 ^ j))%Q
      by (apply Qlt_shift_inv_l; unfold Qlt; simpl; nia).
    split; [apply (Qle_trans _ (/ inject_Z (10 ^ (j + 1))))
           |apply (Qlt_le_trans _ (/ inject_Z (10 ^ j)))];
      try done; apply Qle_lteq; right; [exact E1|symmetry; exact E2].
Qed.





(** *** The cumulative influence of a ribbon *)

Example scenario_yearsContributed :
  yearsContributed scenario ada = [2000; 2005; 2010]%Z.
Proof. reflexivity. Qed.

Lemma scenario_influenceByYear :
  influenceByYear (orEmpty (influence ada)) (yearsContributed scenario ada)
  = [5; 5; 5]%Q.
Proof. vm_compute. reflexivity. Qed.

(** C4, as stated, fails: the sequence of the scenario is not [0, 5, 5]. *)
Lemma scenario_cumulative_not_0_5_5 :
  ¬ Forall2 Qeq
      (influenceByYear (orEmpty (influence ada)) (yearsContributed scenario ada))
      [0; 5; 5]%Q.
Proof.
  rewrite scenario_influenceByYear. intros H.
  apply Forall2_cons_1 in H as [H _]. discriminate H.
Qed.

(** C4, amended. In the scenario the cumulative-influence sequence over the
    years 2000, 2005, 2010 is [5, 5, 5]: the year 2000 lies before the first
    year with an event and takes the next known value.  The three years are
    the sorted release years of the contributor's works. *)
Theorem scenario_cumulative_5_5_5 :
  yearsList (cleanInfluenceArray (orEmpty (influence ada))
               (yearsContributed scenario ada))
            (yearsContributed scenario ada) = [2000; 2005; 2010]%Z
  ∧ Forall2 Qeq
      (influenceByYear (orEmpty (influence ada)) (yearsContributed scenario ada))
      [5; 5; 5]%Q
  ∧ sortYears (contributedYears scenario ada) = Some (yearsContributed scenario ada).
Proof.
  split; [reflexivity|]. split; [|reflexivity]. rewrite scenario_influenceByYear.
  repeat constructor.
Qed.

(** *** The interpolation pass keeps the sequence ascending *)



Lemma Qdiv_inject_le (a b c : Z) :
  (a ≤ b)%Z → (0 < c)%Z → (inject_Z a / inject_Z c <= inject_Z b / inject_Z c)%Q.
Proof.
  intros Hab Hc. unfold Qdiv. apply Qmult_le_compat_r.
  - by rewrite <- Zle_Qle.
  - apply Qinv_le_0_compat. replace 0%Q with (inject_Z 0) by done.
    rewrite <- Zle_Qle. lia.
Qed.

Lemma Qdiv_inject_same (c : Z) : (0 < c)%Z → (inject_Z c / inject_Z c == 1)%Q.
Proof.
  intros Hc. field. intros H. unfold Qeq in H. simpl in H. lia.
Qed.

Lemma Qdiv_inject_nonneg (a c : Z) :
  (0 ≤ a)%Z → (0 < c)%Z → (0 <= inject_Z a / inject_Z c)%Q.
Proof.
  intros Ha Hc. pose proof (Qdiv_inject_le 0 a c Ha Hc) as H.
  unfold Qdiv in H at 1. rewrite Qmult_0_l in H. exact H.
Qed.




Lemma fillStep_unknown cum i year rest s :
  cum !! year = None → nextValid cum i (year :: rest) s →
  let s1 := (fillStep cum i year rest s).1 in
  let v := (fillStep cum i year rest s).2 in
  lastKnownIdx s1 = lastKnownIdx s ∧ lastKnownValue s1 = lastKnownValue s
  ∧ match findNextKnown cum rest (S i) with
    | Some (q, nv) =>
        nextKnownIdx s1 = Z.of_nat q ∧ nextKnownValue s1 = nv
        ∧ v = (if (lastKnownIdx s =? -1)%Z then nv else interpAt s i q nv)
    | None =>
        nextKnownIdx s1 = (-1)%Z
        ∧ v = (if (lastKnownIdx s =? -1)%Z then 0%Q else lastKnownValue s)
    end.
Proof.
  intros Hy Hnext. unfold fillStep. rewrite Hy.
  destruct (Z.leb_spec (nextKnownIdx s) (Z.of_nat i)) as [Hle|Hgt].
  - destruct (findNextKnown cum rest (S i)) as [[q nv]|] eqn:HF; cbn -[Z.eqb Z.of_nat].
    + assert ((Z.of_nat q =? -1)%Z = false) as -> by (apply Z.eqb_neq; lia).
      destruct (lastKnownIdx s =? -1)%Z; cbn; done.
    + destruct (lastKnownIdx s =? -1)%Z; cbn; done.
  - destruct Hnext as [Hst|(q & Hq & HF)]; [lia|].
    simpl in HF. rewrite Hy in HF. rewrite HF. cbn -[Z.eqb Z.of_nat].
    rewrite Hq. assert ((Z.of_nat q =? -1)%Z = false) as -> by (apply Z.eqb_neq; lia).
    unfold interpAt.
    destruct (lastKnownIdx s =? -1)%Z; cbn; done.
Qed.

Lemma knowns_cons_known cum year rest c :
  cum !! year = Some c → knowns cum (year :: rest) = c :: knowns cum rest.
Proof. intros H. unfold knowns. simpl. by rewrite H. Qed.

Lemma knowns_cons_unknown cum year rest :
  cum !! year = None → knowns cum (year :: rest) = knowns cum rest.
Proof. intros H. unfold knowns. simpl. by rewrite H. Qed.



Lemma cumulative_fold_lookup_notin clean yl : ∀ acc y,
  y ∉ yl → (fold_left (cumulativeStep clean) yl acc).2 !! y = acc.2 !! y.
Proof.
  induction yl as [|x yl IH]; intros acc y Hy; simpl; [done|].
  apply not_elem_of_cons in Hy as [Hne Hy]. rewrite IH by done.
  unfold cumulativeStep. destruct (yearScore clean x); [|done].
  simpl. by rewrite lookup_insert_ne.
Qed.

Lemma cumulative_fold_knowns clean yl : ∀ r (m : gmap Z Q),
  NoDup yl → (∀ y, y ∈ yl → m !! y = None) →
  knowns (fold_left (cumulativeStep clean) yl (r, m)).2 yl = knownSums clean r yl.
Proof.
  induction yl as [|x yl IH]; intros r m Hnd Hm; [done|].
  apply NoDup_cons in Hnd as [Hx Hnd].
  simpl fold_left. unfold knowns. simpl omap.
  rewrite (cumulative_fold_lookup_notin clean yl _ x Hx).
  simpl knownSums.
  destruct (yearScore clean x) as [sc|] eqn:Hsc.
  - replace (cumulativeStep clean (r, m) x)
      with ((r + sc)%Q, <[x := (r + sc)%Q]> m)
      by (unfold cumulativeStep; by rewrite Hsc).
    simpl. rewrite lookup_insert_eq. simpl. f_equal.
    apply IH; [done|]. intros y Hy. rewrite lookup_insert_ne.
    + apply Hm. by right.
    + intros ->. done.
  - replace (cumulativeStep clean (r, m) x) with (r, m)
      by (unfold cumulativeStep; by rewrite Hsc).
    simpl. rewrite (Hm x) by left. simpl.
    apply IH; [done|]. intros y Hy. apply Hm. by right.
Qed.






Lemma yearsList_NoDup clean yc : NoDup (yearsList clean yc).
Proof. unfold yearsList. rewrite merge_sort_Permutation. apply NoDup_remove_dups. Qed.


Lemma StronglySorted_lookup_le (l : list Q) (i j : nat) (vi vj : Q) :
  StronglySorted Qle l → i ≤ j → l !! i = Some vi → l !! j = Some vj → (vi <= vj)%Q.
Proof.
  intros Hs. revert i j. induction Hs as [|x l Hs IH Hall]; intros i j Hij Hi Hj; [done|].
  destruct i as [|i], j as [|j]; simpl in *; try lia.
  - injection Hi as <-. injection Hj as <-. apply Qle_refl.
  - injection Hi as <-. rewrite Forall_forall in Hall.
    apply Hall. by eapply list_elem_of_lookup_2.
  - apply (IH i j); [lia|done|done].
Qed.






Lemma progress_Some (i n : nat) :
  2 ≤ n → progress i n = Some (ofNat i / (ofNat n - 1))%Q.
Proof.
  intros Hn. unfold progress, jsdiv.
  destruct (Qeq_bool (ofNat n - 1) 0) eqn:E; [|done].
  apply Qeq_bool_iff in E. unfold ofNat, Qeq in E. simpl in E. lia.
Qed.

Lemma tailRadii_fallback (vals : list Q) (tmin tmax : Q) (i : nat) :
  Qeq_bool (listMax vals) (listMin vals) = true →
  2 ≤ length vals → i < length vals →
  tailRadii vals tmin tmax !! i = Some (Some (linearRadius tmin tmax (length vals) i)).
Proof.
  intros Heq Hn Hi. unfold tailRadii. rewrite Heq. simpl.
  rewrite list_lookup_imap.
  destruct (lookup_lt_is_Some_2 vals i Hi) as [v ->]. simpl.
  by rewrite progress_Some.
Qed.



(** Interpolation between two known years, and clamping after the last. *)
Example influenceByYear_interpolates :
  map Qred (influenceByYear [mkInf (Some 2000%Z) 5; mkInf (Some 2010%Z) 7]
              [2000; 2003; 2005; 2010; 2012]%Z)
  = [5; 22 # 3; 29 # 3; 12; 12]%Q.
Proof. reflexivity. Qed.

(** Influence of unknown year is shared out over the contributed years. *)
Example influenceByYear_unknown_shared :
  map Qred (influenceByYear [mkInf None 6] [2000; 2005; 2010]%Z) = [2; 4; 6]%Q.
Proof. reflexivity. Qed.

(** The sign condition is needed: a negative event makes the sequence fall. *)
Example influenceByYear_negative_event :
  map Qred (influenceByYear [mkInf (Some 2000%Z) 5; mkInf (Some 2005%Z) (-3)]
              [2000; 2005]%Z) = [5; 2]%Q.
Proof. reflexivity. Qed.

(** *** Degenerate ribbons and non-finite coordinates *)







Lemma allNumbers_Some (l : list (option Z)) (ys : list Z) :
  allNumbers l = Some ys → l = map Some ys.
Proof.
  revert ys. induction l as [|[y|] l IH]; intros ys; cbn.
  - by intros [= <-].
  - destruct (allNumbers l) as [ys'|]; [|done]. cbn. intros [= <-].
    cbn. by rewrite (IH ys' eq_refl).
  - done.
Qed.



(** On a contributor whose credited works are all dated the sorted years
    are [yearsContributed]. *)
Lemma sortYears_yearsContributed (data : list Node) (node : Node) (ys : list Z) :
  sortYears (contributedYears data node) = Some ys →
  ys = yearsContributed data node.
Proof.
  unfold sortYears, contributedYears, yearsContributed.
  destruct (allNumbers _) as [ys'|] eqn:E; [|done]. cbn. intros [= <-]. f_equal.
  apply allNumbers_Some in E. revert ys' E.
  induction (orEmpty (contributedTo node)) as [|i c IH]; intros ys' E.
  - by destruct ys'.
  - cbn [omap list_omap] in E |- *.
    destruct (nodeById data !! i) as [art|]; cbn in E |- *; [|by apply IH].
    destruct ys' as [|y ys'']; [done|]. cbn in E. injection E as Hy E.
    rewrite Hy. cbn. f_equal. by apply IH.
Qed.












(** The scenario's contributor: the years of the three works, all dated. *)
Example scenario_contributedYears :
  contributedYears scenario ada = [Some 2000; Some 2005; Some 2010]%Z
  ∧ sortYears (contributedYears scenario ada) = Some (yearsContributed scenario ada).
Proof. split; reflexivity. Qed.

(** With an undated work the years hold a [NaN]; here both guards pass and
    there are three year points (2000, the missing year and the year of the
    event), so a tail is drawn. *)
Example undated_work_keeps_its_place cosd sind :
  contributedYears undatedData bob = [Some 2000%Z; None]
  ∧ yearKeys (contributedYears undatedData bob) (orEmpty (influence bob))
    = [Some 2000%Z; None; Some 2005%Z]
  ∧ drawTail cosd sind exampleGeom bob (contributedYears undatedData bob)
    = TailOfUndated.
Proof. repeat split. Qed.

(** *** The view-fit transform *)

Lemma qmin_le_l (a b : Q) : (qmin a b <= a)%Q.
Proof.
  unfold qmin. destruct (Qle_bool a b) eqn:E; [apply Qle_refl|].
  destruct (Qlt_le_dec b a) as [H|H]; [by apply Qlt_le_weak|].
  apply Qle_bool_iff in H. congruence.
Qed.

Lemma qmin_le_r (a b : Q) : (qmin a b <= b)%Q.
Proof.
  unfold qmin. destruct (Qle_bool a b) eqn:E; [by apply Qle_bool_iff|apply Qle_refl].
Qed.

Lemma qmin_cases (a b : Q) : qmin a b = a ∨ qmin a b = b.
Proof. unfold qmin. destruct (Qle_bool a b); auto. Qed.










(** The initial state has no active filter. *)
Example initial_state_not_filtered : App.filterActive initState = false.
Proof. reflexivity. Qed.

(** *** The filter pipeline only selects *)

Lemma sublist_List_filter {A} (f : A → bool) (l : list A) :
  sublist (List.filter f l) l.
Proof.
  induction l as [|x l IH]; simpl; [constructor|].
  destruct (f x); by constructor.
Qed.

Lemma sublist_List_filter_mono {A} (f : A → bool) (l k : list A) :
  sublist l k → sublist (List.filter f l) (List.filter f k).
Proof.
  induction 1 as [|x l k _ IH|x l k _ IH]; simpl; [constructor| |].
  - destruct (f x); [by constructor|done].
  - destruct (f x); [by constructor|done].
Qed.

Lemma selectionStage_sublist (data : list Node) (a l : option Z)
    (filtered : list Node) :
  sublist (selectionStage data a l filtered) filtered.
Proof.
  unfold selectionStage.
  repeat (case_match; try done); apply sublist_List_filter.
Qed.

Lemma filter_filter_impl {A} (f g : A → bool) (l : list A) :
  (∀ x, f x = true → g x = true) →
  sublist (List.filter f l) (List.filter g l).
Proof.
  intros Himp. induction l as [|x l IH]; simpl; [constructor|].
  destruct (f x) eqn:Hf.
  - rewrite (Himp x Hf). by constructor.
  - destruct (g x); [by constructor|done].
Qed.

Lemma elem_of_List_filter {A} (f : A → bool) (l : list A) (x : A) :
  x ∈ List.filter f l ↔ x ∈ l ∧ f x = true.
Proof. rewrite !list_elem_of_In. apply filter_In. Qed.

Lemma filteredNodes_sublist_nodes (data : list Node) (selG inflG : gset string)
    (a l : option Z) :
  sublist (filteredNodes data selG inflG a l) (nodes data).
Proof.
  rewrite filteredNodes_stages. etrans; [apply selectionStage_sublist|].
  destruct (bool_decide (0 < size inflG)).
  - etrans; apply sublist_List_filter.
  - apply sublist_List_filter.
Qed.

Lemma filteredNodes_artworks (data : list Node) (selG inflG : gset string)
    (a l : option Z) :
  forallb isArtwork (filteredNodes data selG inflG a l) = true.
Proof.
  apply forallb_forall. intros n Hn.
  assert (n ∈ nodes data) as Hin.
  { eapply elem_of_sublist; [by apply list_elem_of_In|].
    apply filteredNodes_sublist_nodes. }
  by apply elem_of_List_filter in Hin as [_ ?].
Qed.

(** *** The id hash and the jitter *)

Lemma toInt32_range (z : Z) : (- 2 ^ 31 ≤ toInt32 z < 2 ^ 31)%Z.
Proof.
  unfold toInt32. pose proof (Z.mod_pos_bound (z + 2 ^ 31) (2 ^ 32) ltac:(lia)). lia.
Qed.

Lemma toInt32_small (z : Z) : (- 2 ^ 31 ≤ z < 2 ^ 31)%Z → toInt32 z = z.
Proof. intros H. unfold toInt32. rewrite Z.mod_small; lia. Qed.

(** [ToInt32] only depends on the value modulo [2^32]. *)
Lemma toInt32_congr (x y : Z) :
  (x mod 2 ^ 32 = y mod 2 ^ 32)%Z → toInt32 x = toInt32 y.
Proof.
  intros H. unfold toInt32. f_equal.
  rewrite <- (Zplus_mod_idemp_l x), <- (Zplus_mod_idemp_l y). by rewrite H.
Qed.

Lemma toInt32_eq (z : Z) : ∃ k, (toInt32 z = z + k * 2 ^ 32)%Z.
Proof.
  exists (- ((z + 2 ^ 31) / 2 ^ 32))%Z. unfold toInt32.
  pose proof (Z.div_mod (z + 2 ^ 31) (2 ^ 32) ltac:(lia)). lia.
Qed.

Lemma mod_2_32_shift (x y k : Z) :
  (x = y + k * 2 ^ 32)%Z → (x mod 2 ^ 32 = y mod 2 ^ 32)%Z.
Proof. intros ->. apply Z_mod_plus_full. Qed.

Lemma hashStep_poly (a c : Z) : hashStep a c = toInt32 (31 * a + c).
Proof.
  unfold hashStep, shl5. rewrite Z.land_diag. apply toInt32_congr.
  rewrite Z.shiftl_mul_pow2 by lia.
  destruct (toInt32_eq a) as [k1 E1].
  destruct (toInt32_eq (toInt32 a * 2 ^ 5)) as [k2 E2].
  apply (mod_2_32_shift _ _ (k2 + 32 * k1)). rewrite E2, E1. lia.
Qed.

Lemma hashCodes_fold (codes : list Z) (a : Z) :
  toInt32 (fold_left (λ h c, 31 * h + c)%Z codes a)
  = fold_left hashStep codes (toInt32 a).
Proof.
  revert a. induction codes as [|c codes IH]; intros a; simpl; [done|].
  rewrite IH. f_equal. rewrite hashStep_poly. apply toInt32_congr.
  destruct (toInt32_eq a) as [k E].
  symmetry. apply (mod_2_32_shift _ _ (31 * k)). rewrite E. lia.
Qed.

(** X1. The id hash is the base-31 polynomial of the character codes reduced
    to a signed 32-bit integer; it always lies in the 32-bit range. *)
Theorem hash_is_polynomial_mod_2_32 (codes : list Z) :
  hashCodes codes = toInt32 (fold_left (λ h c, 31 * h + c)%Z codes 0%Z)
  ∧ (- 2 ^ 31 ≤ hashCodes codes < 2 ^ 31)%Z.
Proof.
  assert (hashCodes codes = toInt32 (fold_left (λ h c, 31 * h + c)%Z codes 0%Z)) as E.
  { rewrite hashCodes_fold. reflexivity. }
  split; [exact E|]. rewrite E. apply toInt32_range.
Qed.

Lemma jitter_bounds (hash m : Z) (amplitude : Q) :
  (0 < m)%Z → (0 <= amplitude)%Q →
  (- ((3 # 2) * amplitude) <= jitter hash m amplitude)%Q
  ∧ (jitter hash m amplitude <= (1 # 2) * amplitude)%Q
  ∧ ((0 ≤ hash)%Z → (- ((1 # 2) * amplitude) <= jitter hash m amplitude)%Q)
  ∧ ((hash ≤ 0)%Z → (jitter hash m amplitude <= - ((1 # 2) * amplitude))%Q).
Proof.
  intros Hm Ha. unfold jitter.
  pose proof (Z.rem_bound_abs hash m ltac:(lia)) as Hb.
  assert (0 < inject_Z m)%Q as Hmq by (unfold Qlt; simpl; lia).
  set (t := (inject_Z (Z.rem hash m) / inject_Z m)%Q).
  assert (- (1) <= t)%Q as Hlo.
  { unfold t. apply Qle_shift_div_l; [done|].
    unfold Qle. simpl. lia. }
  assert (t <= 1)%Q as Hhi.
  { unfold t. apply Qle_shift_div_r; [done|].
    unfold Qle. simpl. lia. }
  split; [nra|]. split; [nra|]. split.
  - intros Hh. pose proof (Z.rem_bound_pos hash m Hh Hm) as Hp.
    assert (0 <= t)%Q as Hnn.
    { unfold t. apply Qle_shift_div_l; [done|].
      unfold Qle. simpl. lia. }
    nra.
  - intros Hh.
    assert (Z.rem hash m ≤ 0)%Z as Hp.
    { pose proof (Z.rem_bound_pos (- hash) m ltac:(lia) Hm) as Hr.
      rewrite Z.rem_opp_l in Hr by lia. lia. }
    assert (t <= 0)%Q as Hnp.
    { unfold t. apply Qle_shift_div_r; [done|].
      unfold Qle. simpl. lia. }
    nra.
Qed.

(** X2. The jitter of a contributor is bounded whatever its id: the angle
    offset lies in [-0.12, 0.04] radians and the radius offset in
    [-60, 20].  The offsets are not centred: the remainder follows the sign
    of the hash, so a negative hash only gives offsets at or below
    [-0.04] and [-20].  The falsy id [0] is hashed as the empty string. *)
Theorem artist_jitter_bounded (i : Z) :
  (- (12 # 100) <= artistAngleJitter (idHash i))%Q
  ∧ (artistAngleJitter (idHash i) <= 4 # 100)%Q
  ∧ (- (60) <= artistRJitter (idHash i))%Q
  ∧ (artistRJitter (idHash i) <= 20)%Q
  ∧ ((idHash i ≤ 0)%Z →
     (artistAngleJitter (idHash i) <= - (4 # 100))%Q
     ∧ (artistRJitter (idHash i) <= - (20))%Q)
  ∧ ((0 ≤ idHash i)%Z →
     (- (4 # 100) <= artistAngleJitter (idHash i))%Q
     ∧ (- (20) <= artistRJitter (idHash i))%Q)
  ∧ idHash 0 = 0%Z.
Proof.
  unfold artistAngleJitter, artistRJitter.
  destruct (jitter_bounds (idHash i) 100 (8 # 100)) as (H1 & H2 & H3 & H4); [lia|lra|].
  destruct (jitter_bounds (idHash i) 1000 40) as (H5 & H6 & H7 & H8); [lia|lra|].
  split; [lra|]. split; [lra|]. split; [lra|]. split; [lra|].
  split; [|split; [|reflexivity]].
  - intros Hn. specialize (H4 Hn). specialize (H8 Hn). split; lra.
  - intros Hp. specialize (H3 Hp). specialize (H7 Hp). split; lra.
Qed.

Lemma artist_jitter_bounded_witness :
  (- (4 # 100) <= artistAngleJitter (idHash 17255))%Q
  ∧ (- (20) <= artistRJitter (idHash 17255))%Q.
Proof.
  refine (proj1 (proj2 (proj2 (proj2 (proj2 (proj2
            (artist_jitter_bounded 17255)))))) _).
  vm_compute. discriminate.
Defined.

(** *** Label placement *)

Lemma bandHeightLoop_bounds (lo hi : Q) (rest : list (Z * Q)) :
  ∀ (prev : Z * Q) (y : Z) (h : Q),
  (prev.1 ≤ y)%Z →
  StronglySorted (λ a b : Z * Q, (a.1 < b.1)%Z) (prev :: rest) →
  Forall (λ kf : Z * Q, (lo <= kf.2)%Q ∧ (kf.2 <= hi)%Q) (prev :: rest) →
  bandHeightLoop prev rest y = Some h → (lo <= h)%Q ∧ (h <= hi)%Q.
Proof.
  induction rest as [|next rest IH]; intros prev y h Hy Hs Hb; simpl; [done|].
  apply StronglySorted_inv in Hs as [Hs Hprev].
  apply Forall_cons in Hprev as [Hpn _].
  apply Forall_cons in Hb as [[Hp1 Hp2] Hb].
  pose proof Hb as Hb'. apply Forall_cons in Hb' as [[Hn1 Hn2] _].
  destruct (Z.leb_spec y next.1) as [Hle|Hgt].
  - intros [= <-].
    pose proof (Qdiv_inject_le 0 (y - prev.1) (next.1 - prev.1) ltac:(lia) ltac:(lia)) as H0.
    pose proof (Qdiv_inject_le (y - prev.1) (next.1 - prev.1) (next.1 - prev.1)
                  ltac:(lia) ltac:(lia)) as H1.
    rewrite Qdiv_inject_same in H1 by lia.
    unfold Qdiv in H0 at 1. rewrite Qmult_0_l in H0.
    set (t := (inject_Z (y - prev.1) / inject_Z (next.1 - prev.1))%Q) in *.
    split; nra.
  - apply IH; [lia|done|done].
Qed.

Lemma bandHeightLoop_keyframe (rest : list (Z * Q)) :
  ∀ (prev kf : Z * Q),
  StronglySorted (λ a b : Z * Q, (a.1 < b.1)%Z) (prev :: rest) →
  kf ∈ rest →
  ∃ h, bandHeightLoop prev rest kf.1 = Some h ∧ (h == kf.2)%Q.
Proof.
  induction rest as [|next rest IH]; intros prev kf Hs Hin;
    [by apply elem_of_nil in Hin|].
  apply StronglySorted_inv in Hs as [Hs Hprev].
  apply Forall_cons in Hprev as [Hpn Hprest].
  simpl. apply elem_of_cons in Hin as [->|Hin].
  - rewrite Z.leb_refl. eexists. split; [done|].
    rewrite Qdiv_inject_same by lia. ring.
  - apply StronglySorted_inv in Hs as Hs'. destruct Hs' as [_ Hnext].
    rewrite Forall_forall in Hnext. specialize (Hnext kf Hin). simpl in Hnext.
    destruct (Z.leb_spec kf.1 next.1) as [|_]; [lia|]. by apply IH.
Qed.

Lemma last_cons_default {A} (x d d' : A) (l : list A) :
  List.last (x :: l) d = List.last (x :: l) d'.
Proof.
  revert x. induction l as [|y l IH]; intros x; [done|].
  change (List.last (y :: l) d = List.last (y :: l) d'). apply IH.
Qed.

Lemma last_elem_of {A} (d : A) (l : list A) : List.last l d ∈ d :: l.
Proof.
  revert d. induction l as [|x l IH]; intros d; [left|].
  right. destruct l as [|y l']; [left|].
  change (List.last (y :: l') d ∈ x :: y :: l').
  rewrite (last_cons_default y d x). apply IH.
Qed.

Lemma sorted_le_last (first : Z * Q) (rest : list (Z * Q)) :
  StronglySorted (λ a b : Z * Q, (a.1 < b.1)%Z) (first :: rest) →
  ∀ kf, kf ∈ first :: rest → (kf.1 ≤ (List.last rest first).1)%Z.
Proof.
  revert first. induction rest as [|next rest IH]; intros first Hs kf Hkf.
  - apply list_elem_of_singleton in Hkf as ->. simpl. lia.
  - apply StronglySorted_inv in Hs as [Hs Hf].
    apply Forall_cons in Hf as [Hfn Hfrest].
    assert (List.last (next :: rest) first = List.last rest next) as ->.
    { destruct rest as [|r rest']; [done|].
      change (List.last (r :: rest') first = List.last (r :: rest') next).
      apply last_cons_default. }
    apply elem_of_cons in Hkf as [->|Hkf].
    + specialize (IH next Hs next ltac:(left)). lia.
    + by apply IH.
Qed.

Lemma bandHeightOf_bounds (first : Z * Q) (rest : list (Z * Q)) (lo hi : Q) (y : Z) :
  StronglySorted (λ a b : Z * Q, (a.1 < b.1)%Z) (first :: rest) →
  Forall (λ kf : Z * Q, (lo <= kf.2)%Q ∧ (kf.2 <= hi)%Q) (first :: rest) →
  (first.1 ≤ y)%Z →
  (lo <= bandHeightOf first rest y)%Q ∧ (bandHeightOf first rest y <= hi)%Q.
Proof.
  intros Hs Hb Hy. unfold bandHeightOf.
  assert ((lo <= first.2)%Q ∧ (first.2 <= hi)%Q) as Hf
    by (by apply Forall_cons in Hb as [? _]).
  assert ((lo <= (List.last rest first).2)%Q ∧ ((List.last rest first).2 <= hi)%Q) as Hl.
  { rewrite Forall_forall in Hb. apply Hb, last_elem_of. }
  destruct (Z.ltb_spec (List.last rest first).1 y); [done|].
  destruct (bandHeightLoop first rest y) as [h|] eqn:Hh; simpl; [|done].
  by apply (bandHeightLoop_bounds lo hi rest first y h).
Qed.

(** X3. The jitter height of a label, for any table of keyframes with
    ascending years: at a keyframe year it is that keyframe's height; from
    the first keyframe year on it stays between the smallest and largest
    heights of the table; after the last keyframe it is the last height.
    Before the first keyframe it is not clamped but extended along the first
    segment. *)
Theorem band_height_interpolates (first : Z * Q) (rest : list (Z * Q))
    (lo hi : Q) (y : Z) :
  StronglySorted (λ a b : Z * Q, (a.1 < b.1)%Z) (first :: rest) →
  Forall (λ kf : Z * Q, (lo <= kf.2)%Q ∧ (kf.2 <= hi)%Q) (first :: rest) →
  (∀ kf, kf ∈ first :: rest → rest ≠ [] → (bandHeightOf first rest kf.1 == kf.2)%Q)
  ∧ ((first.1 ≤ y)%Z →
     (lo <= bandHeightOf first rest y)%Q ∧ (bandHeightOf first rest y <= hi)%Q)
  ∧ (((List.last rest first).1 < y)%Z →
     bandHeightOf first rest y = (List.last rest first).2)
  ∧ (∀ next rest', rest = next :: rest' → (y < first.1)%Z →
     (bandHeightOf first rest y
      == first.2 + inject_Z (y - first.1) / inject_Z (next.1 - first.1)
                   * (next.2 - first.2))%Q).
Proof.
  intros Hs Hb.
  pose proof (sorted_le_last first rest Hs) as Hlast.
  split; [|split; [|split]].
  - intros kf Hkf Hne. unfold bandHeightOf.
    specialize (Hlast kf Hkf).
    destruct (Z.ltb_spec (List.last rest first).1 kf.1) as [|_]; [lia|].
    apply elem_of_cons in Hkf as [->|Hkf].
    + destruct rest as [|next rest']; [done|]. simpl.
      apply StronglySorted_inv in Hs as [_ Hf].
      apply Forall_cons in Hf as [Hfn _].
      destruct (Z.leb_spec first.1 next.1) as [_|]; [|lia].
      simpl. rewrite Z.sub_diag. unfold Qdiv. rewrite Qmult_0_l. ring.
    + destruct (bandHeightLoop_keyframe rest first kf Hs Hkf) as (h & -> & Hh).
      exact Hh.
  - intros Hy. by apply bandHeightOf_bounds.
  - intros Hy. unfold bandHeightOf.
    destruct (Z.ltb_spec (List.last rest first).1 y); [done|lia].
  - intros next rest' -> Hy. unfold bandHeightOf.
    specialize (Hlast first ltac:(left)).
    destruct (Z.ltb_spec (List.last (next :: rest') first).1 y) as [|_]; [lia|].
    simpl bandHeightLoop.
    apply StronglySorted_inv in Hs as [_ Hf].
    apply Forall_cons in Hf as [Hfn _].
    destruct (Z.leb_spec y next.1) as [_|]; [|lia]. simpl. reflexivity.
Qed.

Lemma labelBandHeightByYear_sorted :
  StronglySorted (λ a b : Z * Q, (a.1 < b.1)%Z) labelBandHeightByYear.
Proof.
  unfold labelBandHeightByYear, keyframe.
  repeat (apply SSorted_cons; [|repeat (constructor; [simpl; lia|]); constructor]).
  apply SSorted_nil.
Qed.

Lemma labelBandHeightByYear_range :
  Forall (λ kf : Z * Q, (5 <= kf.2)%Q ∧ (kf.2 <= 150)%Q) labelBandHeightByYear.
Proof.
  unfold labelBandHeightByYear, keyframe.
  repeat (constructor; [split; unfold Qle; simpl; lia|]). constructor.
Qed.

Lemma labelBandHeight_range (y : Z) :
  (1985 ≤ y)%Z → (5 <= labelBandHeight y)%Q ∧ (labelBandHeight y <= 150)%Q.
Proof.
  intros Hy.
  apply (bandHeightOf_bounds (keyframe 1985 5) (List.tl labelBandHeightByYear) 5 150 y
           labelBandHeightByYear_sorted labelBandHeightByYear_range).
  simpl. lia.
Qed.

Lemma band_height_interpolates_witness :
  (5 <= labelBandHeight 2000)%Q ∧ (labelBandHeight 2000 <= 150)%Q.
Proof.
  refine (proj1 (proj2 (band_height_interpolates (keyframe 1985 5)
            (List.tl labelBandHeightByYear) 5 150 2000
            labelBandHeightByYear_sorted labelBandHeightByYear_range)) _).
  simpl. lia.
Defined.

Lemma sorted_Z_lookup_le (l : list Z) (i j : nat) (x y : Z) :
  StronglySorted Z.le l → i ≤ j → l !! i = Some x → l !! j = Some y → (x ≤ y)%Z.
Proof.
  intros Hs. revert i j. induction Hs as [|z l Hs IH Hall]; intros i j Hij Hi Hj; [done|].
  destruct i as [|i], j as [|j]; simpl in *; try lia.
  - injection Hi as <-. injection Hj as <-. lia.
  - injection Hi as <-. rewrite Forall_forall in Hall.
    apply Hall. by eapply list_elem_of_lookup_2.
  - apply (IH i j); [lia|done|done].
Qed.

Lemma roundHalf_between (a b : Z) : (a ≤ b)%Z → (a ≤ roundHalf a b ≤ b)%Z.
Proof.
  intros H. unfold roundHalf. split.
  - apply Z.div_le_lower_bound; lia.
  - assert ((a + b + 1) / 2 < b + 1)%Z; [|lia].
    apply Z.div_lt_upper_bound; lia.
Qed.

(** X4. The median year of a label with at least one dated visible work
    lies between the earliest and the latest of those years, and with an
    odd number of works it is one of them; with no dated work the label is
    placed at the first year of the arc. *)
Theorem median_year_between (arcYears yearsArr : list Z) :
  StronglySorted Z.le yearsArr →
  (yearsArr ≠ [] →
   ∃ m lo hi, medianYear arcYears yearsArr = Some m
              ∧ head yearsArr = Some lo ∧ last yearsArr = Some hi
              ∧ (lo ≤ m ≤ hi)%Z
              ∧ (Nat.Odd (length yearsArr) → m ∈ yearsArr))
  ∧ (yearsArr = [] → medianYear arcYears yearsArr = head arcYears).
Proof.
  intros Hs. split; [|by intros ->].
  intros Hne. unfold medianYear.
  assert (0 < length yearsArr) as Hlen by (destruct yearsArr; [done|simpl; lia]).
  destruct (Nat.ltb_spec 0 (length yearsArr)) as [_|]; [|lia].
  destruct (head yearsArr) as [lo|] eqn:Hlo; [|by destruct yearsArr].
  destruct (last yearsArr) as [hi|] eqn:Hhi; [|by apply last_None in Hhi].
  assert (yearsArr !! 0 = Some lo) as Hlo' by (by destruct yearsArr).
  assert (yearsArr !! (length yearsArr - 1) = Some hi) as Hhi'.
  { rewrite last_lookup in Hhi. by replace (length yearsArr - 1) with
      (Nat.pred (length yearsArr)) by lia. }
  pose proof (Nat.div_mod_eq (length yearsArr) 2) as Hdm.
  pose proof (Nat.mod_upper_bound (length yearsArr) 2 ltac:(lia)) as Hmod.
  set (mid := length yearsArr / 2) in *.
  destruct (Nat.eqb_spec (length yearsArr mod 2) 0) as [Heven|Hodd].
  - assert (mid - 1 < length yearsArr) as H1 by lia.
    assert (mid < length yearsArr) as H2 by lia.
    destruct (lookup_lt_is_Some_2 yearsArr _ H1) as [a Ha].
    destruct (lookup_lt_is_Some_2 yearsArr _ H2) as [b Hb].
    rewrite Ha, Hb. simpl. exists (roundHalf a b), lo, hi.
    pose proof (sorted_Z_lookup_le yearsArr 0 (mid - 1) lo a Hs ltac:(lia) Hlo' Ha).
    pose proof (sorted_Z_lookup_le _ (mid - 1) mid _ _ Hs ltac:(lia) Ha Hb).
    pose proof (sorted_Z_lookup_le _ mid (length yearsArr - 1) _ _ Hs ltac:(lia) Hb Hhi').
    pose proof (roundHalf_between a b ltac:(lia)).
    split; [done|]. split; [done|]. split; [done|]. split; [lia|].
    intros [k Hk]. lia.
  - assert (mid < length yearsArr) as H2 by lia.
    destruct (lookup_lt_is_Some_2 yearsArr _ H2) as [b Hb].
    rewrite Hb. exists b, lo, hi.
    pose proof (sorted_Z_lookup_le yearsArr 0 mid lo b Hs ltac:(lia) Hlo' Hb).
    pose proof (sorted_Z_lookup_le _ mid (length yearsArr - 1) _ _ Hs ltac:(lia) Hb Hhi').
    split; [done|]. split; [done|]. split; [done|]. split; [lia|].
    intros _. by eapply list_elem_of_lookup_2.
Qed.

Lemma median_year_between_witness :
  ∃ m lo hi, medianYear [1990; 2000]%Z [2000; 2005; 2010; 2020]%Z = Some m
             ∧ head [2000; 2005; 2010; 2020]%Z = Some lo
             ∧ last [2000; 2005; 2010; 2020]%Z = Some hi
             ∧ (lo ≤ m ≤ hi)%Z
             ∧ (Nat.Odd (length [2000; 2005; 2010; 2020]%Z)
                → m ∈ [2000; 2005; 2010; 2020]%Z).
Proof.
  refine (proj1 (median_year_between [1990; 2000]%Z [2000; 2005; 2010; 2020]%Z _) _).
  - repeat (constructor; [|repeat (constructor; [lia|]); constructor]). constructor.
  - discriminate.
Defined.

Lemma labelYearsArr_sorted (data : list Node) (visible : gset Z) (label : Node) :
  StronglySorted Z.le (labelYearsArr data visible label).
Proof. unfold labelYearsArr. apply (StronglySorted_merge_sort Z.le). Qed.

(** *** Work placement *)

Lemma filter_partition_perm {A} (f : A → bool) (l : list A) :
  List.filter f l ++ List.filter (λ x, negb (f x)) l ≡ₚ l.
Proof.
  induction l as [|x l IH]; simpl; [done|].
  destruct (f x); simpl.
  - by rewrite IH.
  - rewrite <- Permutation_middle. by rewrite IH.
Qed.

Lemma filter_and {A} (f g : A → bool) (l : list A) :
  List.filter (λ x, f x && g x) l = List.filter g (List.filter f l).
Proof.
  induction l as [|x l IH]; simpl; [done|].
  destruct (f x); simpl; [|done]. destruct (g x); by rewrite IH.
Qed.

Lemma filter_songs_albums (l : list Node) :
  forallb isArtwork l = true →
  List.filter (isType Song) l ++ List.filter (isType Album) l ≡ₚ l.
Proof.
  intros Hall.
  assert (List.filter (isType Album) l
          = List.filter (λ x, negb (isType Song x)) l) as ->.
  { apply filter_ext_in. intros d Hd.
    rewrite forallb_forall in Hall. specialize (Hall d Hd).
    unfold isArtwork, isType in *. destruct (node_type d); done. }
  apply filter_partition_perm.
Qed.

Lemma dots_perm (notable : Node → bool) (bar : list Node) :
  forallb isArtwork bar = true → map fst (dots notable bar) ≡ₚ bar.
Proof.
  intros Hall. unfold dots. rewrite !map_app, !map_map. simpl. rewrite !map_id.
  rewrite !filter_and.
  rewrite app_assoc.
  rewrite (filter_partition_perm notable (List.filter (isType Song) bar)).
  rewrite (filter_partition_perm notable (List.filter (isType Album) bar)).
  by apply filter_songs_albums.
Qed.

Lemma forallb_List_filter {A} (p f : A → bool) (l : list A) :
  forallb p l = true → forallb p (List.filter f l) = true.
Proof.
  rewrite !forallb_forall. intros H x [Hx _]%filter_In. by apply H.
Qed.

(** X5. On the bar of a year and a genre every work that passes the filters
    and has that year and genre gets exactly one dot: the stacking order
    (notable songs, songs, notable albums, albums) is a rearrangement of the
    works of the bar, songs are drawn with base radius 0.7 and albums with
    1. *)
Theorem dots_are_a_rearrangement (notable : Node → bool) (data : list Node)
    (selG inflG : gset string) (a l : option Z) (year : Z) (g : string) :
  let bar := genreData (yearData (filteredNodes data selG inflG a l) year) g in
  map fst (dots notable bar) ≡ₚ bar
  ∧ length (dots notable bar) = length bar
  ∧ (∀ w, w ∈ bar ↔ w ∈ filteredNodes data selG inflG a l
                     ∧ release_date w = Some year ∧ genre w = Some g)
  ∧ (∀ d, d ∈ dots notable bar →
       (node_type d.1 = Song ∧ d.2 = (7 # 10)%Q)
       ∨ (node_type d.1 = Album ∧ d.2 = 1%Q)).
Proof.
  intros bar.
  assert (forallb isArtwork bar = true) as Hall.
  { unfold bar, genreData, yearData.
    do 2 apply forallb_List_filter. apply filteredNodes_artworks. }
  pose proof (dots_perm notable bar Hall) as Hp.
  split; [exact Hp|]. split.
  { rewrite <- (length_map fst). by apply Permutation_length. }
  split.
  - intros w. unfold bar, genreData, yearData.
    rewrite !elem_of_List_filter, !bool_decide_eq_true. tauto.
  - intros d. unfold dots. rewrite !elem_of_app, !list_elem_of_In, !in_map_iff.
    intros [H|[H|[H|H]]]; destruct H as (w & <- & Hw);
      apply filter_In in Hw as [_ Hw]; apply andb_true_iff in Hw as [Ht _];
      apply bool_decide_eq_true in Ht; cbn; tauto.
Qed.

Lemma stackDots_length (base off : Q) (radii : list Q) :
  length (stackDots base off radii) = length radii.
Proof. revert off. induction radii as [|r l IH]; intros off; simpl; [done|]. by rewrite IH. Qed.

(** X6. Along a bar the dots never overlap: the first centre is 2 plus its
    radius above the foot of the bar, and two consecutive centres are apart
    by the sum of the two radii plus a gap of one half. *)
Theorem stacked_dots_do_not_overlap (base : Q) (radii : list Q) (i : nat)
    (r1 r2 d1 d2 : Q) :
  radii !! i = Some r1 → radii !! S i = Some r2 →
  stackDots base 2 radii !! i = Some d1 →
  stackDots base 2 radii !! S i = Some d2 →
  (d2 - d1 == r1 + r2 + (1 # 2))%Q
  ∧ (d1 + r1 < d2 - r2)%Q
  ∧ (∀ r0 d0, radii !! 0%nat = Some r0 → stackDots base 2 radii !! 0%nat = Some d0 →
       d0 == base + 2 + r0)%Q
  ∧ (∀ st notable bar d, d ∈ dots notable bar →
       (0 < dotRadius st d.2)%Q ∧ (d.2 <= dotRadius st d.2)%Q
       ∧ (dotRadius st d.2 <= 4)%Q).
Proof.
  intros Hr1 Hr2 Hd1 Hd2.
  assert (d2 - d1 == r1 + r2 + (1 # 2))%Q as Hgap; [|split; [exact Hgap|split; [lra|]]].
  - revert Hr1 Hr2 Hd1 Hd2. generalize 2%Q as off. revert i.
    induction radii as [|r radii IH]; intros i off Hr1 Hr2 Hd1 Hd2; [done|].
    destruct i as [|i].
    + simpl in *. injection Hr1 as <-. injection Hd1 as <-.
      destruct radii as [|r' radii']; [done|]. simpl in *.
      injection Hr2 as <-. injection Hd2 as <-. ring.
    + simpl in *. by eapply IH.
  - split.
    + intros r0 d0 H0 H0'. destruct radii as [|r radii']; [done|].
      simpl in *. injection H0 as <-. injection H0' as <-. ring.
    + intros st notable bar d Hd.
      assert (d.2 = (7 # 10)%Q ∨ d.2 = 1%Q) as Hr.
      { unfold dots in Hd. rewrite !elem_of_app, !list_elem_of_In, !in_map_iff in Hd.
        destruct Hd as [H|[H|[H|H]]]; destruct H as (w & <- & _); cbn; tauto. }
      unfold dotRadius.
      destruct (personFilterActive st), (filterActivePart st), Hr as [-> | ->];
        repeat split; lra.
Qed.

Lemma stacked_dots_do_not_overlap_witness :
  (default 0 (stackDots 1522 2 [7 # 10; 7 # 10; 1%Q] !! 2%nat)
   - default 0 (stackDots 1522 2 [7 # 10; 7 # 10; 1%Q] !! 1%nat)
   == (7 # 10) + 1 + (1 # 2))%Q.
Proof.
  exact (proj1 (stacked_dots_do_not_overlap 1522 [7 # 10; 7 # 10; 1%Q] 1 (7 # 10) 1 _ _
                  eq_refl eq_refl eq_refl eq_refl)).
Defined.

(** *** The id lookup *)

Lemma nodeById_snoc (data : list Node) (n : Node) :
  nodeById (data ++ [n]) = <[id n := n]> (nodeById data).
Proof. unfold nodeById. by rewrite foldl_app. Qed.

Lemma last_filter_snoc {A} (f : A → bool) (l : list A) (x : A) :
  last (List.filter f (l ++ [x]))
  = if f x then Some x else last (List.filter f l).
Proof.
  rewrite List.filter_app. simpl. destruct (f x).
  - apply last_snoc.
  - by rewrite app_nil_r.
Qed.

Lemma nodeById_last (data : list Node) (i : Z) :
  nodeById data !! i = last (List.filter (λ n, (id n =? i)%Z) data).
Proof.
  induction data as [|n data IH] using rev_ind; [done|].
  rewrite nodeById_snoc, last_filter_snoc.
  destruct (Z.eqb_spec (id n) i) as [->|Hne].
  - apply lookup_insert_eq.
  - by rewrite lookup_insert_ne.
Qed.


(** X7. The id lookup returns, for every id, the last node of the dataset
    that carries it: a hit is a node of the dataset with the requested id, a
    miss means that no node has the id, and with duplicate ids the later
    node hides the earlier ones. *)
Theorem nodeById_returns_last_node_with_id (data : list Node) (i : Z) :
  nodeById data !! i = last (List.filter (λ n, (id n =? i)%Z) data)
  ∧ (∀ n, nodeById data !! i = Some n → n ∈ data ∧ id n = i)
  ∧ (nodeById data !! i = None ↔ ∀ n, n ∈ data → id n ≠ i)
  ∧ (∀ l1 n l2, data = l1 ++ n :: l2 → id n = i →
       (∀ m, m ∈ l2 → id m ≠ i) → nodeById data !! i = Some n).
Proof.
  split; [apply nodeById_last|]. rewrite nodeById_last. split; [|split].
  - intros n Hl. apply last_Some_elem_of in Hl.
    apply list_elem_of_In, filter_In in Hl as [Hin Hid].
    split; [by apply list_elem_of_In|by apply Z.eqb_eq].
  - rewrite last_None. split.
    + intros Hnil n Hin Hid.
      assert (In n (List.filter (λ n, (id n =? i)%Z) data)) as H.
      { apply filter_In. split; [by apply list_elem_of_In|by apply Z.eqb_eq]. }
      rewrite Hnil in H. destruct H.
    + intros Hno. destruct (List.filter _ data) as [|n l] eqn:Hf; [done|].
      assert (In n (List.filter (λ n, (id n =? i)%Z) data)) as H
        by (rewrite Hf; by left).
      apply filter_In in H as [Hin Hid].
      exfalso. apply (Hno n); [by apply list_elem_of_In|by apply Z.eqb_eq].
  - intros l1 n l2 -> Hid Hl2.
    rewrite List.filter_app. simpl. rewrite (proj2 (Z.eqb_eq _ _) Hid).
    assert (List.filter (λ n, (id n =? i)%Z) l2 = []) as ->.
    { induction l2 as [|m l2 IH]; [done|]. simpl.
      destruct (Z.eqb_spec (id m) i) as [He|_].
      - exfalso. apply (Hl2 m); [left|done].
      - apply IH. intros m' Hm'. apply Hl2. by right. }
    apply last_snoc.
Qed.

(** *** The filter pipeline *)

(** X8. Every filter only removes works: the filtered list is the dataset's
    songs and albums in their original order with some left out, and a label
    or contributor selection (resolved or not) never shows a work that the
    genre filters alone would hide. *)
Theorem filteredNodes_only_removes (data : list Node) (selG inflG : gset string)
    (a l : option Z) :
  sublist (filteredNodes data selG inflG a l)
          (filteredNodes data selG inflG None None)
  ∧ sublist (filteredNodes data selG inflG None None)
            (filteredNodes data selG ∅ None None)
  ∧ sublist (filteredNodes data selG ∅ None None) (nodes data)
  ∧ sublist (nodes data) data
  ∧ forallb isArtwork (filteredNodes data selG inflG a l) = true.
Proof.
  assert (sublist (filteredNodes data selG inflG a l)
            (filteredNodes data selG inflG None None)) as H1.
  { rewrite !filteredNodes_stages. apply selectionStage_sublist. }
  assert (sublist (filteredNodes data selG inflG None None)
            (filteredNodes data selG ∅ None None)) as H2.
  { rewrite !filteredNodes_stages. unfold selectionStage, selected.
    rewrite size_empty.
    destruct (bool_decide (0 < size inflG)); [|done].
    rewrite bool_decide_eq_false_2 by lia. apply sublist_List_filter. }
  assert (sublist (filteredNodes data selG ∅ None None) (nodes data)) as H3.
  { rewrite !filteredNodes_stages. unfold selectionStage, selected.
    rewrite size_empty.
    rewrite bool_decide_eq_false_2 by lia. apply sublist_List_filter. }
  repeat split; try done; [apply sublist_List_filter|].
  apply filteredNodes_artworks.
Qed.

Lemma hasGenre_mono (s s' : gset string) (g : option string) :
  s ⊆ s' → hasGenre s g = true → hasGenre s' g = true.
Proof.
  intros Hsub. destruct g as [x|]; simpl; [|done].
  rewrite !bool_decide_eq_true. apply Hsub.
Qed.

Lemma influenceGenreNodeIds_mono (data : list Node) (s s' : gset string) :
  s ⊆ s' → influenceGenreNodeIds data s ⊆ influenceGenreNodeIds data s'.
Proof.
  intros Hsub i. unfold influenceGenreNodeIds.
  rewrite !elem_of_list_to_set, !list_elem_of_In, !in_map_iff.
  intros (n & Hid & Hn). exists n. split; [done|].
  apply filter_In in Hn as [Hin Hg]. apply filter_In. split; [done|].
  by eapply hasGenre_mono.
Qed.

Lemma influencePass_mono (ids ids' : gset Z) (n : Node) :
  ids ⊆ ids' → influencePass ids n = true → influencePass ids' n = true.
Proof.
  intros Hsub. unfold influencePass. destruct (influencedBy n) as [c|]; [|done].
  rewrite !existsb_exists. intros (i & Hin & Hi). exists i. split; [done|].
  apply bool_decide_eq_true in Hi. apply bool_decide_eq_true. by apply Hsub.
Qed.

(** X9. Widening a non-empty genre selection, or a non-empty influence
    genre selection, never hides a work.  (The precondition matters: from
    the empty selection, which shows everything, adding a genre narrows.) *)
Theorem filteredNodes_monotone_in_genres (data : list Node)
    (selG selG' inflG inflG' : gset string) (a l : option Z) :
  selG ⊆ selG' → inflG ⊆ inflG' → size selG ≠ 0 → size inflG ≠ 0 →
  sublist (filteredNodes data selG inflG a l)
          (filteredNodes data selG' inflG' a l).
Proof.
  intros Hs Hi Hs0 Hi0.
  assert (size inflG ≤ size inflG') by by apply subseteq_size.
  rewrite !filteredNodes_stages.
  rewrite !bool_decide_eq_true_2 by lia.
  rewrite !selectionStage_filter.
  etrans.
  - apply filter_filter_impl. intros n.
    apply influencePass_mono, influenceGenreNodeIds_mono, Hi.
  - apply sublist_List_filter_mono.
    apply filter_filter_impl. intros n. unfold genrePass.
    rewrite (bool_decide_eq_false_2 (size selG = 0)) by done. simpl.
    intros Hg. apply orb_true_iff. right. by eapply hasGenre_mono.
Qed.

Lemma filteredNodes_monotone_in_genres_witness :
  sublist (filteredNodes scenario {["Indie Pop"%string]} {["Oceanus Folk"%string]} None None)
          (filteredNodes scenario allGenres allGenres None None).
Proof.
  apply filteredNodes_monotone_in_genres.
  - apply (bool_decide_unpack _). vm_compute. reflexivity.
  - apply (bool_decide_unpack _). vm_compute. reflexivity.
  - vm_compute. discriminate.
  - vm_compute. discriminate.
Defined.

(** *** Visible contributors and labels *)

Lemma filter_false_nil {A} (f : A → bool) (l : list A) :
  (∀ x, f x = false) → List.filter f l = [].
Proof.
  intros Hf. induction l as [|x l IH]; simpl; [done|]. by rewrite Hf.
Qed.

Lemma existsb_false {A} (f : A → bool) (l : list A) :
  (∀ x, f x = false) → existsb f l = false.
Proof. intros Hf. induction l as [|x l IH]; simpl; [done|]. by rewrite Hf. Qed.

Lemma visibleSongAlbumIds_elem (filtered : list Node) (i : Z) :
  i ∈ visibleSongAlbumIds filtered ↔ ∃ w, w ∈ filtered ∧ id w = i.
Proof.
  unfold visibleSongAlbumIds. rewrite elem_of_list_to_set, list_elem_of_In, in_map_iff.
  split; intros (w & H1 & H2); exists w; split; try done; by apply list_elem_of_In.
Qed.

Lemma contributesToVisible_iff (filtered : list Node) (p : Node) :
  contributesToVisible (visibleSongAlbumIds filtered) p = true
  ↔ ∃ c w, contributedTo p = Some c ∧ id w ∈ c ∧ w ∈ filtered.
Proof.
  unfold contributesToVisible. destruct (contributedTo p) as [c|].
  - rewrite existsb_exists. split.
    + intros (i & Hin & Hi). apply bool_decide_eq_true in Hi.
      apply visibleSongAlbumIds_elem in Hi as (w & Hw & <-).
      exists c, w. split; [done|]. split; [by apply list_elem_of_In|done].
    + intros (c' & w & [= <-] & Hin & Hw). exists (id w).
      split; [by apply list_elem_of_In|]. apply bool_decide_eq_true.
      apply visibleSongAlbumIds_elem. by exists w.
  - split; [done|]. by intros (c & w & ? & _).
Qed.

Lemma hasSelectedRole_iff (sr : gset string) (p : Node) :
  hasSelectedRole sr p = true ↔ ∃ rs r, roles p = Some rs ∧ r ∈ rs ∧ r ∈ sr.
Proof.
  unfold hasSelectedRole. destruct (roles p) as [rs|].
  - rewrite existsb_exists. split.
    + intros (r & Hin & Hr). apply bool_decide_eq_true in Hr.
      exists rs, r. split; [done|]. split; [by apply list_elem_of_In|done].
    + intros (rs' & r & [= <-] & Hin & Hr). exists r.
      split; [by apply list_elem_of_In|by apply bool_decide_eq_true].
  - split; [done|]. by intros (rs & r & ? & _).
Qed.

Lemma artistNodes_elem (data filtered : list Node) (sr : gset string) (n : Node) :
  n ∈ artistNodes data (visibleSongAlbumIds filtered) sr
  ↔ n ∈ data
    ∧ (node_type n = Person ∨ node_type n = MusicalGroup)
    ∧ (∃ c w, contributedTo n = Some c ∧ id w ∈ c ∧ w ∈ filtered)
    ∧ (∃ rs r, roles n = Some rs ∧ r ∈ rs ∧ r ∈ sr).
Proof.
  unfold artistNodes, visiblePeople, visibleGroups, people, groups.
  rewrite elem_of_app, !list_elem_of_In, !filter_In.
  rewrite !bool_decide_eq_true, !contributesToVisible_iff, !hasSelectedRole_iff.
  tauto.
Qed.

(** X10. A contributor is drawn exactly when it is a person or a musical
    group of the dataset, it contributed to at least one work that passes
    the filters, and it holds at least one of the selected roles.  A
    contributor without a [contributedTo] or [roles] array is never drawn,
    and the people come before the groups. *)
Theorem contributor_drawn_iff (data filtered : list Node) (sr : gset string) :
  (∀ n, n ∈ artistNodes data (visibleSongAlbumIds filtered) sr
        ↔ n ∈ data
          ∧ (node_type n = Person ∨ node_type n = MusicalGroup)
          ∧ (∃ c w, contributedTo n = Some c ∧ id w ∈ c ∧ w ∈ filtered)
          ∧ (∃ rs r, roles n = Some rs ∧ r ∈ rs ∧ r ∈ sr))
  ∧ (∀ n, n ∈ artistNodes data (visibleSongAlbumIds filtered) sr →
          contributedTo n ≠ None ∧ roles n ≠ None)
  ∧ (∃ ps gs, artistNodes data (visibleSongAlbumIds filtered) sr = ps ++ gs
              ∧ Forall (λ n, node_type n = Person) ps
              ∧ Forall (λ n, node_type n = MusicalGroup) gs
              ∧ sublist ps data ∧ sublist gs data).
Proof.
  split; [apply artistNodes_elem|]. split.
  - intros n (_ & _ & (c & w & -> & _) & (rs & r & -> & _))%artistNodes_elem. done.
  - eexists _, _. split; [reflexivity|].
    unfold visiblePeople, visibleGroups, people, groups.
    repeat split.
    + apply Forall_forall. intros n Hn.
      do 2 apply elem_of_List_filter in Hn as [Hn _].
      apply elem_of_List_filter in Hn as [_ Hn]. by apply bool_decide_eq_true in Hn.
    + apply Forall_forall. intros n Hn.
      do 2 apply elem_of_List_filter in Hn as [Hn _].
      apply elem_of_List_filter in Hn as [_ Hn]. by apply bool_decide_eq_true in Hn.
    + etrans; [apply sublist_List_filter|]. etrans; apply sublist_List_filter.
    + etrans; [apply sublist_List_filter|]. etrans; apply sublist_List_filter.
Qed.

(** X11. With no visible work, no contributor and no label is drawn; with no
    role selected, no contributor is drawn. *)
Theorem nothing_visible_nothing_drawn (data : list Node) (visible : gset Z)
    (sr : gset string) :
  artistNodes data (visibleSongAlbumIds []) sr = []
  ∧ visibleLabels data (visibleSongAlbumIds []) = []
  ∧ artistNodes data visible ∅ = [].
Proof.
  assert (∀ l : list Z,
    existsb (λ i, bool_decide (i ∈ visibleSongAlbumIds [])) l = false) as Hno.
  { intros l. apply existsb_false. intros i. apply bool_decide_eq_false_2.
    unfold visibleSongAlbumIds. simpl. apply not_elem_of_empty. }
  repeat split.
  - unfold artistNodes, visiblePeople, visibleGroups.
    rewrite !(filter_false_nil (contributesToVisible (visibleSongAlbumIds []))); [done| |].
    all: intros p; unfold contributesToVisible; destruct (contributedTo p); [apply Hno|done].
  - unfold visibleLabels. apply filter_false_nil. intros l. apply Hno.
  - unfold artistNodes.
    rewrite !(filter_false_nil (hasSelectedRole ∅)); [done| |].
    all: intros p; unfold hasSelectedRole; destruct (roles p); [|done].
    all: apply existsb_false; intros r; apply bool_decide_eq_false_2, not_elem_of_empty.
Qed.

(** *** Selection toggles *)

(** X12. Toggling a genre (or role) flips the membership of that one entry
    and of no other, so toggling twice restores the selection. *)
Theorem toggle_flips_one_entry (g : string) (s : gset string) :
  toggle g (toggle g s) = s
  ∧ (g ∈ toggle g s ↔ g ∉ s)
  ∧ (∀ x, x ≠ g → (x ∈ toggle g s ↔ x ∈ s)).
Proof.
  assert (g ∈ toggle g s ↔ g ∉ s) as Hflip.
  { unfold toggle. destruct (decide (g ∈ s)) as [Hin|Hnin].
    - rewrite bool_decide_eq_true_2 by done.
      rewrite elem_of_difference, elem_of_singleton. tauto.
    - rewrite bool_decide_eq_false_2 by done.
      rewrite elem_of_union, elem_of_singleton. tauto. }
  assert (∀ x, x ≠ g → (x ∈ toggle g s ↔ x ∈ s)) as Hother.
  { intros x Hx. unfold toggle. destruct (bool_decide (g ∈ s)).
    - rewrite elem_of_difference, elem_of_singleton. tauto.
    - rewrite elem_of_union, elem_of_singleton. tauto. }
  split; [|split; [exact Hflip|exact Hother]].
  apply set_eq. intros x. destruct (decide (x = g)) as [->|Hx].
  - unfold toggle at 1. destruct (decide (g ∈ toggle g s)) as [Hin|Hnin].
    + rewrite bool_decide_eq_true_2 by done.
      rewrite elem_of_difference, elem_of_singleton. tauto.
    + rewrite bool_decide_eq_false_2 by done.
      rewrite elem_of_union, elem_of_singleton.
      destruct (decide (g ∈ s)); tauto.
  - unfold toggle at 1. destruct (bool_decide (g ∈ toggle g s)).
    + rewrite elem_of_difference, elem_of_singleton. rewrite Hother by done. tauto.
    + rewrite elem_of_union, elem_of_singleton. rewrite Hother by done. tauto.
Qed.

Lemma selectAll_cases (all : list string) (s : gset string) :
  NoDup all → s ⊆ list_to_set all →
  selectAll all s = if decide (s = list_to_set all) then ∅ else list_to_set all.
Proof.
  intros Hnd Hsub. unfold selectAll.
  assert (size (list_to_set all : gset string) = length all) as Hsz
    by by apply size_list_to_set.
  destruct (decide (s = list_to_set all)) as [->|Hne].
  - by rewrite bool_decide_eq_true_2.
  - rewrite bool_decide_eq_false_2; [done|].
    intros Heq. apply Hne.
    apply set_subseteq_size_eq; [done|lia].
Qed.

Lemma reachable_roles (data : list Node) (st : State) :
  reachable data st → selectedRoles st ⊆ list_to_set ARTIST_ROLES.
Proof.
  intros Hr. induction Hr as [|st ev Hr IH Hen]; [done|].
  destruct st as [sg ig sr a l w h z].
  destruct ev; cbn [handle selectedRoles enabled] in *; try assumption.
  - apply toggle_subseteq; [|done].
    apply bool_decide_eq_true in Hen. by apply elem_of_list_to_set.
  - apply selectAll_subseteq.
Qed.

Lemma NoDup_FLAT_GENRES : NoDup FLAT_GENRES.
Proof. apply (bool_decide_unpack _). vm_compute. reflexivity. Qed.

Lemma NoDup_ARTIST_ROLES : NoDup ARTIST_ROLES.
Proof. apply (bool_decide_unpack _). vm_compute. reflexivity. Qed.

(** X13. In every reachable state the three (select all) buttons switch
    between the full vocabulary and the empty selection: they clear a full
    selection, and fill any other one. *)
Theorem select_all_clears_or_fills (data : list Node) (st : State) :
  reachable data st →
  selectedGenres (handle st HandleSelectAll)
    = (if decide (selectedGenres st = allGenres) then ∅ else allGenres)
  ∧ influenceGenres (handle st HandleInfluenceSelectAll)
    = (if decide (influenceGenres st = allGenres) then ∅ else allGenres)
  ∧ selectedRoles (handle st HandleRoleSelectAll)
    = (if decide (selectedRoles st = list_to_set ARTIST_ROLES) then ∅
       else list_to_set ARTIST_ROLES).
Proof.
  intros Hr. destruct (reachable_vocabulary data st Hr) as [Hg Hi].
  pose proof (reachable_roles data st Hr) as Hro.
  destruct st as [sg ig sr a l w h z];
    cbn [handle selectedGenres influenceGenres selectedRoles] in *.
  repeat split.
  - apply (selectAll_cases FLAT_GENRES sg NoDup_FLAT_GENRES Hg).
  - apply (selectAll_cases FLAT_GENRES ig NoDup_FLAT_GENRES Hi).
  - apply (selectAll_cases ARTIST_ROLES sr NoDup_ARTIST_ROLES Hro).
Qed.

Lemma select_all_clears_or_fills_witness :
  selectedGenres (handle initState HandleSelectAll) = ∅
  ∧ influenceGenres (handle initState HandleInfluenceSelectAll) = allGenres.
Proof.
  pose proof (select_all_clears_or_fills scenario initState (reachable_init scenario))
    as (H1 & H2 & _).
  split; [exact H1|exact H2].
Defined.

Lemma hasId_elem (i : Z) (l : list Node) :
  hasId i l = true → ∃ n, n ∈ l ∧ id n = i.
Proof.
  unfold hasId. rewrite existsb_exists. intros (n & Hin & Hid).
  exists n. split; [by apply list_elem_of_In|by apply Z.eqb_eq].
Qed.

(** X14. Selections always point at nodes of the dataset: in every
    reachable state a selected label is a record label, a selected
    contributor is a person or a musical group that has a role, and a
    selected or hovered dot is a node of the dataset (a song or an album
    above the timeline; below it any node that an influence list names). *)
Theorem selections_refer_to_nodes (data : list Node) (st : State) :
  reachable data st →
  (∀ i, selectedLabelId st = Some i →
     ∃ n, n ∈ data ∧ id n = i ∧ node_type n = RecordLabel)
  ∧ (∀ i, selectedArtistId st = Some i →
       ∃ n, n ∈ data ∧ id n = i
            ∧ (node_type n = Person ∨ node_type n = MusicalGroup)
            ∧ is_Some (roles n))
  ∧ (∀ i, selectedArtworkId st = Some i → ∃ n, n ∈ data ∧ id n = i)
  ∧ (∀ i, hoveredArtworkId st = Some i → ∃ n, n ∈ data ∧ id n = i).
Proof.
  intros Hr.
  induction Hr as [|st ev Hr (IHl & IHa & IHw & IHh) Hen]; [by repeat split|].
  assert (∀ st' i, hasId i (artistNodesOf data st') = true →
    ∃ n, n ∈ data ∧ id n = i
         ∧ (node_type n = Person ∨ node_type n = MusicalGroup)
         ∧ is_Some (roles n)) as Hart.
  { intros st' i Hid. apply hasId_elem in Hid as (n & Hn & Hi).
    apply artistNodes_elem in Hn as (Hd & Ht & _ & (rs & r & Hrs & _)).
    exists n. split; [done|]. split; [done|]. split; [done|]. by exists rs. }
  destruct st as [sg ig sr a l w h z]; simpl in *.
  destruct ev; simpl in *; repeat split; try assumption; try done.
  - intros i. unfold toggleSel. case_bool_decide; [done|]. intros [= <-].
    apply hasId_elem in Hen as (n & Hn & Hi).
    apply elem_of_List_filter in Hn as [Hn _].
    apply elem_of_List_filter in Hn as [Hn Ht].
    apply bool_decide_eq_true in Ht. by exists n.
  - intros i. unfold toggleSel. case_bool_decide; [done|]. intros [= <-].
    apply andb_true_iff in Hen as [_ Hen]. by eapply Hart.
  - intros i [= <-].
    unfold hasId in Hen. apply existsb_exists in Hen as (n & Hin & Hid).
    apply filter_In in Hin as [Hin _].
    apply (Hart (mkState sg ig sr a l w h z)).
    unfold hasId. apply existsb_exists. by exists n.
  - intros i. unfold toggleSel. case_bool_decide; [done|]. intros [= <-].
    by apply hasId_elem.
  - intros i [= <-]. by apply hasId_elem.
Qed.

Lemma selections_refer_to_nodes_witness :
  ∃ n, n ∈ scenario ∧ id n = 20%Z ∧ node_type n = RecordLabel.
Proof.
  refine (proj1 (selections_refer_to_nodes scenario
            (handle initState (ClickLabel 20)) _) 20%Z eq_refl).
  apply reachable_step; [apply reachable_init|]. vm_compute. reflexivity.
Defined.

(** *** Responsive sizes *)

Lemma Qle_bool_false (a b : Q) : Qle_bool a b = false → (b < a)%Q.
Proof.
  intros H. apply Qnot_le_lt. intros Hle. apply Qle_bool_iff in Hle. congruence.
Qed.

Ltac qcases :=
  repeat match goal with
  | |- context [Qle_bool ?a ?b] =>
      lazymatch a with context [Qle_bool _ _] => fail | _ => idtac end;
      lazymatch b with context [Qle_bool _ _] => fail | _ => idtac end;
      let H := fresh "Hq" in
      destruct (Qle_bool a b) eqn:H;
      [apply Qle_bool_iff in H | apply Qle_bool_false in H];
      cbn [negb]
  end.

Lemma qmax_lub (a b c : Q) : (a <= c → b <= c → qmax a b <= c)%Q.
Proof. unfold qmax. intros. by destruct (Qle_bool a b). Qed.

Lemma qmax_ge_l (a b : Q) : (a <= qmax a b)%Q.
Proof. unfold qmax. qcases; lra. Qed.

Lemma qmax_ge_r (a b : Q) : (b <= qmax a b)%Q.
Proof. unfold qmax. qcases; lra. Qed.

Lemma qmin_glb (a b c : Q) : (c <= a → c <= b → c <= qmin a b)%Q.
Proof. unfold qmin. intros. by destruct (Qle_bool a b). Qed.

Lemma clamp_mono (lo hi x y : Q) :
  (x <= y → qmax lo (qmin hi x) <= qmax lo (qmin hi y))%Q.
Proof. intros Hxy. unfold qmax, qmin. qcases; lra. Qed.

Lemma clamp_bounds (lo hi x : Q) :
  (lo <= hi → lo <= qmax lo (qmin hi x) <= hi)%Q.
Proof. intros Hlh. unfold qmax, qmin. qcases; split; lra. Qed.

Lemma maxFontSize_bounds (w : Q) : (6 <= maxFontSize w <= 12)%Q.
Proof. unfold maxFontSize. qcases; split; lra. Qed.

Lemma maxFontSize_mono (w w' : Q) : (w <= w' → maxFontSize w <= maxFontSize w')%Q.
Proof. intros Hw. unfold maxFontSize. qcases; lra. Qed.

Lemma ofNat_le (i j : nat) : i ≤ j → (ofNat i <= ofNat j)%Q.
Proof.
  intros Hij. unfold ofNat. rewrite <- Zle_Qle. lia.
Qed.

Lemma ofNat_S (n : nat) : (ofNat (S n) == ofNat n + 1)%Q.
Proof.
  unfold ofNat. rewrite Nat2Z.inj_succ. unfold Z.succ.
  by rewrite inject_Z_plus.
Qed.

(** X15. The responsive sizes stay inside their design ranges for every
    width and every number of years (bar width in 0.5 .. 2, font size in
    4 .. 12, tick length in 8 .. 20), the font grows with the width and
    the bars shrink with the number of years; up to 27 years the bars have
    the full width 2 and from 65 years on the minimum 0.5, and from 480
    pixels on the font size is the step function of the width alone.  The
    tick of every fifth year is longer than the others. *)
Theorem responsive_sizes_clamped (width width' : Q) (n n' : nat) :
  ((1 # 2) <= barWidth n <= 2)%Q
  ∧ (4 <= fontSize width <= 12)%Q
  ∧ (8 <= tickLength width <= 20)%Q
  ∧ (width <= width' → fontSize width <= fontSize width'
                       ∧ tickLength width <= tickLength width')%Q
  ∧ (n ≤ n' → (barWidth n' <= barWidth n)%Q)
  ∧ (n ≤ 27 → (barWidth n == 2)%Q)
  ∧ (65 ≤ n → (barWidth n == 1 # 2)%Q)
  ∧ (480 <= width → fontSize width == maxFontSize width)%Q
  ∧ (∀ y y', isMajorTick y = true → isMajorTick y' = false →
       (tickLen width y' < tickLen width y)%Q).
Proof.
  split; [apply clamp_bounds; lra|].
  split.
  { pose proof (maxFontSize_bounds width). unfold fontSize, qmax, qmin.
    qcases; split; lra. }
  split; [apply clamp_bounds; lra|].
  split.
  { intros Hw. split.
    - pose proof (maxFontSize_mono width width' Hw).
      assert (width / 80 <= width' / 80)%Q by (apply Qmult_le_compat_r; [done|apply Qinv_le_0_compat; lra]).
      unfold fontSize, qmax, qmin. qcases; lra.
    - apply clamp_mono. apply Qmult_le_compat_r; [done|apply Qinv_le_0_compat; lra]. }
  split.
  { intros Hn. apply clamp_mono.
    assert (ofNat (Nat.max n 1) <= ofNat (Nat.max n' 1))%Q by (apply ofNat_le; lia).
    lra. }
  split.
  { intros Hn. assert (ofNat (Nat.max n 1) <= ofNat 27)%Q as H by (apply ofNat_le; lia).
    change (ofNat 27) with 27%Q in H.
    unfold barWidth, qmax, qmin. qcases; lra. }
  split.
  { intros Hn. assert (ofNat 65 <= ofNat (Nat.max n 1))%Q as H by (apply ofNat_le; lia).
    change (ofNat 65) with 65%Q in H.
    unfold barWidth, qmax, qmin. qcases; lra. }
  split.
  { intros Hw.
    assert (width / 80 == width * (1 # 80))%Q as Hdiv by (unfold Qdiv; reflexivity).
    unfold fontSize, maxFontSize, qmax, qmin. qcases; lra. }
  intros y y' Hy Hy'. unfold tickLen. rewrite Hy, Hy'.
  assert (8 <= tickLength width)%Q by (apply clamp_bounds; lra).
  lra.
Qed.

(** *** The pie glyph *)

Lemma fold_left_max_ge (l : list nat) (a : nat) : a ≤ fold_left Nat.max l a.
Proof.
  revert a. induction l as [|x l IH]; intros a; simpl; [done|].
  etrans; [|apply IH]. lia.
Qed.

Lemma fold_left_max_elem (l : list nat) (a x : nat) :
  x ∈ l → x ≤ fold_left Nat.max l a.
Proof.
  revert a. induction l as [|y l IH]; intros a Hx; simpl.
  - by apply elem_of_nil in Hx.
  - apply elem_of_cons in Hx as [->|Hx].
    + etrans; [|apply fold_left_max_ge]. lia.
    + by apply IH.
Qed.

Lemma pieGlyphYears_elem (arcYears : list Z) (filtered : list Node)
    (inflG : gset string) (year : Z) :
  year ∈ pieGlyphYears arcYears filtered inflG →
  year ∈ arcYears ∧ 0 < length (yearData filtered year)
  ∧ pieGlyphsShown inflG = true.
Proof.
  unfold pieGlyphYears. destruct (pieGlyphsShown inflG); [|by intros ?%elem_of_nil].
  intros [Hy Hlen]%list_elem_of_In%filter_In.
  split; [by apply list_elem_of_In|]. split; [|done].
  apply negb_true_iff, Nat.eqb_neq in Hlen. lia.
Qed.

(** X16. Every pie that is drawn has a radius above 5 and at most 18, the
    radius grows with the number of visible works of the year, and the year
    with the most works gets exactly 18. *)
Theorem pie_radius_range (arcYears : list Z) (filtered : list Node)
    (inflG : gset string) (year : Z) :
  year ∈ pieGlyphYears arcYears filtered inflG →
  (pieMinRadius < pieRadius arcYears filtered year <= pieMaxRadius)%Q
  ∧ (length (yearData filtered year) = maxArtworksInYear arcYears filtered →
     pieRadius arcYears filtered year == pieMaxRadius)%Q
  ∧ (∀ year', length (yearData filtered year') ≤ length (yearData filtered year) →
       pieRadius arcYears filtered year' <= pieRadius arcYears filtered year)%Q.
Proof.
  intros (Hin & Hpos & _)%pieGlyphYears_elem.
  assert (length (yearData filtered year) ≤ maxArtworksInYear arcYears filtered) as Hle.
  { apply fold_left_max_elem. apply list_elem_of_In, in_map_iff.
    exists year. split; [done|by apply list_elem_of_In]. }
  assert (0 < ofNat (maxArtworksInYear arcYears filtered))%Q as Hmax.
  { apply (ofNat_lt 0). lia. }
  assert (0 < ofNat (length (yearData filtered year)))%Q as Hc
    by (apply (ofNat_lt 0); lia).
  unfold pieRadius, pieMinRadius, pieMaxRadius.
  split; [split|split].
  - assert (0 < ofNat (length (yearData filtered year))
                / ofNat (maxArtworksInYear arcYears filtered))%Q
      by (apply Qlt_shift_div_l; lra).
    lra.
  - assert (ofNat (length (yearData filtered year))
            / ofNat (maxArtworksInYear arcYears filtered) <= 1)%Q.
    { apply Qle_shift_div_r; [done|]. apply ofNat_le in Hle. lra. }
    lra.
  - intros Heq. rewrite Heq.
    assert (1 ≤ maxArtworksInYear arcYears filtered) as Hone
      by apply fold_left_max_ge.
    pose proof (Qdiv_inject_same (Z.of_nat (maxArtworksInYear arcYears filtered))
                  ltac:(lia)) as Hsame.
    unfold ofNat. set (q := (_ / _)%Q) in *. lra.
  - intros year' Hy'. apply ofNat_le in Hy'.
    assert (ofNat (length (yearData filtered year'))
            / ofNat (maxArtworksInYear arcYears filtered)
            <= ofNat (length (yearData filtered year))
               / ofNat (maxArtworksInYear arcYears filtered))%Q.
    { apply Qmult_le_compat_r; [done|]. apply Qinv_le_0_compat. lra. }
    lra.
Qed.

Lemma pie_radius_range_witness :
  (pieMinRadius
   < pieRadius (arcYears scenario) (nodes scenario) 2005 <= pieMaxRadius)%Q.
Proof.
  refine (proj1 (pie_radius_range (arcYears scenario) (nodes scenario)
                   allGenres 2005%Z _)).
  apply (bool_decide_unpack _). vm_compute. reflexivity.
Defined.













(** *** Contributor and label marks *)

Lemma fold_left_min_le (l : list nat) (a : nat) : fold_left Nat.min l a ≤ a.
Proof.
  revert a. induction l as [|x l IH]; intros a; simpl; [done|].
  etrans; [apply IH|]. lia.
Qed.

Lemma fold_left_min_elem (l : list nat) (a x : nat) :
  x ∈ l → fold_left Nat.min l a ≤ x.
Proof.
  revert a. induction l as [|y l IH]; intros a Hx; simpl.
  - by apply elem_of_nil in Hx.
  - apply elem_of_cons in Hx as [->|Hx].
    + etrans; [apply fold_left_min_le|]. lia.
    + by apply IH.
Qed.

Lemma minOf_maxOf_bounds (counts : list nat) (x : nat) :
  x ∈ counts → minOf counts ≤ x ≤ maxOf counts.
Proof.
  destruct counts as [|c cs]; [by intros ?%elem_of_nil|].
  intros [->|Hx]%elem_of_cons; unfold minOf, maxOf.
  - split; [apply fold_left_min_le|apply fold_left_max_ge].
  - split; [by apply fold_left_min_elem|by apply fold_left_max_elem].
Qed.

Lemma spreadT_unit (total minA maxA : nat) :
  minA ≤ total ≤ maxA →
  (0 <= spreadT total minA maxA)%Q ∧ (spreadT total minA maxA <= 1)%Q
  ∧ (minA < maxA → total = minA → (spreadT total minA maxA == 0)%Q)
  ∧ (minA < maxA → total = maxA → (spreadT total minA maxA == 1)%Q)
  ∧ (minA = maxA → spreadT total minA maxA = (1 # 2)%Q).
Proof.
  intros [Hlo Hhi]. unfold spreadT.
  destruct (Nat.ltb_spec minA maxA) as [Hlt|Hge].
  - pose proof (ofNat_le _ _ Hlo) as Hlo'. pose proof (ofNat_le _ _ Hhi) as Hhi'.
    pose proof (ofNat_lt _ _ Hlt) as Hlt'.
    assert (0 < ofNat maxA - ofNat minA)%Q as Hd by lra.
    split; [apply Qle_shift_div_l; [done|lra]|].
    split; [apply Qle_shift_div_r; [done|lra]|].
    split; [|split].
    + intros _ ->. field. lra.
    + intros _ ->. apply Qmult_inv_r. lra.
    + lia.
  - split; [lra|]. split; [lra|]. split; [lia|]. split; [lia|done].
Qed.

(** X18. A contributor is placed inside the ring of its band: before the
    jitter its distance from the centre lies between the inner and the outer
    radius of the band, the contributor with the fewest visible works of
    the band on the inner edge and the one with the most on the outer edge
    (the middle when all have equally many); the band above starts where
    the band ends.  With the jitter it can leave the ring, by at most 60
    inwards and 20 outwards.  Its mark has a radius between 1 and 7. *)
Theorem contributor_in_band (radius : Q) (bandIdx : Z) (counts totals : list nat)
    (total totalAll : nat) (nodeId : Z) :
  total ∈ counts → totalAll ∈ totals →
  (bandInner radius bandIdx <= bandR radius bandIdx counts total
   ∧ bandR radius bandIdx counts total <= bandOuter radius bandIdx)%Q
  ∧ (bandOuter radius bandIdx == bandInner radius (bandIdx + 1))%Q
  ∧ (minOf counts < maxOf counts →
       (total = minOf counts →
          (bandR radius bandIdx counts total == bandInner radius bandIdx)%Q)
       ∧ (total = maxOf counts →
            (bandR radius bandIdx counts total == bandOuter radius bandIdx)%Q))
  ∧ (minOf counts = maxOf counts →
       (bandR radius bandIdx counts total
        == bandInner radius bandIdx + bandWidth / 2)%Q)
  ∧ (bandInner radius bandIdx - 60 <= finalR radius bandIdx counts total nodeId
     ∧ finalR radius bandIdx counts total nodeId <= bandOuter radius bandIdx + 20)%Q
  ∧ (minArtistRadius <= artistMarkRadius totals totalAll
     ∧ artistMarkRadius totals totalAll <= maxArtistRadius)%Q.
Proof.
  intros Hc Ht.
  destruct (spreadT_unit total (minOf counts) (maxOf counts)
              (minOf_maxOf_bounds counts total Hc)) as (T0 & T1 & Tmin & Tmax & Teq).
  destruct (spreadT_unit totalAll (minOf totals) (maxOf totals)
              (minOf_maxOf_bounds totals totalAll Ht)) as (S0 & S1 & _).
  destruct (jitter_bounds (idHash nodeId) 1000 40) as (J1 & J2 & _); [lia|lra|].
  fold (artistRJitter (idHash nodeId)) in J1, J2.
  unfold finalR, bandR, bandOuter, bandInner, minBand, bandWidth, bandStep,
    artistMarkRadius, minArtistRadius, maxArtistRadius in *.
  set (t := spreadT total (minOf counts) (maxOf counts)) in *.
  set (s := spreadT totalAll (minOf totals) (maxOf totals)) in *.
  set (j := artistRJitter (idHash nodeId)) in *.
  split; [split; nra|].
  split; [rewrite inject_Z_plus; ring|].
  split.
  { intros Hlt. split; intros Heq.
    - rewrite (Tmin Hlt Heq). ring.
    - rewrite (Tmax Hlt Heq). ring. }
  split.
  { intros Heq. rewrite (Teq Heq). field. }
  split; [split; nra|split; nra].
Qed.

Lemma contributor_in_band_witness :
  (bandInner 1000 2 <= bandR 1000 2 [3; 1; 5]%nat 3
   ∧ bandR 1000 2 [3; 1; 5]%nat 3 <= bandOuter 1000 2)%Q.
Proof.
  refine (proj1 (contributor_in_band 1000 2 [3; 1; 5]%nat [4; 9]%nat 3 9 17255 _ _)).
  - apply (bool_decide_unpack _). vm_compute. reflexivity.
  - apply (bool_decide_unpack _). vm_compute. reflexivity.
Defined.

Lemma visibleLabels_total_pos (data : list Node) (visible : gset Z) (label : Node) :
  label ∈ visibleLabels data visible → 1 ≤ totalArtworks label.
Proof.
  intros [_ Hl]%elem_of_List_filter.
  apply existsb_exists in Hl as (i & Hi & _).
  unfold totalArtworks.
  assert (i ∈ labelSet label) as Hin.
  { unfold labelSet. apply elem_of_list_to_set. by apply list_elem_of_In. }
  destruct (size (labelSet label)) eqn:Hsz; [|lia].
  apply size_empty_inv in Hsz. apply Hsz in Hin. by apply elem_of_empty in Hin.
Qed.

(** X19. Every label that is drawn has a mark of radius between 2 and 10:
    the label with the most works gets 10 when it has more than one, and if
    no drawn label has more than one work all get 2.  For a median year
    from 1985 on, the mark lies between 405 and 105 inside the arc radius;
    its angle is moved by the jitter by at most 0.075 backwards and 0.025
    forwards. *)
Theorem label_mark_range (data : list Node) (visible : gset Z) (label : Node)
    (radius : Q) (medianYear : Z) :
  label ∈ visibleLabels data visible →
  (minLabelRadius <= labelRadius (visibleLabels data visible) label
   ∧ labelRadius (visibleLabels data visible) label <= maxLabelRadius)%Q
  ∧ (totalArtworks label = maxLabelArtworks (visibleLabels data visible) →
     1 < totalArtworks label →
     (labelRadius (visibleLabels data visible) label == maxLabelRadius)%Q)
  ∧ (maxLabelArtworks (visibleLabels data visible) = 1 →
     (labelRadius (visibleLabels data visible) label == minLabelRadius)%Q)
  ∧ ((1985 ≤ medianYear)%Z →
     (radius - 405 <= labelR radius label medianYear
      ∧ labelR radius label medianYear <= radius - 105)%Q)
  ∧ (- (75 # 1000) <= labelAngleJitter (idHash (id label))
     ∧ labelAngleJitter (idHash (id label)) <= 25 # 1000)%Q.
Proof.
  intros Hl. pose proof (visibleLabels_total_pos data visible label Hl) as Hpos.
  set (labels := visibleLabels data visible) in *.
  assert (totalArtworks label ≤ maxLabelArtworks labels) as Hle.
  { apply fold_left_max_elem. apply list_elem_of_In, in_map_iff.
    exists label. split; [done|by apply list_elem_of_In]. }
  unfold labelRadius, minLabelRadius, maxLabelRadius.
  pose proof (ofNat_le _ _ Hpos) as Hpos'. change (ofNat 1) with 1%Q in Hpos'.
  pose proof (ofNat_le _ _ Hle) as Hle'.
  split; [|split; [|split; [|split]]].
  - destruct (Nat.ltb_spec 1 (maxLabelArtworks labels)) as [Hlt|Hge]; [|split; lra].
    pose proof (ofNat_lt _ _ Hlt) as Hlt'. change (ofNat 1) with 1%Q in Hlt'.
    assert (0 <= (10 - 2) * (ofNat (totalArtworks label) - 1)
                 / (ofNat (maxLabelArtworks labels) - 1))%Q
      by (apply Qle_shift_div_l; [lra|]; lra).
    assert ((10 - 2) * (ofNat (totalArtworks label) - 1)
            / (ofNat (maxLabelArtworks labels) - 1) <= 8)%Q
      by (apply Qle_shift_div_r; [lra|]; lra).
    split; lra.
  - intros Heq Hgt. rewrite <- Heq.
    rewrite (proj2 (Nat.ltb_lt _ _) Hgt).
    pose proof (ofNat_lt _ _ Hgt) as Hlt'. change (ofNat 1) with 1%Q in Hlt'.
    field. lra.
  - intros ->. simpl. lra.
  - intros Hy. destruct (labelBandHeight_range medianYear Hy) as [Hb1 Hb2].
    destruct (jitter_bounds (idHash (id label)) 1000 (labelBandHeight medianYear))
      as (J1 & J2 & _); [lia|lra|].
    fold (labelRadiusJitter (idHash (id label)) (labelBandHeight medianYear)) in J1, J2.
    unfold labelR. split; lra.
  - destruct (jitter_bounds (idHash (id label)) 100 (5 # 100)) as (J1 & J2 & _);
      [lia|lra|].
    fold (labelAngleJitter (idHash (id label))) in J1, J2. split; lra.
Qed.

Lemma label_mark_range_witness :
  (minLabelRadius <= labelRadius (visibleLabels scenario {[1%Z]}) (List.last scenario ada)
   ∧ labelRadius (visibleLabels scenario {[1%Z]}) (List.last scenario ada)
     <= maxLabelRadius)%Q.
Proof.
  refine (proj1 (label_mark_range scenario {[1%Z]} (List.last scenario ada) 1000 2000 _)).
  apply list_elem_of_In. vm_compute. left. reflexivity.
Defined.

(** *** The radii of a tail *)

Lemma fold_left_qmin_le (l : list Q) (a : Q) :
  (fold_left qmin l a <= a)%Q ∧ ∀ x, x ∈ l → (fold_left qmin l a <= x)%Q.
Proof.
  revert a. induction l as [|y l IH]; intros a; simpl.
  - split; [lra|]. by intros x ?%elem_of_nil.
  - destruct (IH (qmin a y)) as [H1 H2].
    pose proof (qmin_le_l a y). pose proof (qmin_le_r a y).
    split; [lra|]. intros x [->|Hx]%elem_of_cons; [lra|by apply H2].
Qed.

Lemma fold_left_qmax_ge (l : list Q) (a : Q) :
  (a <= fold_left qmax l a)%Q ∧ ∀ x, x ∈ l → (x <= fold_left qmax l a)%Q.
Proof.
  revert a. induction l as [|y l IH]; intros a; simpl.
  - split; [lra|]. by intros x ?%elem_of_nil.
  - destruct (IH (qmax a y)) as [H1 H2].
    pose proof (qmax_ge_l a y). pose proof (qmax_ge_r a y).
    split; [lra|]. intros x [->|Hx]%elem_of_cons; [lra|by apply H2].
Qed.

Lemma listMin_listMax_bounds (l : list Q) (x : Q) :
  x ∈ l → (listMin l <= x)%Q ∧ (x <= listMax l)%Q.
Proof.
  destruct l as [|a l]; [by intros ?%elem_of_nil|].
  unfold listMin, listMax.
  destruct (fold_left_qmin_le l a) as [H1 H2].
  destruct (fold_left_qmax_ge l a) as [H3 H4].
  intros [->|Hx]%elem_of_cons; [done|]. split; [by apply H2|by apply H4].
Qed.

Lemma listMin_elem (l : list Q) : l ≠ [] → listMin l ∈ l.
Proof.
  destruct l as [|a l]; [done|]. intros _. unfold listMin.
  revert a. induction l as [|y l IH]; intros a; simpl; [by left|].
  destruct (qmin_cases a y) as [->| ->].
  - specialize (IH a). apply elem_of_cons in IH as [->|IH]; [by left|].
    right. by right.
  - right. apply IH.
Qed.

Lemma listMax_elem (l : list Q) : l ≠ [] → listMax l ∈ l.
Proof.
  destruct l as [|a l]; [done|]. intros _. unfold listMax.
  revert a. induction l as [|y l IH]; intros a; simpl; [by left|].
  unfold qmax at 2. destruct (Qle_bool a y).
  - right. apply IH.
  - specialize (IH a). apply elem_of_cons in IH as [->|IH]; [by left|].
    right. by right.
Qed.

Lemma sorted_head_le (l : list Q) (x y : Q) :
  StronglySorted Qle l → head l = Some x → y ∈ l → (x <= y)%Q.
Proof.
  intros Hs Hh Hy. destruct l as [|a l]; [done|]. injection Hh as ->.
  apply StronglySorted_inv in Hs as [_ Hall].
  apply elem_of_cons in Hy as [->|Hy]; [lra|].
  rewrite Forall_forall in Hall. by apply Hall.
Qed.

Lemma sorted_last_ge (l : list Q) (x y : Q) :
  StronglySorted Qle l → last l = Some x → y ∈ l → (y <= x)%Q.
Proof.
  intros Hs Hl Hy. rewrite last_lookup in Hl.
  apply list_elem_of_lookup in Hy as [j Hj].
  apply (StronglySorted_lookup_le l j (Nat.pred (length l)) y x Hs); [|done|done].
  apply lookup_lt_Some in Hj. lia.
Qed.

Lemma lookup_map {A B} (f : A → B) (l : list A) (i : nat) :
  map f l !! i = f <$> (l !! i).
Proof. exact (list_lookup_fmap f l i). Qed.

Lemma last_map {A B} (f : A → B) (l : list A) :
  last (map f l) = f <$> last l.
Proof. exact (fmap_last f l). Qed.

Lemma head_map {A B} (f : A → B) (l : list A) :
  head (map f l) = f <$> head l.
Proof. by destruct l. Qed.

Lemma head_Some_elem_of {A} (l : list A) (x : A) : head l = Some x → x ∈ l.
Proof. destruct l as [|y l]; [done|]. intros [= ->]. by left. Qed.

(** X20. A tail with at least two years stays between its start and end
    radius, whichever of the two is the larger (the start radius of a
    contributor below the first band can exceed the end radius): every
    radius is a number between the smaller and the larger of [tailMin] and
    [tailMax], whichever of the two mappings is used; and when the
    influence values ascend (as the cumulative influence of non-negative
    scores does) the tail starts exactly at [tailMin] and ends exactly at
    [tailMax]. *)
Theorem tail_radii_within_range (vals : list Q) (tmin tmax : Q) :
  2 ≤ length vals →
  (∀ i, i < length vals →
     ∃ r, tailRadii vals tmin tmax !! i = Some (Some r)
          ∧ (qmin tmin tmax <= r)%Q ∧ (r <= qmax tmin tmax)%Q
          ∧ ((tmin <= tmax)%Q → (tmin <= r)%Q ∧ (r <= tmax)%Q)
          ∧ ((tmax <= tmin)%Q → (tmax <= r)%Q ∧ (r <= tmin)%Q))
  ∧ length (tailRadii vals tmin tmax) = length vals
  ∧ (StronglySorted Qle vals →
     ∃ r0 rn, head (tailRadii vals tmin tmax) = Some (Some r0)
              ∧ last (tailRadii vals tmin tmax) = Some (Some rn)
              ∧ (r0 == tmin)%Q ∧ (rn == tmax)%Q).
Proof.
  intros Hn.
  assert (vals ≠ []) as Hne by (intros ->; simpl in Hn; lia).
  assert (∀ t, 0 <= t → t <= 1 →
    let r := tmin + t * (tmax - tmin) in
    qmin tmin tmax <= r ∧ r <= qmax tmin tmax
    ∧ (tmin <= tmax → tmin <= r ∧ r <= tmax)
    ∧ (tmax <= tmin → tmax <= r ∧ r <= tmin))%Q as Hconvex.
  { intros t H0 H1 r. unfold r.
    pose proof (qmin_le_l tmin tmax). pose proof (qmin_le_r tmin tmax).
    pose proof (qmax_ge_l tmin tmax). pose proof (qmax_ge_r tmin tmax).
    destruct (Qlt_le_dec tmax tmin).
    - assert (0 <= t * (tmin - tmax))%Q by (apply Qmult_le_0_compat; lra).
      assert (0 <= (1 - t) * (tmin - tmax))%Q by (apply Qmult_le_0_compat; lra).
      split; [lra|]. split; [lra|]. split; intros ?; split; lra.
    - assert (0 <= t * (tmax - tmin))%Q by (apply Qmult_le_0_compat; lra).
      assert (0 <= (1 - t) * (tmax - tmin))%Q by (apply Qmult_le_0_compat; lra).
      split; [lra|]. split; [lra|]. split; intros ?; split; lra. }
  destruct (Qeq_bool (listMax vals) (listMin vals)) eqn:Heq.
  - (* all values equal: the index is mapped onto the range *)
    assert (ofNat (length vals) - 1 == inject_Z (Z.of_nat (length vals) - 1))%Q as E
      by (unfold ofNat, Qeq; simpl; lia).
    assert (∀ i, i < length vals →
      (0 <= ofNat i / (ofNat (length vals) - 1))%Q
      ∧ (ofNat i / (ofNat (length vals) - 1) <= 1)%Q) as Hunit.
    { intros i Hi. rewrite E. split.
      - apply Qdiv_inject_nonneg; lia.
      - rewrite <- (Qdiv_inject_same (Z.of_nat (length vals) - 1)) by lia.
        apply Qdiv_inject_le; lia. }
    split; [|split].
    + intros i Hi. exists (linearRadius tmin tmax (length vals) i).
      split; [by apply tailRadii_fallback|].
      destruct (Hunit i Hi) as [H0 H1]. unfold linearRadius.
      apply (Hconvex _ H0 H1).
    + unfold tailRadii. rewrite Heq. simpl. apply length_imap.
    + intros _. exists (linearRadius tmin tmax (length vals) 0),
        (linearRadius tmin tmax (length vals) (Nat.pred (length vals))).
      split; [|split; [|split]].
      * rewrite <- (tailRadii_fallback vals tmin tmax 0 Heq Hn ltac:(lia)).
        by destruct (tailRadii vals tmin tmax).
      * rewrite last_lookup.
        assert (length (tailRadii vals tmin tmax) = length vals) as ->
          by (unfold tailRadii; rewrite Heq; simpl; apply length_imap).
        apply tailRadii_fallback; [done|done|lia].
      * unfold linearRadius. change (ofNat 0) with 0%Q. field.
        rewrite E. unfold Qeq. simpl. lia.
      * unfold linearRadius.
        assert (ofNat (Nat.pred (length vals)) == ofNat (length vals) - 1)%Q as ->
          by (unfold ofNat, Qeq; simpl; lia).
        field. rewrite E. unfold Qeq. simpl. lia.
  - (* the values are mapped from their range onto the radius range *)
    assert (¬ (listMax vals == listMin vals)%Q) as Hneq
      by (intros H%Qeq_bool_iff; congruence).
    destruct (listMin_listMax_bounds vals (listMin vals) (listMin_elem vals Hne))
      as [_ Hmm].
    assert (0 < listMax vals - listMin vals)%Q as Hpos.
    { destruct (Qlt_le_dec (listMin vals) (listMax vals)) as [|Hle]; [lra|].
      exfalso. apply Hneq. lra. }
    assert (∀ v, v ∈ vals →
      (0 <= (v - listMin vals) / (listMax vals - listMin vals))%Q
      ∧ ((v - listMin vals) / (listMax vals - listMin vals) <= 1)%Q) as Hunit.
    { intros v Hv. destruct (listMin_listMax_bounds vals v Hv) as [H1 H2]. split.
      - apply Qle_shift_div_l; [done|lra].
      - apply Qle_shift_div_r; [done|lra]. }
    assert (tailRadii vals tmin tmax
            = map (λ val, Some (tmin + ((val - listMin vals)
                                        / (listMax vals - listMin vals))
                                       * (tmax - tmin))%Q) vals) as Hmap
      by (unfold tailRadii; by rewrite Heq).
    rewrite Hmap. split; [|split].
    + intros i Hi. destruct (lookup_lt_is_Some_2 vals i Hi) as [v Hv].
      eexists. rewrite lookup_map, Hv. simpl.
      split; [reflexivity|].
      destruct (Hunit v (list_elem_of_lookup_2 _ _ _ Hv)) as [H0 H1].
      apply (Hconvex _ H0 H1).
    + apply length_map.
    + intros Hs.
      destruct (head vals) as [v0|] eqn:Hhead; [|by destruct vals].
      destruct (last vals) as [vn|] eqn:Hlast; [|by apply last_None in Hlast].
      exists (tmin + (v0 - listMin vals) / (listMax vals - listMin vals)
                     * (tmax - tmin))%Q,
             (tmin + (vn - listMin vals) / (listMax vals - listMin vals)
                     * (tmax - tmin))%Q.
      split; [by rewrite head_map, Hhead|].
      split; [by rewrite last_map, Hlast|].
      assert (v0 == listMin vals)%Q as E0.
      { destruct (listMin_listMax_bounds vals v0) as [H1 _];
          [by apply head_Some_elem_of|].
        pose proof (sorted_head_le vals v0 (listMin vals) Hs Hhead
                      (listMin_elem vals Hne)). lra. }
      assert (vn == listMax vals)%Q as En.
      { destruct (listMin_listMax_bounds vals vn) as [_ H1];
          [by apply last_Some_elem_of|].
        pose proof (sorted_last_ge vals vn (listMax vals) Hs Hlast
                      (listMax_elem vals Hne)). lra. }
      split.
      * transitivity (tmin + (listMin vals - listMin vals)
                             / (listMax vals - listMin vals) * (tmax - tmin))%Q;
          [|field; lra].
        unfold Qdiv. apply Qplus_comp; [reflexivity|].
        apply Qmult_comp; [|reflexivity]. apply Qmult_comp; [lra|reflexivity].
      * transitivity (tmin + (listMax vals - listMin vals)
                             / (listMax vals - listMin vals) * (tmax - tmin))%Q;
          [|field; lra].
        unfold Qdiv. apply Qplus_comp; [reflexivity|].
        apply Qmult_comp; [|reflexivity]. apply Qmult_comp; [lra|reflexivity].
Qed.

Lemma tail_radii_within_range_witness :
  length (tailRadii (influenceByYear (orEmpty (influence ada)) [2000; 2005; 2010]%Z)
            100 160)
  = 3.
Proof.
  refine (proj1 (proj2 (tail_radii_within_range
            (influenceByYear (orEmpty (influence ada)) [2000; 2005; 2010]%Z)
            100 160 _))).
  vm_compute. lia.
Defined.

(** *** Marks and tails of a frame *)

Lemma omap_app_list {A B} (f : A → option B) (l k : list A) :
  omap f (l ++ k) = omap f l ++ omap f k.
Proof. apply omap_app. Qed.

Lemma optTail_no_mark (fill : string) (t : Tail) :
  omap markOf (optTail fill t) = [].
Proof. by destruct t. Qed.

Lemma optTail_fill (fill fill' : string) (t : Tail) (d : list PathCmd) :
  TailShape fill' d ∈ optTail fill t → fill' = fill.
Proof.
  destruct t as [|d'|]; simpl; [by intros ?%elem_of_nil| |].
  - intros [= -> _]%list_elem_of_singleton. done.
  - intros [=]%list_elem_of_singleton.
Qed.

Lemma optTail_undated (fill fill' : string) (t : Tail) :
  UndatedTail fill' ∈ optTail fill t → fill' = fill.
Proof.
  destruct t as [|d'|]; simpl; [by intros ?%elem_of_nil| |].
  - intros [=]%list_elem_of_singleton.
  - intros [= ->]%list_elem_of_singleton. done.
Qed.

(** X21. In the contributor layer every contributor of the band gets exactly
    one mark, in band order, whatever happens to the tails.  Without a
    selected contributor no tail is drawn at all; a yellow tail belongs to
    the selected contributor and a grey one to another contributor while a
    selection is active (also the tail of a contributor credited with an
    undated work). *)
Theorem one_mark_per_contributor (cosd sind : Q → Q)
    (geomOf : Node → TailGeom) (ycOf : Node → list (option Z))
    (sel : option Z) (band : list Node) :
  omap markOf (drawArtists cosd sind geomOf ycOf sel band) = map id band
  ∧ (sel = None →
     drawArtists cosd sind geomOf ycOf sel band
     = map (λ n, ArtistMark (id n)) band)
  ∧ (∀ fill d, TailShape fill d ∈ drawArtists cosd sind geomOf ycOf sel band →
       ∃ n, n ∈ band
            ∧ ((fill = "#ff0"%string ∧ sel = Some (id n))
               ∨ (fill = "#888"%string ∧ selected sel = true ∧ sel ≠ Some (id n))))
  ∧ (∀ fill, UndatedTail fill ∈ drawArtists cosd sind geomOf ycOf sel band →
       ∃ n, n ∈ band
            ∧ ((fill = "#ff0"%string ∧ sel = Some (id n))
               ∨ (fill = "#888"%string ∧ selected sel = true ∧ sel ≠ Some (id n)))).
Proof.
  split; [|split; [|split]].
  - unfold drawArtists. induction band as [|n band IH]; [done|].
    cbn [flat_map map]. rewrite omap_app, IH. f_equal.
    unfold drawArtist. rewrite !omap_app.
    destruct (bool_decide (sel = Some (id n))),
      (selected sel && negb _); rewrite ?optTail_no_mark; done.
  - intros ->. unfold drawArtists. induction band as [|n band IH]; [done|].
    cbn [flat_map map]. rewrite IH. done.
  - intros fill d Hin. unfold drawArtists in Hin.
    apply list_elem_of_In, in_flat_map in Hin as (n & Hn & Hin).
    exists n. split; [by apply list_elem_of_In|].
    apply list_elem_of_In in Hin. unfold drawArtist in Hin.
    rewrite !elem_of_app in Hin. destruct Hin as [Hin|[Hin|Hin]].
    + left. destruct (bool_decide_reflect (sel = Some (id n))) as [Hs|];
        [|by apply elem_of_nil in Hin].
      split; [by apply optTail_fill in Hin|done].
    + right. destruct (selected sel) eqn:Hsel; simpl in Hin;
        [|by apply elem_of_nil in Hin].
      destruct (bool_decide_reflect (sel = Some (id n))) as [|Hs]; simpl in Hin;
        [by apply elem_of_nil in Hin|].
      split; [by apply optTail_fill in Hin|done].
    + apply list_elem_of_singleton in Hin. discriminate.
  - intros fill Hin. unfold drawArtists in Hin.
    apply list_elem_of_In, in_flat_map in Hin as (n & Hn & Hin).
    exists n. split; [by apply list_elem_of_In|].
    apply list_elem_of_In in Hin. unfold drawArtist in Hin.
    rewrite !elem_of_app in Hin. destruct Hin as [Hin|[Hin|Hin]].
    + left. destruct (bool_decide_reflect (sel = Some (id n))) as [Hs|];
        [|by apply elem_of_nil in Hin].
      split; [by apply optTail_undated in Hin|done].
    + right. destruct (selected sel) eqn:Hsel; simpl in Hin;
        [|by apply elem_of_nil in Hin].
      destruct (bool_decide_reflect (sel = Some (id n))) as [|Hs]; simpl in Hin;
        [by apply elem_of_nil in Hin|].
      split; [by apply optTail_undated in Hin|done].
    + apply list_elem_of_singleton in Hin. discriminate.
Qed.

(** *** The influence line chart *)

Lemma init_counts_lookup (arcYears : list Z) (m : gmap Z nat) (y : Z) :
  default 0 (fold_left (λ m y, <[y := 0]> m) arcYears m !! y) = default 0 (m !! y)
  ∨ default 0 (fold_left (λ m y, <[y := 0]> m) arcYears m !! y) = 0.
Proof.
  revert m. induction arcYears as [|x l IH]; intros m; simpl; [by left|].
  destruct (IH (<[x := 0]> m)) as [H|H]; [|by right].
  rewrite H. destruct (decide (x = y)) as [->|Hne].
  - right. by rewrite lookup_insert_eq.
  - left. by rewrite lookup_insert_ne.
Qed.

Lemma bumpYear_lookup (m : gmap Z nat) (node : Node) (y : Z) :
  default 0 (bumpYear m node !! y)
  = default 0 (m !! y) + (if bool_decide (release_date node = Some y) then 1 else 0).
Proof.
  unfold bumpYear. destruct (release_date node) as [x|].
  - destruct (decide (x = y)) as [->|Hne].
    + rewrite lookup_insert_eq, bool_decide_eq_true_2 by done. simpl. lia.
    + rewrite lookup_insert_ne by done.
      rewrite bool_decide_eq_false_2 by congruence. lia.
  - rewrite bool_decide_eq_false_2 by done. lia.
Qed.

Lemma countNode_lookup (data : list Node) (ig : gset string) (arcYears : list Z)
    (node : Node) (y : Z) (ids : list Z) (m : gmap Z nat) :
  default 0
    (fold_left (λ m infId, if countsEdge data ig arcYears node infId
                           then bumpYear m node else m) ids m !! y)
  = default 0 (m !! y)
    + (if bool_decide (release_date node = Some y)
       then length (List.filter (countsEdge data ig arcYears node) ids)
       else 0).
Proof.
  revert m. induction ids as [|i ids IH]; intros m.
  - cbn. destruct (bool_decide _); lia.
  - cbn [fold_left List.filter]. rewrite IH.
    destruct (countsEdge data ig arcYears node i).
    + rewrite bumpYear_lookup. destruct (bool_decide _); cbn [length]; lia.
    + lia.
Qed.

Lemma influenceCounts_lookup (data : list Node) (ig : gset string)
    (arcYears : list Z) (y : Z) (filtered : list Node) (m : gmap Z nat) :
  default 0 (fold_left (countNode data ig arcYears) filtered m !! y)
  = default 0 (m !! y) + length (edgesOfYear data ig arcYears filtered y).
Proof.
  revert m. induction filtered as [|node filtered IH]; intros m.
  - cbn. lia.
  - cbn [fold_left]. rewrite IH. unfold countNode. rewrite countNode_lookup.
    unfold edgesOfYear. cbn [flat_map]. rewrite length_app.
    destruct (bool_decide _); cbn [length]; lia.
Qed.

(** X22. The line chart and the pie glyphs are never drawn together.  Each
    point of the line carries the number of influence references, from the
    visible works of its year, to nodes of a selected influence genre; its
    distance from the centre lies between the outer edge of the bars and 120
    beyond, and a year with the largest positive count reaches the 120. *)
Theorem line_chart_counts_edges (data : list Node) (ig : gset string)
    (arcYears : list Z) (filtered : list Node) (radius : Q) :
  (lineChartShown ig = true → pieGlyphsShown ig = false)
  ∧ map fst (lineData data ig arcYears filtered) = arcYears
  ∧ (∀ y c, (y, c) ∈ lineData data ig arcYears filtered →
       c = length (edgesOfYear data ig arcYears filtered y)
       ∧ (barBandOuter radius
          <= yScale radius (lineData data ig arcYears filtered) c)%Q
       ∧ (yScale radius (lineData data ig arcYears filtered) c
          <= barBandOuter radius + peakExtension)%Q
       ∧ (c = maxCount (lineData data ig arcYears filtered) →
          (yScale radius (lineData data ig arcYears filtered) c
           == barBandOuter radius + peakExtension)%Q)).
Proof.
  split; [|split].
  - unfold lineChartShown, pieGlyphsShown. intros [_ H]%andb_true_iff.
    apply Nat.ltb_lt in H. apply bool_decide_eq_false_2. lia.
  - unfold lineData. rewrite map_map. cbn. apply map_id.
  - intros y c Hin.
    assert (1 ≤ maxCount (lineData data ig arcYears filtered)) as Hone
      by apply fold_left_max_ge.
    assert (c ≤ maxCount (lineData data ig arcYears filtered)) as Hle.
    { apply fold_left_max_elem. apply list_elem_of_In, in_map_iff.
      exists (y, c). split; [done|by apply list_elem_of_In]. }
    split.
    + unfold lineData in Hin. apply list_elem_of_In, in_map_iff in Hin as (y' & Heq & _).
      injection Heq as -> <-. unfold influenceCountsByYear.
      rewrite influenceCounts_lookup.
      assert (default 0 (fold_left (λ m y, <[y := 0]> m) arcYears ∅ !! y) = 0) as ->; [|lia].
      destruct (init_counts_lookup arcYears ∅ y) as [-> | ->]; [|done].
      by rewrite lookup_empty.
    + pose proof (ofNat_le _ _ Hle) as Hle'.
      assert (0 < ofNat (maxCount (lineData data ig arcYears filtered)))%Q as Hpos
        by (apply (ofNat_lt 0); lia).
      assert (0 <= ofNat c)%Q as Hc by (apply (ofNat_le 0); lia).
      unfold yScale, peakExtension.
      set (mx := ofNat (maxCount (lineData data ig arcYears filtered))) in *.
      assert (0 <= ofNat c / mx)%Q as H0 by (apply Qle_shift_div_l; [done|lra]).
      assert (ofNat c / mx <= 1)%Q as H1 by (apply Qle_shift_div_r; [done|lra]).
      split; [lra|]. split; [lra|].
      intros Hc'. rewrite Hc'. fold mx.
      assert (mx / mx == 1)%Q as Hs by (field; lra).
      set (q := (mx / mx)%Q) in *. lra.
Qed.

(** *** The debounced redraw *)

Lemma run_close_calls {A} (calls : list (nat * A)) :
  ∀ (lastCall : nat * A) (d : Debounced A),
  match timer d, head (calls ++ [lastCall]) with
  | Some (due, _), Some c => c.1 < due
  | _, _ => True
  end →
  closeCalls (delay d) (calls ++ [lastCall]) = true →
  run (callEvents (calls ++ [lastCall])) d
  = (mkDebounced (delay d) (Some (lastCall.1 + delay d, lastCall.2)), []).
Proof.
  induction calls as [|c calls IH]; intros lastCall d Hpend Hclose.
  - change (callEvents ([] ++ [lastCall])) with [(lastCall.1, Call lastCall.2)].
    cbn [run]. cbn [app head] in Hpend.
    assert (elapse lastCall.1 d = (d, [])) as ->.
    { unfold elapse. destruct (timer d) as [[due a]|]; [|done].
      destruct (Nat.leb_spec due lastCall.1); [lia|done]. }
    reflexivity.
  - change (callEvents ((c :: calls) ++ [lastCall]))
      with ((c.1, Call c.2) :: callEvents (calls ++ [lastCall])).
    cbn [run]. cbn [app head] in Hpend.
    assert (elapse c.1 d = (d, [])) as ->.
    { unfold elapse. destruct (timer d) as [[due a]|]; [|done].
      destruct (Nat.leb_spec due c.1); [lia|done]. }
    cbn [fst snd app].
    change ((c :: calls) ++ [lastCall]) with (c :: (calls ++ [lastCall])) in Hclose.
    cbn [closeCalls] in Hclose. apply andb_true_iff in Hclose as [Hgap Hclose].
    rewrite (IH lastCall (debounced c.1 c.2 d)); [done| |done].
    cbn [debounced timer delay].
    destruct (calls ++ [lastCall]) as [|c2 rest] eqn:Hrest; [done|].
    cbn [head]. apply andb_true_iff in Hgap as [_ Hlt]. apply Nat.ltb_lt in Hlt. lia.
Qed.

Lemma run_fired_bound {A} (events : list (nat * DebounceEvent A)) :
  ∀ d : Debounced A,
  length (run events d).2 + (match timer (run events d).1 with Some _ => 1 | None => 0 end)
  ≤ length (List.filter (λ e, match e.2 with Call _ => true | Cancel => false end) events)
    + (match timer d with Some _ => 1 | None => 0 end).
Proof.
  induction events as [|[now ev] events IH]; intros d; [cbn; lia|].
  cbn [run fst snd List.filter]. rewrite length_app.
  assert (length (elapse now d).2 ≤ (match timer d with Some _ => 1 | None => 0 end)) as He.
  { unfold elapse. destruct (timer d) as [[due a]|]; [|cbn; lia].
    destruct (Nat.leb due now); cbn; lia. }
  destruct ev as [args|].
  - specialize (IH (debounced now args (elapse now d).1)). cbn in IH |- *. lia.
  - specialize (IH (cancel (elapse now d).1)). cbn in IH |- *. lia.
Qed.

(** X23. Debouncing runs the function once for a burst of calls: when each
    call comes less than [delay] after the one before, nothing runs during
    the burst, and once [delay] has passed after the last call the function
    runs exactly once, with the arguments of the last call.  In any sequence
    of calls and cancellations the function runs at most once per call, and
    after a cancellation nothing is left to run. *)
Theorem debounce_runs_last_call {A} (δ : nat) (calls : list (nat * A))
    (lastCall : nat * A) (T : nat) :
  closeCalls δ (calls ++ [lastCall]) = true → lastCall.1 + δ ≤ T →
  (run (callEvents (calls ++ [lastCall])) (mkDebounced δ None)).2 = []
  ∧ (elapse T (run (callEvents (calls ++ [lastCall])) (mkDebounced δ None)).1).2
    = [(lastCall.1 + δ, lastCall.2)]
  ∧ (∀ events : list (nat * DebounceEvent A),
       length (run events (mkDebounced δ None)).2
       ≤ length (List.filter
                   (λ e, match e.2 with Call _ => true | Cancel => false end) events))
  ∧ (∀ (d : Debounced A) (now : nat), (elapse now (cancel d)).2 = []).
Proof.
  intros Hclose HT.
  rewrite (run_close_calls calls lastCall (mkDebounced δ None) I Hclose).
  split; [done|]. split.
  - unfold elapse. cbn. destruct (Nat.leb_spec (lastCall.1 + δ) T); [done|lia].
  - split; [|done]. intros events.
    pose proof (run_fired_bound events (mkDebounced δ None)) as H. cbn in H.
    destruct (timer (run events (mkDebounced δ None)).1); lia.
Qed.

Lemma debounce_runs_last_call_witness :
  (elapse 400
     (run (callEvents [(0, 1%Z); (60, 2%Z); (150, 3%Z)]) (mkDebounced 100 None)).1).2
  = [(250, 3%Z)].
Proof.
  exact (proj1 (proj2 (debounce_runs_last_call 100 [(0, 1%Z); (60, 2%Z)] (150, 3%Z) 400
                         eq_refl ltac:(cbn; lia)))).
Defined.

(** *** Totals of the cumulative influence *)

Lemma fold_score_shift (l : list (Z * Q)) (a : Q) :
  (fold_left (λ sum e, sum + snd e) l a == a + totalScore l)%Q.
Proof.
  unfold totalScore. revert a. induction l as [|e l IH]; intros a; simpl; [ring|].
  rewrite (IH (a + e.2)%Q), (IH (0 + e.2)%Q). ring.
Qed.

Lemma totalScore_cons (e : Z * Q) (l : list (Z * Q)) :
  (totalScore (e :: l) == e.2 + totalScore l)%Q.
Proof.
  unfold totalScore at 1. simpl. rewrite fold_score_shift. ring.
Qed.

Lemma totalScore_app (l k : list (Z * Q)) :
  (totalScore (l ++ k) == totalScore l + totalScore k)%Q.
Proof.
  induction l as [|e l IH]; [unfold totalScore at 2; simpl; ring|].
  change ((e :: l) ++ k) with (e :: (l ++ k)).
  rewrite !totalScore_cons, IH. ring.
Qed.

Lemma allScores_shift (infl : list InfluenceEvent) (c : Q) :
  (fold_left (λ acc inf, acc + inf_score inf) infl c == c + allScores infl)%Q.
Proof.
  unfold allScores. revert c. induction infl as [|e infl IH]; intros c; cbn [fold_left]; [ring|].
  rewrite (IH (c + inf_score e)%Q), (IH (0 + inf_score e)%Q). ring.
Qed.

Lemma unknownInfluence_shift (infl : list InfluenceEvent) (c : Q) :
  (fold_left (λ acc inf, match inf_year inf with
                         | None => acc + inf_score inf
                         | Some _ => acc
                         end) infl c
   == c + unknownInfluence infl)%Q.
Proof.
  unfold unknownInfluence. revert c.
  induction infl as [|e infl IH]; intros c; cbn [fold_left]; [ring|].
  destruct (inf_year e).
  - apply IH.
  - rewrite (IH (c + inf_score e)%Q), (IH (0 + inf_score e)%Q). ring.
Qed.

Lemma known_unknown_total (infl : list InfluenceEvent) :
  (allScores infl == unknownInfluence infl + totalScore (knownEvents infl))%Q.
Proof.
  induction infl as [|e infl IH].
  - unfold allScores, unknownInfluence, totalScore. cbn. ring.
  - assert (allScores (e :: infl) == inf_score e + allScores infl)%Q as ->.
    { unfold allScores at 1. cbn [fold_left]. rewrite allScores_shift. ring. }
    assert (unknownInfluence (e :: infl)
            == (match inf_year e with None => inf_score e | Some _ => 0 end)
               + unknownInfluence infl)%Q as ->.
    { unfold unknownInfluence at 1. cbn [fold_left].
      rewrite unknownInfluence_shift. destruct (inf_year e); ring. }
    rewrite IH. unfold knownEvents. cbn [omap list_omap]. fold (knownEvents infl).
    destruct (inf_year e) as [y|]; cbn [mbind option_bind].
    + rewrite totalScore_cons. cbn [snd]. ring.
    + ring.
Qed.

Lemma totalScore_shares (yc : list Z) (c : Q) :
  (totalScore (map (λ y, (y, c)) yc) == ofNat (length yc) * c)%Q.
Proof.
  induction yc as [|y yc IH].
  - unfold totalScore. cbn. change (ofNat 0) with 0%Q. ring.
  - cbn [map length]. rewrite totalScore_cons, IH, ofNat_S. cbn [snd]. ring.
Qed.

(** X24. Influence of unknown year is shared out evenly and entirely over
    the contributed years: when it is positive and the contributor has a
    dated work, every contributed year receives the same share and the
    scores of the cleaned series add up to the total of all events; when it
    is not positive, or there is no contributed year, it is dropped and only
    the dated events remain. *)
Theorem unknown_influence_shared_out (infl : list InfluenceEvent) (yc : list Z) :
  ((0 < unknownInfluence infl)%Q → yc ≠ [] →
     (totalScore (cleanInfluenceArray infl yc) == allScores infl)%Q
     ∧ ∀ y, y ∈ yc →
         (y, (unknownInfluence infl / ofNat (length yc))%Q)
         ∈ cleanInfluenceArray infl yc)
  ∧ (((unknownInfluence infl <= 0)%Q ∨ yc = []) →
     cleanInfluenceArray infl yc = knownEvents infl)
  ∧ (allScores infl == unknownInfluence infl + totalScore (knownEvents infl))%Q.
Proof.
  assert (allScores infl == unknownInfluence infl + totalScore (knownEvents infl))%Q
    as Htot.
  { apply known_unknown_total. }
  split; [|split; [|exact Htot]].
  - intros Hu Hyc. unfold cleanInfluenceArray.
    assert (Qle_bool (unknownInfluence infl) 0 = false) as ->.
    { destruct (Qle_bool (unknownInfluence infl) 0) eqn:E; [|done].
      apply Qle_bool_iff in E. lra. }
    assert (length yc ≠ 0) as Hlen by (destruct yc; [done|cbn; lia]).
    rewrite (proj2 (Nat.eqb_neq _ _) Hlen). cbn [negb andb].
    split.
    + rewrite totalScore_app, totalScore_shares, Htot.
      assert (0 < ofNat (length yc))%Q by (apply (ofNat_lt 0); lia).
      field. lra.
    + intros y Hy. apply elem_of_app. right.
      apply list_elem_of_In, in_map_iff. exists y. split; [done|by apply list_elem_of_In].
  - intros [Hu| ->]; unfold cleanInfluenceArray.
    + apply Qle_bool_iff in Hu. by rewrite Hu.
    + cbn. by rewrite andb_false_r.
Qed.

Lemma fillStep_valid cum i year rest s :
  lastValid i s → nextValid cum i (year :: rest) s →
  lastValid (S i) (fillStep cum i year rest s).1
  ∧ nextValid cum (S i) rest (fillStep cum i year rest s).1.
Proof.
  intros Hlast Hnext. destruct (cum !! year) as [c|] eqn:Hy.
  - unfold fillStep. rewrite Hy. cbn -[Z.of_nat]. split.
    + right. cbn -[Z.of_nat]. lia.
    + left. cbn -[Z.of_nat]. destruct Hnext as [Hst|(q & Hq & HF)]; [lia|].
      cbn in HF. rewrite Hy in HF. injection HF as <- _. lia.
  - pose proof (fillStep_unknown cum i year rest s Hy Hnext) as (H1 & H2 & H3).
    cbv zeta in H3. split.
    + unfold lastValid in *. rewrite H1. lia.
    + destruct (findNextKnown cum rest (S i)) as [[q nv]|] eqn:HF.
      * destruct H3 as (Hq & Hv & _). right. exists q. by rewrite Hq, Hv.
      * destruct H3 as [Hq _]. left. rewrite Hq. lia.
Qed.

Lemma last_cons_default_opt {A} (x d : A) (l : list A) :
  default d (last (x :: l)) = default x (last l).
Proof.
  revert x d. induction l as [|y l IH]; intros x d; [done|].
  change (last (x :: y :: l)) with (last (y :: l)).
  by rewrite (IH y d), (IH y x).
Qed.

Lemma fillLoop_last (cum : gmap Z Q) (rest : list Z) : ∀ i s,
  rest ≠ [] → lastValid i s → nextValid cum i rest s →
  last (fillLoop cum i rest s)
  = Some (default (if (lastKnownIdx s =? -1)%Z then 0%Q else lastKnownValue s)
            (last (knowns cum rest))).
Proof.
  induction rest as [|year rest IH]; intros i s Hne Hlast Hnext; [done|].
  destruct (fillStep_valid cum i year rest s Hlast Hnext) as [Hlast' Hnext'].
  cbn [fillLoop].
  destruct (fillStep cum i year rest s) as [s' v] eqn:Hstep. cbn [fst] in *.
  assert (match cum !! year with
          | Some c => v = c ∧ lastKnownIdx s' = Z.of_nat i ∧ lastKnownValue s' = c
          | None =>
              lastKnownIdx s' = lastKnownIdx s ∧ lastKnownValue s' = lastKnownValue s
              ∧ (rest = [] →
                 v = (if (lastKnownIdx s =? -1)%Z then 0%Q else lastKnownValue s))
          end) as Hcase.
  { destruct (cum !! year) as [c|] eqn:Hy.
    - unfold fillStep in Hstep. rewrite Hy in Hstep. by injection Hstep as <- <-.
    - pose proof (fillStep_unknown cum i year rest s Hy Hnext) as (H1 & H2 & H3).
      rewrite Hstep in H1, H2, H3. cbn [fst snd] in *. cbv zeta in H3.
      split; [done|]. split; [done|]. intros ->. cbn in H3. by destruct H3. }
  destruct rest as [|year' rest'].
  - cbn [fillLoop last]. f_equal.
    destruct (cum !! year) as [c|] eqn:Hy.
    + destruct Hcase as (-> & _). unfold knowns. cbn. by rewrite Hy.
    + destruct Hcase as (_ & _ & Hv). unfold knowns. cbn. rewrite Hy. cbn.
      by apply Hv.
  - assert (last (v :: fillLoop cum (S i) (year' :: rest') s')
            = last (fillLoop cum (S i) (year' :: rest') s')) as ->.
    { cbn [fillLoop]. by destruct (fillStep cum (S i) year' rest' s'). }
    rewrite (IH (S i) s' ltac:(done) Hlast' Hnext'). f_equal.
    destruct (cum !! year) as [c|] eqn:Hy.
    + destruct Hcase as (_ & Hi & Hc). rewrite Hi, Hc.
      assert ((Z.of_nat i =? -1)%Z = false) as -> by (apply Z.eqb_neq; lia).
      rewrite (knowns_cons_known _ _ _ _ Hy). by rewrite last_cons_default_opt.
    + destruct Hcase as (Hi & Hc & _). rewrite Hi, Hc.
      by rewrite (knowns_cons_unknown _ _ _ Hy).
Qed.

Lemma totalScore_filter_split (f g : Z * Q → bool) (l : list (Z * Q)) :
  (∀ e, f e = true → g e = true → False) →
  (totalScore (List.filter (λ e, f e || g e) l)
   == totalScore (List.filter f l) + totalScore (List.filter g l))%Q.
Proof.
  intros Hdisj. induction l as [|e l IH].
  - unfold totalScore. cbn. ring.
  - cbn [List.filter]. destruct (f e) eqn:Hf, (g e) eqn:Hg; cbn [orb].
    + destruct (Hdisj e Hf Hg).
    + rewrite !totalScore_cons, IH. ring.
    + rewrite !totalScore_cons, IH. ring.
    + exact IH.
Qed.

Lemma yearScore_total (clean : list (Z * Q)) (y : Z) :
  (default 0 (yearScore clean y)
   == totalScore (List.filter (λ e, (fst e =? y)%Z) clean))%Q.
Proof.
  unfold yearScore. destruct (List.filter _ clean) as [|e l]; [reflexivity|].
  reflexivity.
Qed.

Lemma knownSums_last (clean : list (Z * Q)) (yl : list Z) : ∀ r,
  NoDup yl →
  (default r (last (knownSums clean r yl))
   == r + totalScore (List.filter (λ e, bool_decide (fst e ∈ yl)) clean))%Q.
Proof.
  induction yl as [|y yl IH]; intros r Hnd.
  - cbn. rewrite (filter_false_nil _ clean).
    + unfold totalScore. cbn. ring.
    + intros e. apply bool_decide_eq_false_2, not_elem_of_nil.
  - apply NoDup_cons in Hnd as [Hy Hnd].
    assert (totalScore (List.filter (λ e, bool_decide (e.1 ∈ y :: yl)) clean)
            == default 0 (yearScore clean y)
               + totalScore (List.filter (λ e, bool_decide (e.1 ∈ yl)) clean))%Q as Hsplit.
    { rewrite yearScore_total.
      rewrite <- (totalScore_filter_split (λ e, (e.1 =? y)%Z)
                    (λ e, bool_decide (e.1 ∈ yl)) clean).
      - assert (List.filter (λ e, bool_decide (e.1 ∈ y :: yl)) clean
                = List.filter (λ e, (e.1 =? y)%Z || bool_decide (e.1 ∈ yl)) clean) as ->;
          [|reflexivity].
        apply filter_ext. intros e.
        destruct (Z.eqb_spec e.1 y) as [->|Hne].
        + apply bool_decide_eq_true_2. by left.
        + cbn. apply bool_decide_ext. rewrite elem_of_cons. tauto.
      - intros e ->%Z.eqb_eq Hin%bool_decide_eq_true. done. }
    cbn [knownSums]. destruct (yearScore clean y) as [sc|].
    + rewrite last_cons_default_opt, (IH (r + sc)%Q Hnd), Hsplit. cbn. ring.
    + rewrite (IH r Hnd), Hsplit. cbn. ring.
Qed.

Lemma yearsList_covers (clean : list (Z * Q)) (yc : list Z) :
  List.filter (λ e, bool_decide (fst e ∈ yearsList clean yc)) clean = clean.
Proof.
  apply filter_true_id. intros e He. apply bool_decide_eq_true_2.
  unfold yearsList. rewrite merge_sort_Permutation, elem_of_remove_dups, elem_of_app.
  right. apply list_elem_of_In, in_map. exact He.
Qed.

(** The last value of the sequence is the last running sum (0 if there is
    none). *)
Lemma influenceByYear_last_sum (infl : list InfluenceEvent) (yc : list Z) :
  yc ≠ [] →
  last (influenceByYear infl yc)
  = Some (default 0%Q
            (last (knownSums (cleanInfluenceArray infl yc) 0%Q
                     (yearsList (cleanInfluenceArray infl yc) yc)))).
Proof.
  intros Hyc. unfold influenceByYear.
  set (clean := cleanInfluenceArray infl yc). set (yl := yearsList clean yc).
  assert (yl ≠ []) as Hyl.
  { destruct yc as [|y yc']; [done|].
    assert (y ∈ yl) as Hin.
    { unfold yl, yearsList.
      rewrite merge_sort_Permutation, elem_of_remove_dups, elem_of_app.
      left. by left. }
    intros E. rewrite E in Hin. by apply elem_of_nil in Hin. }
  rewrite (fillLoop_last _ yl 0 initFill Hyl); [|by left|left; cbn; lia].
  cbn [initFill lastKnownIdx]. cbn [Z.eqb].
  unfold cumulativeByKnownYear.
  by rewrite (cumulative_fold_knowns clean yl 0%Q ∅ (yearsList_NoDup clean yc))
    by (intros; apply lookup_empty).
Qed.

(** X25. A ribbon ends at the contributor's total influence: the last value
    of the cumulative-influence sequence is the sum of the scores of the
    cleaned series, also when the last year has no event of its own (it
    then repeats the last running sum), and is 0 when there is no event. *)
Theorem ribbon_ends_at_total (infl : list InfluenceEvent) (yc : list Z) :
  yc ≠ [] →
  ∃ v, last (influenceByYear infl yc) = Some v
       ∧ (v == totalScore (cleanInfluenceArray infl yc))%Q.
Proof.
  intros Hyc. eexists. split; [by apply influenceByYear_last_sum|].
  set (clean := cleanInfluenceArray infl yc).
  rewrite (knownSums_last clean (yearsList clean yc) 0%Q (yearsList_NoDup clean yc)).
  rewrite yearsList_covers. ring.
Qed.

Lemma ribbon_ends_at_total_witness :
  ∃ v, last (influenceByYear (orEmpty (influence ada)) [2000; 2005; 2010]%Z) = Some v
       ∧ (v == totalScore (cleanInfluenceArray (orEmpty (influence ada))
                             [2000; 2005; 2010]%Z))%Q.
Proof.
  apply ribbon_ends_at_total. discriminate.
Defined.

(** *** The cumulative influence is ascending; the two mappings of the radii *)










(** *** Bands grow with the influence *)

Lemma Qpower10_exp_lt (j k : Z) (x y : Q) :
  (10 ^ j <= x)%Q → (x <= y)%Q → (y < 10 ^ k)%Q → (j < k)%Z.
Proof.
  intros H1 H2 H3. apply (Qpower_lt_compat_l_inv 10); [|reflexivity].
  eapply Qle_lt_trans; [exact H1|]. eapply Qle_lt_trans; [exact H2|exact H3].
Qed.

(** X26. The band index grows with the influence: of two contributors with
    positive total influence the one with the larger influence is never in
    a lower band, so never in a ring closer to the arc.  An influence of at
    least 1 gives a band of at least 1; a positive influence below 1 gives
    a band of 0 or below (a ring at or inside the ring of the contributors
    without influence); a negative influence gives no band at all. *)
Theorem band_index_monotone (radius a b : Q) :
  (0 < a)%Q → (a <= b)%Q →
  (∃ ka kb, getBandIdx a = Some ka ∧ getBandIdx b = Some kb
            ∧ (ka ≤ kb)%Z
            ∧ ((1 <= a)%Q → (1 ≤ ka)%Z)
            ∧ ((a < 1)%Q → (ka ≤ 0)%Z)
            ∧ (bandInner radius ka <= bandInner radius kb)%Q)
  ∧ (∀ q, (q < 0)%Q → getBandIdx q = None).
Proof.
  intros Ha Hab. split.
  - assert (0 < b)%Q as Hb by lra.
    destruct (floor_log10_spec a Ha) as (k & Hk & Hlo & Hhi).
    destruct (floor_log10_spec b Hb) as (k' & Hk' & Hlo' & Hhi').
    exists (1 + k)%Z, (1 + k')%Z.
    assert (getBandIdx a = Some (1 + k)%Z) as ->.
    { unfold getBandIdx. destruct (Qeq_bool a 0) eqn:E.
      - apply Qeq_bool_iff in E. lra.
      - by rewrite Hk. }
    assert (getBandIdx b = Some (1 + k')%Z) as ->.
    { unfold getBandIdx. destruct (Qeq_bool b 0) eqn:E.
      - apply Qeq_bool_iff in E. lra.
      - by rewrite Hk'. }
    pose proof (Qpower10_exp_lt k (k' + 1) a b Hlo Hab Hhi') as Hkk.
    split; [done|]. split; [done|]. split; [lia|]. split; [|split].
    + intros H1.
      assert (0 < k + 1)%Z; [|lia].
      apply (Qpower10_exp_lt 0 (k + 1) 1 a); [|done|done].
      cbn. lra.
    + intros H1.
      assert (k < 0)%Z; [|lia].
      apply (Qpower10_exp_lt k 0 a a); [done|lra|]. cbn. lra.
    + unfold bandInner, bandStep.
      assert (inject_Z (1 + k) <= inject_Z (1 + k'))%Q by (rewrite <- Zle_Qle; lia).
      lra.
  - intros q Hq. unfold getBandIdx.
    destruct (Qeq_bool q 0) eqn:E; [apply Qeq_bool_iff in E; lra|].
    unfold floor_log10. destruct q as [n d]. unfold Qlt in Hq. cbn in Hq |- *.
    destruct (Z.leb_spec n 0); [done|lia].
Qed.

Lemma band_index_monotone_witness :
  ∃ ka kb, getBandIdx (5 # 100) = Some ka ∧ getBandIdx 250 = Some kb
           ∧ (ka ≤ kb)%Z
           ∧ ((1 <= 5 # 100)%Q → (1 ≤ ka)%Z)
           ∧ ((5 # 100 < 1)%Q → (ka ≤ 0)%Z)
           ∧ (bandInner 1000 ka <= bandInner 1000 kb)%Q.
Proof.
  refine (proj1 (band_index_monotone 1000 (5 # 100) 250 _ _)).
  - reflexivity.
  - vm_compute. discriminate.
Defined.

(** *** Every dated work is on the arc *)

Lemma datedYear_Some (w : Node) (y : Z) :
  datedYear w = Some y ↔ release_date w = Some y ∧ y ≠ 0%Z.
Proof.
  unfold datedYear, truthy. destruct (release_date w) as [x|]; cbn; [|by split; [|intros []]].
  destruct (Z.eqb_spec x 0); cbn; split.
  - done.
  - intros [[= ->] ?]. done.
  - intros [= ->]. done.
  - intros [[= ->] ?]. done.
Qed.

Lemma years_elem (data : list Node) (y : Z) :
  y ∈ years data ↔ y ≠ 0%Z ∧ ∃ w, w ∈ nodes data ∧ release_date w = Some y.
Proof.
  unfold years. rewrite merge_sort_Permutation, elem_of_remove_dups, list_elem_of_omap.
  split.
  - intros (w & Hw & Hy). apply datedYear_Some in Hy as [Hy Hne].
    split; [done|]. by exists w.
  - intros (Hne & w & Hw & Hy). exists w. split; [done|]. by apply datedYear_Some.
Qed.

(** X27. Every work that passes the filters and has a release year other
    than 0 is on the arc: its year is one of the years of the arc, the
    temporal scale has an angle for it, and the work is among the works of
    exactly that year.  A work without a release date, or dated 0 (a year
    the arc drops as a falsy value), is among the works of no year of the
    arc, so it is never drawn as a dot. *)
Theorem dated_works_are_on_the_arc (data : list Node) (selG inflG : gset string)
    (a l : option Z) (w : Node) :
  w ∈ filteredNodes data selG inflG a l →
  (∀ y, release_date w = Some y → y ≠ 0%Z →
     y ∈ arcYears data
     ∧ is_Some (angleScale data y)
     ∧ w ∈ yearData (filteredNodes data selG inflG a l) y
     ∧ ∀ y', w ∈ yearData (filteredNodes data selG inflG a l) y' → y' = y)
  ∧ (release_date w = None ∨ release_date w = Some 0%Z →
     ∀ y, y ∈ arcYears data → w ∉ yearData (filteredNodes data selG inflG a l) y)
  ∧ 0%Z ∉ arcYears data.
Proof.
  intros Hw.
  assert (w ∈ nodes data) as Hn.
  { eapply elem_of_sublist; [exact Hw|apply filteredNodes_sublist_nodes]. }
  split; [|split].
  - intros y Hy Hne.
    assert (y ∈ arcYears data) as Hin.
    { rewrite arcYears_years. apply years_elem. split; [done|]. by exists w. }
    split; [done|]. split.
    + unfold angleScale, scalePoint.
      rewrite (remove_dups_NoDup_id (arcYears data)).
      * destruct (indexOf_elem y (arcYears data) Hin) as [i ->]. by eexists.
      * rewrite arcYears_years. apply sorted_lt_NoDup, years_sorted.
    + split.
      * apply elem_of_List_filter. split; [done|by apply bool_decide_eq_true_2].
      * intros y' [_ Hy']%elem_of_List_filter.
        apply bool_decide_eq_true in Hy'. congruence.
  - intros Hnone y Harc [_ Hy]%elem_of_List_filter.
    apply bool_decide_eq_true in Hy.
    rewrite arcYears_years in Harc. apply years_elem in Harc as [Hne _].
    destruct Hnone as [Hnone|Hnone]; congruence.
  - rewrite arcYears_years. intros [Hne _]%years_elem. done.
Qed.

Lemma dated_works_are_on_the_arc_witness :
  is_Some (angleScale scenario 2005).
Proof.
  refine (proj1 (proj2 (proj1 (dated_works_are_on_the_arc scenario allGenres ∅ None None
                                 (work 2 Song 2005 (Some [1%Z])) _) 2005%Z eq_refl _))).
  - apply list_elem_of_In. vm_compute. right. left. reflexivity.
  - done.
Defined.

(** *** Chatbot *)

Lemma errorMessage_nonempty (message : string) : errorMessage message ≠ ""%string.
Proof.
  unfold errorMessage.
  destruct (includes _ message); [done|].
  destruct (includes _ message); [done|].
  destruct (includes _ message); done.
Qed.

Lemma renders_snoc (o l : bool) (ms : list Message) (i : string) (m : Message) :
  renders (mkChat o ms i l) = true →
  renders (mkChat o (ms ++ [m]) i false) = negb o || renderable (text m).
Proof.
  unfold renders. cbn [isOpen messages]. destruct o; cbn [negb orb]; [|done].
  intros H. rewrite forallb_app, H. cbn. by rewrite andb_true_r.
Qed.

(** X28. One exchange with the assistant adds exactly two messages, the
    trimmed text of the user and one answer of the bot, clears the input and
    ends with the loading flag off; a blank input sends nothing.  The
    exchange of a component that renders has no final state in two cases
    only, both raised while rendering and outside the error handling: the
    parsed body is [null] (reading its answer throws), or the chat window is
    open and the answer is an object, or an array holding one, which cannot
    be rendered.  Otherwise the text of the bot is never a falsy value (so
    never the empty string): a missing or falsy answer is replaced by an
    apology, an answer with text is shown as it is, an error gives one of
    the four error texts, and a response with status 500 gives the server
    message whatever its body. *)
Theorem chat_exchange (trim : string → string) (st : ChatState) (reply : Reply) :
  let sent t :=
    mkChat (isOpen st)
      (messages st ++ [mkMessage (JString (trim (inputMessage st))) User;
                       mkMessage t Bot])
      "" false in
  (trim (inputMessage st) = ""%string → handleSendMessage trim st reply = Some st)
  ∧ (trim (inputMessage st) ≠ ""%string →
     handleSendMessage trim st reply
     = (t ← botText reply; if renders (sent t) then Some (sent t) else None))
  ∧ (renders st = true →
     ∀ t, renders (sent t) = negb (isOpen st) || renderable t)
  ∧ (renders st = true →
     (handleSendMessage trim st reply = None
      ↔ trim (inputMessage st) ≠ ""%string
        ∧ (reply = Parsed JNull
           ∨ ∃ t, botText reply = Some t ∧ isOpen st = true ∧ renderable t = false)))
  ∧ (botText reply = None ↔ reply = Parsed JNull)
  ∧ (∀ t, botText reply = Some t → jsonTruthy t = true)
  ∧ (∀ t, botText reply = Some t → renderable t = false →
       ∃ data a, reply = Parsed data ∧ answerOf data = Some (Some a) ∧ t = a)
  ∧ (∀ fields, answerOf (JObject fields) = Some None →
       botText (Parsed (JObject fields)) = Some (JString noAnswer))
  ∧ (∀ a, a ≠ ""%string →
       botText (Parsed (JObject [("answer"%string, JString a)])) = Some (JString a))
  ∧ (∀ message, ∃ t, botText (Thrown message) = Some (JString t)
                     ∧ t ∈ [serverError; networkError; invalidResponse; genericError])
  ∧ (∀ body, botText (HttpError 500 body) = Some (JString serverError)).
Proof.
  intros sent.
  assert (botText reply = None ↔ reply = Parsed JNull) as Hnone.
  { split.
    - destruct reply as [m|s b|[]]; cbn; try done.
    - intros ->. reflexivity. }
  assert (trim (inputMessage st) ≠ ""%string →
     handleSendMessage trim st reply
     = (t ← botText reply; if renders (sent t) then Some (sent t) else None)) as Hsend.
  { intros H. unfold handleSendMessage, sendStart.
    rewrite (proj2 (String.eqb_neq _ _) H). unfold sendFinish.
    destruct (botText reply) as [t|]; [|done].
    cbn [mbind option_bind isOpen messages inputMessage]. unfold sent.
    by rewrite <- app_assoc. }
  assert (renders st = true →
     ∀ t, renders (sent t) = negb (isOpen st) || renderable t) as Hrend.
  { intros Hst t. unfold sent.
    change [mkMessage (JString (trim (inputMessage st))) User; mkMessage t Bot]
      with ([mkMessage (JString (trim (inputMessage st))) User] ++ [mkMessage t Bot]).
    rewrite app_assoc.
    rewrite (renders_snoc (isOpen st) false _ ""%string (mkMessage t Bot)); [done|].
    rewrite (renders_snoc (isOpen st) (isLoading st) (messages st) ""%string).
    - cbn. by rewrite orb_true_r.
    - destruct st as [o ms i l]. exact Hst. }
  split; [|split; [exact Hsend|split; [exact Hrend|split; [|split; [exact Hnone|]]]]].
  - intros H. unfold handleSendMessage, sendStart. by rewrite H.
  - intros Hst.
    destruct (String.eqb_spec (trim (inputMessage st)) "") as [He|Hne].
    + split; [|by intros [? _]].
      unfold handleSendMessage, sendStart. rewrite He. done.
    + rewrite (Hsend Hne). destruct (botText reply) as [t|] eqn:Ht; cbn.
      * rewrite (Hrend Hst t).
        destruct (isOpen st) eqn:Ho, (renderable t) eqn:Hr; cbn.
        -- split; [done|]. intros [_ [Hnull|(t' & [= <-] & _ & Hr')]]; [|congruence].
           apply Hnone in Hnull. congruence.
        -- split; [|done]. intros _. split; [done|]. right. by exists t.
        -- split; [done|]. intros [_ [Hnull|(t' & _ & Ho' & _)]]; [|congruence].
           apply Hnone in Hnull. congruence.
        -- split; [done|]. intros [_ [Hnull|(t' & _ & Ho' & _)]]; [|congruence].
           apply Hnone in Hnull. congruence.
      * split; [|done]. intros _. split; [done|]. left. by apply Hnone.
  - split; [|split; [|split; [|split; [|split]]]].
    + intros t. destruct reply as [m|s b|data]; cbn [botText].
      * intros [= <-]. cbn. apply negb_true_iff, String.eqb_neq, errorMessage_nonempty.
      * intros [= <-]. cbn. apply negb_true_iff, String.eqb_neq, errorMessage_nonempty.
      * destruct (answerOf data) as [[v|]|]; cbn; [| |done].
        -- destruct (jsonTruthy v) eqn:Hv; intros [= <-]; done.
        -- intros [= <-]. done.
    + intros t. destruct reply as [m|s b|data]; cbn [botText].
      * intros [= <-]. done.
      * intros [= <-]. done.
      * destruct (answerOf data) as [[v|]|] eqn:Ha; cbn; [| |done].
        -- destruct (jsonTruthy v) eqn:Hv; intros [= <-]; [|done].
           intros _. by exists data, v.
        -- intros [= <-]. done.
    + intros fields H. cbn [botText]. by rewrite H.
    + intros a Ha. cbn. by rewrite (proj2 (String.eqb_neq _ _) Ha).
    + intros message. eexists. split; [reflexivity|].
      unfold errorMessage.
      destruct (includes _ message); [by left|].
      destruct (includes _ message); [right; by left|].
      destruct (includes _ message); [right; right; by left|].
      right; right; right; by left.
    + intros body. reflexivity.
Qed.

(** In an open chat window without messages: a body that is [null], and an
    answer that is an object, end the exchange without a state; an answer
    that is a number is shown.  With the window closed the object is
    stored, and opening the window then fails. *)
Example chat_replies :
  handleSendMessage (λ s, s) (mkChat true [] "hi" false) (Parsed JNull) = None
  ∧ handleSendMessage (λ s, s) (mkChat true [] "hi" false)
      (Parsed (JObject [("answer"%string, JObject [])])) = None
  ∧ handleSendMessage (λ s, s) (mkChat true [] "hi" false)
      (Parsed (JObject [("answer"%string, JNumber 42)]))
    = Some (mkChat true [mkMessage (JString "hi") User; mkMessage (JNumber 42) Bot]
              "" false)
  ∧ sendFinish (mkChat false [mkMessage (JString "hi") User] "" true)
      (Parsed (JObject [("answer"%string, JObject [])]))
    = Some (mkChat false [mkMessage (JString "hi") User; mkMessage (JObject []) Bot]
              "" false)
  ∧ toggleOpen
      (mkChat false [mkMessage (JString "hi") User; mkMessage (JObject []) Bot] "" false)
    = None.
Proof. repeat split. Qed.

(** *** The angle of a label *)

Lemma angleScale_Some (data : list Node) (y : Z) :
  y ∈ arcYears data → is_Some (angleScale data y).
Proof.
  intros Hin. unfold angleScale, scalePoint.
  rewrite (remove_dups_NoDup_id (arcYears data)).
  - destruct (indexOf_elem y (arcYears data) Hin) as [i ->]. by eexists.
  - rewrite arcYears_years. apply sorted_lt_NoDup, years_sorted.
Qed.

Lemma NoDup_ids_eq (data : list Node) (n m : Node) :
  NoDup (map id data) → n ∈ data → m ∈ data → id n = id m → n = m.
Proof.
  induction data as [|x data IH]; intros Hnd Hn Hm Hid.
  - by apply elem_of_nil in Hn.
  - cbn in Hnd. apply NoDup_cons in Hnd as [Hx Hnd].
    apply elem_of_cons in Hn as [->|Hn]; apply elem_of_cons in Hm as [->|Hm].
    + done.
    + exfalso. apply Hx. rewrite Hid. apply list_elem_of_In, in_map.
      by apply list_elem_of_In.
    + exfalso. apply Hx. rewrite <- Hid. apply list_elem_of_In, in_map.
      by apply list_elem_of_In.
    + by apply IH.
Qed.

Lemma labelYearsArr_on_arc (data : list Node) (selG inflG : gset string)
    (a l : option Z) (label : Node) (y : Z) :
  NoDup (map id data) →
  y ∈ labelYearsArr data
        (visibleSongAlbumIds (filteredNodes data selG inflG a l)) label →
  y ∈ arcYears data.
Proof.
  intros Hnd. unfold labelYearsArr.
  rewrite merge_sort_Permutation, list_elem_of_omap.
  intros (i & Hi & Hy).
  apply elem_of_remove_dups, elem_of_List_filter in Hi as [_ Hvis].
  apply bool_decide_eq_true, visibleSongAlbumIds_elem in Hvis as (w & Hw & Hid).
  destruct (nodeById data !! i) as [art|] eqn:Hart; [|done]. cbn in Hy.
  apply datedYear_Some in Hy as [Hy Hne].
  rewrite nodeById_last in Hart. apply last_Some_elem_of in Hart.
  apply elem_of_List_filter in Hart as [Hart Hida]. apply Z.eqb_eq in Hida.
  assert (w ∈ nodes data) as Hn.
  { eapply elem_of_sublist; [exact Hw|apply filteredNodes_sublist_nodes]. }
  assert (art = w) as ->.
  { apply (NoDup_ids_eq data); [done|done| |congruence].
    by apply elem_of_List_filter in Hn as [Hn _]. }
  rewrite arcYears_years. apply years_elem. split; [done|]. by exists w.
Qed.

(** X29. On a dataset with distinct ids every drawn label gets an angle:
    the release years that enter the median are years of the arc, so with
    an odd number of dated visible works the label sits at the angle of its
    median year; with an even number the rounded mean of the two middle
    years is used if it is a year of the arc and the first year of the arc
    otherwise, and in every case the angle is defined as soon as the arc
    has a year. *)
Theorem label_angle_defined (data : list Node) (selG inflG : gset string)
    (a l : option Z) (label : Node) :
  NoDup (map id data) →
  let yearsArr := labelYearsArr data
                    (visibleSongAlbumIds (filteredNodes data selG inflG a l)) label in
  let m := medianYear (arcYears data) yearsArr in
  Forall (λ y, y ∈ arcYears data) yearsArr
  ∧ (arcYears data ≠ [] → is_Some (labelBaseAngle data m))
  ∧ (Nat.Odd (length yearsArr) →
     ∃ y, m = Some y ∧ y ∈ yearsArr
          ∧ labelBaseAngle data m = angleScale data y
          ∧ is_Some (angleScale data y)).
Proof.
  intros Hnd yearsArr m.
  assert (Forall (λ y, y ∈ arcYears data) yearsArr) as Hall.
  { apply Forall_forall. intros y Hy. by eapply labelYearsArr_on_arc. }
  split; [done|]. split.
  - intros Hne. unfold labelBaseAngle.
    assert (is_Some (head (arcYears data) ≫= angleScale data)) as Hhead.
    { destruct (arcYears data) as [|y0 ys] eqn:E; [done|]. cbn.
      apply angleScale_Some. rewrite E. by left. }
    destruct m as [y|]; [|done].
    case_bool_decide; [by apply angleScale_Some|done].
  - intros Hodd.
    assert (yearsArr ≠ []) as Hne.
    { intros E. rewrite E in Hodd. destruct Hodd as [k Hk]. cbn in Hk. lia. }
    unfold m, medianYear.
    destruct (Nat.ltb_spec 0 (length yearsArr)) as [_|Hlen];
      [|destruct yearsArr; [done|cbn in Hlen; lia]].
    assert (length yearsArr `mod` 2 = 1) as Hmod.
    { destruct Hodd as [k ->]. rewrite Nat.add_comm, Nat.mul_comm.
      by rewrite Nat.Div0.mod_add. }
    rewrite Hmod. cbn [Nat.eqb].
    destruct (lookup_lt_is_Some_2 yearsArr (length yearsArr / 2)) as [y Hy].
    { apply Nat.Div0.div_lt_upper_bound. destruct yearsArr; [done|cbn; lia]. }
    exists y. rewrite Hy.
    assert (y ∈ yearsArr) as Hin by by eapply list_elem_of_lookup_2.
    assert (y ∈ arcYears data) as Harc
      by (rewrite Forall_forall in Hall; by apply Hall).
    split; [done|]. split; [done|]. split.
    + unfold labelBaseAngle. by rewrite bool_decide_eq_true_2.
    + by apply angleScale_Some.
Qed.

Lemma label_angle_defined_witness :
  Forall (λ y, y ∈ arcYears scenario)
    (labelYearsArr scenario
       (visibleSongAlbumIds (filteredNodes scenario allGenres ∅ None None))
       (List.last scenario ada)).
Proof.
  refine (proj1 (label_angle_defined scenario allGenres ∅ None None
                   (List.last scenario ada) _)).
  apply (bool_decide_unpack _). vm_compute. reflexivity.
Defined.

(** *** The partitions of the dataset *)

(** X30. The dataset is split by node type: songs and albums, people,
    musical groups and record labels are four disjoint selections of the
    nodes, each in dataset order.  The years of the arc are exactly the
    release years of the songs and albums other than the year 0 (dropped as
    a falsy value like a missing year), each once and ascending, and sorting
    them again for the arc changes nothing. *)
Theorem dataset_partitions (data : list Node) :
  (∀ n, n ∈ data →
     (n ∈ nodes data ↔ isArtwork n = true)
     ∧ (n ∈ people data ↔ node_type n = Person)
     ∧ (n ∈ groups data ↔ node_type n = MusicalGroup)
     ∧ (n ∈ recordLabels data ↔ node_type n = RecordLabel))
  ∧ (∀ n, ¬ (n ∈ nodes data ∧ n ∈ people data)
          ∧ ¬ (n ∈ nodes data ∧ n ∈ groups data)
          ∧ ¬ (n ∈ nodes data ∧ n ∈ recordLabels data)
          ∧ ¬ (n ∈ people data ∧ n ∈ groups data)
          ∧ ¬ (n ∈ people data ∧ n ∈ recordLabels data)
          ∧ ¬ (n ∈ groups data ∧ n ∈ recordLabels data))
  ∧ length (nodes data) + length (people data) + length (groups data)
    + length (recordLabels data) ≤ length data
  ∧ (∀ y, y ∈ arcYears data
          ↔ y ≠ 0%Z ∧ ∃ w, w ∈ nodes data ∧ release_date w = Some y)
  ∧ StronglySorted Z.lt (arcYears data)
  ∧ arcYears data = years data.
Proof.
  split; [|split; [|split; [|split; [|split]]]].
  - intros n Hn. unfold nodes, people, groups, recordLabels.
    rewrite !elem_of_List_filter, !bool_decide_eq_true. tauto.
  - intros n. unfold nodes, people, groups, recordLabels, isArtwork.
    rewrite !elem_of_List_filter, !bool_decide_eq_true.
    destruct (node_type n); repeat split; intros [[_ H1] [_ H2]]; congruence.
  - unfold nodes, people, groups, recordLabels, isArtwork.
    induction data as [|n data IH]; [cbn; lia|].
    cbn [List.filter length]. destruct (node_type n); cbn [bool_decide decide_rel length];
      repeat case_bool_decide; try congruence; cbn [length]; lia.
  - intros y. rewrite arcYears_years. apply years_elem.
  - rewrite arcYears_years. apply years_sorted.
  - apply arcYears_years.
Qed.
